(** * my-globe: the computational core of [src/App.tsx]

    A shallow embedding of the region classifier, the statistics label, the
    cubic-bezier easing solver, the frame-driven camera and fade drivers and
    the spherical centroid, together with the properties the specification
    states about them.

    Conventions of the embedding.
    - A JavaScript string is a [string] of ASCII characters.  On such text
      [String.prototype.normalize('NFKD')] and the removal of the combining
      marks U+0300..U+036F change nothing.
    - A JavaScript number is an IEEE 754 double.  What is said about
      [cubicBezier] for arbitrary control points is said in double
      arithmetic (module [Double], on Rocq's primitive binary64 floats), and
      so is the run of [sphericalCentroid] on which exact and double
      arithmetic part.  The frame clock, the points of view and the two
      curves the program builds from [cubicBezier] are handled in exact
      rational arithmetic ([Q], modules [Easing] and [Animation]): the
      statements made there use these two curves at 0 and 1 only, where
      double arithmetic gives the same values
      ([Double.cubicBezier_endpoints_exact_witness]).  The centroid formula
      is stated over the real numbers ([R], module [Geodesy]); its statements
      hold of the code up to rounding.
    - [requestAnimationFrame] / [cancelAnimationFrame] are an explicit queue
      of pending callbacks inside the state of the page. *)

From Stdlib Require Import ZArith QArith Qabs Qround Qminmax Lia Lqa Ascii String List DecimalString.
From Stdlib Require Import Reals Lra Psatz.
From Stdlib Require Floats.
From stdpp Require Import base option strings gmap.
Import ListNotations.

(* ===================================================================== *)
(** * Region classifier: [norm], [getFeatISO3], [getFeatName], [groupId] *)
(* ===================================================================== *)

Module Classifier.

Local Open Scope string_scope.
Local Open Scope list_scope.

(** [type GroupKey = 'CAN' | 'USA' | 'GBR' | 'CHN' | 'AUS'] *)
Inductive GroupKey : Set := CAN | USA | GBR | CHN | AUS.

#[global] Instance GroupKey_eq_dec : EqDecision GroupKey.
Proof. solve_decision. Defined.

Record Group : Set := { iso3 : list string; names : list string }.

(** [GROUPS], in the order [Object.keys] enumerates it. *)
Definition GROUPS : list (GroupKey * Group) :=
  [ (CAN, {| iso3 := ["CAN"]; names := ["Canada"] |});
    (USA, {| iso3 := ["USA"];
             names := ["United States of America"; "United States"; "USA"] |});
    (GBR, {| iso3 := ["GBR"];
             names := ["United Kingdom";
                       "United Kingdom of Great Britain and Northern Ireland";
                       "Great Britain"; "UK"; "England"; "Scotland"; "Wales";
                       "Northern Ireland"] |});
    (CHN, {| iso3 := ["CHN"];
             names := ["China"; "People's Republic of China";
                       "Peoples Republic of China"] |});
    (AUS, {| iso3 := ["AUS"]; names := ["Australia"] |}) ].

(** ** Strings *)

Definition isUpper (c : ascii) : bool :=
  let n := nat_of_ascii c in (65 <=? n)%nat && (n <=? 90)%nat.
Definition isLower (c : ascii) : bool :=
  let n := nat_of_ascii c in (97 <=? n)%nat && (n <=? 122)%nat.
Definition isDigit (c : ascii) : bool :=
  let n := nat_of_ascii c in (48 <=? n)%nat && (n <=? 57)%nat.
(** The ASCII members of JavaScript's white space and line terminators. *)
Definition isSpace (c : ascii) : bool :=
  let n := nat_of_ascii c in ((9 <=? n)%nat && (n <=? 13)%nat) || (n =? 32)%nat.

Definition lowerChar (c : ascii) : ascii :=
  if isUpper c then ascii_of_nat (nat_of_ascii c + 32) else c.
Definition upperChar (c : ascii) : ascii :=
  if isLower c then ascii_of_nat (nat_of_ascii c - 32) else c.

Fixpoint mapString (f : ascii -> ascii) (s : string) : string :=
  match s with
  | EmptyString => EmptyString
  | String c r => String (f c) (mapString f r)
  end.

Definition toLowerCase : string -> string := mapString lowerChar.
Definition toUpperCase : string -> string := mapString upperChar.

(** [.normalize('NFKD')] and the removal of combining marks, on ASCII text. *)
Definition normalizeNFKD (s : string) : string := s.
Definition stripCombiningMarks (s : string) : string := s.

(** [.replace(/[^a-z0-9]+/g, ' ')]: every maximal run of characters outside
    [a-z0-9] becomes one space; [inRun] says the previous character was
    already part of such a run. *)
Fixpoint collapseNonAlnum (inRun : bool) (s : string) : string :=
  match s with
  | EmptyString => EmptyString
  | String c r =>
      if isLower c || isDigit c then String c (collapseNonAlnum false r)
      else if inRun then collapseNonAlnum true r
      else String " " (collapseNonAlnum true r)
  end.

Fixpoint trimStart (s : string) : string :=
  match s with
  | EmptyString => EmptyString
  | String c r => if isSpace c then trimStart r else s
  end.

Fixpoint trimEnd (s : string) : string :=
  match s with
  | EmptyString => EmptyString
  | String c r =>
      match trimEnd r with
      | EmptyString => if isSpace c then EmptyString else String c EmptyString
      | r' => String c r'
      end
  end.

Definition trim (s : string) : string := trimEnd (trimStart s).

(** [String.prototype.includes] *)
Fixpoint includes (s sub : string) : bool :=
  String.prefix sub s ||
  match s with
  | EmptyString => false
  | String _ r => includes r sub
  end.

(** ** JavaScript values that are a string or [undefined] *)

Definition truthy (v : option string) : bool :=
  match v with
  | Some s => negb (String.eqb s "")
  | None => false
  end.

(** [a || b] *)
Definition orJS (a b : option string) : option string :=
  if truthy a then a else b.

(** [a || b || c || ...] over the properties named by [k :: ks] of [p]. *)
Definition firstTruthy (p : gmap string string) (k : string) (ks : list string)
  : option string :=
  fold_left (fun acc key => orJS acc (p !! key)) ks (p !! k).

(** [function norm(s?: string)] *)
Definition norm (s : option string) : string :=
  trim (collapseNonAlnum false
         (stripCombiningMarks (normalizeNFKD (toLowerCase (default "" (orJS s (Some ""))))))).

(** ** Features *)

(** A feature as the classifier sees it: an optional property bag. *)
Record Feature : Type := { properties : option (gmap string string) }.

(** [function props(f) { return f?.properties ?? {} }] *)
Definition props (f : option Feature) : gmap string string :=
  match f with
  | Some ft => default ∅ (properties ft)
  | None => ∅
  end.

Definition ISO_KEYS : list string :=
  ["iso_a3"; "ADM0_A3"; "adm0_a3"; "SOV_A3"; "sov_a3"; "WB_A3"; "wb_a3";
   "GU_A3"; "gu_a3"; "SU_A3"; "su_a3"; "A3"; "a3"].

Definition NAME_KEYS : list string :=
  ["admin"; "NAME_LONG"; "name_long"; "NAME_EN"; "name_en"; "NAME"; "name";
   "SOVEREIGNT"; "sovereignt"; "GEOUNIT"; "geounit"; "BRK_NAME"; "brk_name"].

Definition getFeatISO3 (f : option Feature) : option string :=
  firstTruthy (props f) "ISO_A3" ISO_KEYS.

Definition getFeatName (f : option Feature) : option string :=
  firstTruthy (props f) "ADMIN" NAME_KEYS.

(** [GROUPS[key].iso3.includes(iso)] *)
Definition arrayIncludes (l : list string) (s : string) : bool :=
  existsb (String.eqb s) l.

(** First loop of [groupId]: the first key whose ISO list holds [iso]. *)
Fixpoint matchISO (gs : list (GroupKey * Group)) (iso : string) : option GroupKey :=
  match gs with
  | [] => None
  | (key, g) :: rest =>
      if arrayIncludes (iso3 g) iso then Some key else matchISO rest iso
  end.

(** Inner loop of the second loop: some alias normalises to [nameN]. *)
Fixpoint matchAlias (nms : list string) (nameN : string) : bool :=
  match nms with
  | [] => false
  | nm :: rest =>
      if String.eqb (norm (Some nm)) nameN then true else matchAlias rest nameN
  end.

Fixpoint matchName (gs : list (GroupKey * Group)) (nameN : string) : option GroupKey :=
  match gs with
  | [] => None
  | (key, g) :: rest =>
      if matchAlias (names g) nameN then Some key else matchName rest nameN
  end.

(** [const iso = (getFeatISO3(f) || '').toUpperCase()] *)
Definition isoOf (f : option Feature) : string :=
  toUpperCase (default "" (orJS (getFeatISO3 f) (Some ""))).

(** [const nameN = norm(getFeatName(f))] *)
Definition nameNOf (f : option Feature) : string := norm (getFeatName f).

Definition ukHeuristic (nameN : string) : bool :=
  includes nameN "united kingdom" || includes nameN "great britain".

Definition groupId (f : option Feature) : option GroupKey :=
  let iso := isoOf f in
  let nameN := nameNOf f in
  match matchISO GROUPS iso with
  | Some key => Some key
  | None =>
      match matchName GROUPS nameN with
      | Some key => Some key
      | None => if ukHeuristic nameN then Some GBR else None
      end
  end.

Definition isSelectable (f : option Feature) : bool :=
  bool_decide (groupId f <> None).

Definition mkFeature (p : gmap string string) : option Feature :=
  Some {| properties := Some p |}.

Example norm_prc :
  norm (Some "People's Republic of China") = "people s republic of china".
Proof. vm_compute. reflexivity. Qed.

Example groupId_uk :
  groupId (mkFeature {[ "name" := "  GREAT-Britain (island) " ]}) = Some GBR.
Proof. vm_compute. reflexivity. Qed.


(** A code or alias is listed for a group of [GROUPS]. *)
Definition isoListed (iso : string) (key : GroupKey) : Prop :=
  exists g, In (key, g) GROUPS /\ In iso (iso3 g).

Definition aliasListed (nameN : string) (key : GroupKey) : Prop :=
  exists g nm, In (key, g) GROUPS /\ In nm (names g) /\ norm (Some nm) = nameN.

(** ** Facts about the lookups *)

Lemma matchISO_None gs iso :
  matchISO gs iso = None <->
  (forall key g, In (key, g) gs -> ~ In iso (iso3 g)).
Proof.
  induction gs as [|[k g] gs IH]; simpl.
  - split; [intros _ ? ? [] | reflexivity].
  - unfold arrayIncludes. destruct (existsb (String.eqb iso) (iso3 g)) eqn:E.
    + split; [discriminate|]. intros H. exfalso.
      apply existsb_exists in E as (c & Hc & Heq).
      apply String.eqb_eq in Heq. subst c. exact (H k g (or_introl eq_refl) Hc).
    + rewrite IH. split.
      * intros H key g' [Heq|Hin]; [|now apply (H key g')].
        inversion Heq; subst. intros Hc.
        assert (existsb (String.eqb iso) (iso3 g') = true) as E'
          by (apply existsb_exists; exists iso; split; [exact Hc | apply String.eqb_refl]).
        congruence.
      * intros H key g' Hin. apply (H key g'). now right.
Qed.

Lemma matchAlias_true nms nameN :
  matchAlias nms nameN = true <-> exists nm, In nm nms /\ norm (Some nm) = nameN.
Proof.
  induction nms as [|nm nms IH]; simpl.
  - split; [discriminate | intros (? & [] & _)].
  - destruct (String.eqb (norm (Some nm)) nameN) eqn:E.
    + apply String.eqb_eq in E. split; [|reflexivity]. intros _. exists nm. auto.
    + apply String.eqb_neq in E. rewrite IH. split.
      * intros (x & Hx & Hn). exists x. auto.
      * intros (x & [Hx|Hx] & Hn); [subst; contradiction | exists x; auto].
Qed.

Lemma matchName_None gs nameN :
  matchName gs nameN = None <->
  (forall key g nm, In (key, g) gs -> In nm (names g) -> norm (Some nm) <> nameN).
Proof.
  induction gs as [|[k g] gs IH]; simpl.
  - split; [intros _ ? ? ? [] | reflexivity].
  - destruct (matchAlias (names g) nameN) eqn:E.
    + split; [discriminate|]. intros H. exfalso.
      apply matchAlias_true in E as (nm & Hin & Hn).
      exact (H k g nm (or_introl eq_refl) Hin Hn).
    + rewrite IH. split.
      * intros H key g' nm [Heq|Hin] Hnm; [|now apply (H key g')].
        inversion Heq; subst. intros Hn.
        assert (matchAlias (names g') (norm (Some nm)) = true) as E'
          by (apply matchAlias_true; exists nm; auto).
        congruence.
      * intros H key g' nm Hin. apply (H key g'). now right.
Qed.

(** The ISO lists of the five groups are pairwise disjoint, so a listed code
    selects its own group. *)
Lemma matchISO_listed key g iso :
  In (key, g) GROUPS -> In iso (iso3 g) -> matchISO GROUPS iso = Some key.
Proof.
  unfold GROUPS. cbn [In].
  intros H Hc.
  repeat (destruct H as [H|H]; [inversion H; subst; clear H; cbn [In iso3] in Hc;
    destruct Hc as [<-|[]]; reflexivity |]).
  destruct H.
Qed.

(** The normalised aliases of the five groups are pairwise distinct too. *)
Lemma matchName_listed key g nm :
  In (key, g) GROUPS -> In nm (names g) -> matchName GROUPS (norm (Some nm)) = Some key.
Proof.
  unfold GROUPS. cbn [In].
  intros H Hc.
  repeat (destruct H as [H|H]; [inversion H; subst; clear H; cbn [In names] in Hc;
    repeat (destruct Hc as [<-|Hc]; [vm_compute; reflexivity|]); destruct Hc |]).
  destruct H.
Qed.

Lemma firstTruthy_head p k ks s :
  p !! k = Some s -> s <> "" -> firstTruthy p k ks = Some s.
Proof.
  intros Hk Hs. unfold firstTruthy. rewrite Hk.
  assert (truthy (Some s) = true) as Ht.
  { simpl. destruct (String.eqb s "") eqn:E; [apply String.eqb_eq in E; contradiction | reflexivity]. }
  induction ks as [|k' ks IH]; simpl; [reflexivity|].
  unfold orJS at 2. rewrite Ht. exact IH.
Qed.


Lemma isoOf_no_code f : truthy (getFeatISO3 f) = false -> isoOf f = "".
Proof. intros H. unfold isoOf, orJS. rewrite H. reflexivity. Qed.

Lemma isoOf_code f s : getFeatISO3 f = Some s -> isoOf f = toUpperCase s.
Proof.
  intros H. unfold isoOf, orJS. rewrite H. simpl.
  destruct s; reflexivity.
Qed.

Lemma groupId_iso f key : isoListed (isoOf f) key -> groupId f = Some key.
Proof.
  intros (g & Hg & Hc). unfold groupId.
  rewrite (matchISO_listed key g _ Hg Hc). reflexivity.
Qed.

Lemma no_iso_matchISO iso :
  (forall key, ~ isoListed iso key) -> matchISO GROUPS iso = None.
Proof.
  intros H. apply matchISO_None. intros key g Hg Hc.
  apply (H key). exists g. auto.
Qed.

Lemma no_alias_matchName nameN :
  (forall key, ~ aliasListed nameN key) -> matchName GROUPS nameN = None.
Proof.
  intros H. apply matchName_None. intros key g nm Hg Hnm Hn.
  apply (H key). exists g, nm. auto.
Qed.

(** C6. The classifier tries the ISO-3 code first, then equality of the
    normalised name with a normalised alias, then the "united kingdom" /
    "great britain" substring heuristic, and otherwise answers [None].  In
    particular ISO_A3 = "USA" gives the USA group, the long United Kingdom
    name without a code gives GBR, and "Ruritania" without a code is
    unclassified. *)
Theorem groupId_lookup_order :
  (forall f key, isoListed (isoOf f) key -> groupId f = Some key) /\
  (forall f key,
      (forall k, ~ isoListed (isoOf f) k) ->
      aliasListed (nameNOf f) key -> groupId f = Some key) /\
  (forall f,
      (forall k, ~ isoListed (isoOf f) k) ->
      (forall k, ~ aliasListed (nameNOf f) k) ->
      includes (nameNOf f) "united kingdom" = true \/
      includes (nameNOf f) "great britain" = true ->
      groupId f = Some GBR) /\
  (forall f,
      (forall k, ~ isoListed (isoOf f) k) ->
      (forall k, ~ aliasListed (nameNOf f) k) ->
      includes (nameNOf f) "united kingdom" = false ->
      includes (nameNOf f) "great britain" = false ->
      groupId f = None) /\
  (forall f, props f !! "ISO_A3" = Some "USA" -> groupId f = Some USA) /\
  (forall f,
      truthy (getFeatISO3 f) = false ->
      getFeatName f = Some "United Kingdom of Great Britain and Northern Ireland" ->
      groupId f = Some GBR) /\
  (forall f,
      truthy (getFeatISO3 f) = false ->
      getFeatName f = Some "Ruritania" ->
      groupId f = None).
Proof.
  repeat split.
  - exact groupId_iso.
  - intros f key Hiso (g & nm & Hg & Hnm & Hn). unfold groupId.
    rewrite (no_iso_matchISO _ Hiso), <- Hn.
    rewrite (matchName_listed key g nm Hg Hnm). reflexivity.
  - intros f Hiso Hal Huk. unfold groupId.
    rewrite (no_iso_matchISO _ Hiso), (no_alias_matchName _ Hal).
    unfold ukHeuristic. destruct Huk as [-> | ->]; [reflexivity|].
    rewrite orb_true_r. reflexivity.
  - intros f Hiso Hal H1 H2. unfold groupId.
    rewrite (no_iso_matchISO _ Hiso), (no_alias_matchName _ Hal).
    unfold ukHeuristic. rewrite H1, H2. reflexivity.
  - intros f H. apply groupId_iso.
    assert (getFeatISO3 f = Some "USA") as Hc
      by (apply firstTruthy_head; [exact H | discriminate]).
    rewrite (isoOf_code _ _ Hc).
    exists {| iso3 := ["USA"];
              names := ["United States of America"; "United States"; "USA"] |}.
    split; [right; left; reflexivity | left; reflexivity].
  - intros f Hiso Hname. unfold groupId, nameNOf.
    rewrite (isoOf_no_code _ Hiso), Hname. vm_compute. reflexivity.
  - intros f Hiso Hname. unfold groupId, nameNOf.
    rewrite (isoOf_no_code _ Hiso), Hname. vm_compute. reflexivity.
Qed.

Lemma groupId_lookup_order_witness :
  groupId (mkFeature {[ "ISO_A3" := "USA"; "NAME" := "Ruritania" ]}) = Some USA /\
  groupId (mkFeature {[ "NAME_LONG" :=
     "United Kingdom of Great Britain and Northern Ireland" ]}) = Some GBR /\
  groupId (mkFeature {[ "name" := "Ruritania" ]}) = None.
Proof.
  destruct groupId_lookup_order as (_ & _ & _ & _ & Husa & Huk & Hrur).
  split; [|split].
  - apply Husa. vm_compute. reflexivity.
  - apply Huk; vm_compute; reflexivity.
  - apply Hrur; vm_compute; reflexivity.
Defined.

(** C10. The ISO-3 value of the feature is upper-cased before it is compared
    with the groups' ISO lists: a feature whose code is any case variant [s]
    of a listed code is classified like a feature carrying the upper-case
    code itself. *)
Theorem groupId_iso_case_insensitive f s code key :
  isoListed code key ->
  getFeatISO3 f = Some s ->
  toUpperCase s = code ->
  groupId f = Some key /\
  (forall f', getFeatISO3 f' = Some code -> groupId f' = groupId f).
Proof.
  intros Hl Hs Hup.
  assert (groupId f = Some key) as Hf.
  { apply groupId_iso. rewrite (isoOf_code _ _ Hs), Hup. exact Hl. }
  split; [exact Hf|].
  intros f' Hc. rewrite Hf. apply groupId_iso. rewrite (isoOf_code _ _ Hc).
  destruct Hl as (g & Hg & Hin).
  assert (toUpperCase code = code) as ->; [|exists g; auto].
  clear -Hg Hin. unfold GROUPS in Hg. cbn [In] in Hg.
  repeat (destruct Hg as [Hg|Hg]; [inversion Hg; subst; clear Hg; cbn [In iso3] in Hin;
    destruct Hin as [<-|[]]; reflexivity |]).
  destruct Hg.
Qed.

Lemma groupId_iso_case_insensitive_witness :
  groupId (mkFeature {[ "iso_a3" := "Usa" ]}) = Some USA /\
  groupId (mkFeature {[ "ADM0_A3" := "usa"; "NAME" := "Canada" ]}) = Some USA.
Proof.
  assert (isoListed "USA" USA) as Hl.
  { exists {| iso3 := ["USA"];
              names := ["United States of America"; "United States"; "USA"] |}.
    split; [right; left; reflexivity | left; reflexivity]. }
  split.
  - refine (proj1 (groupId_iso_case_insensitive _ "Usa" "USA" USA Hl _ _));
      vm_compute; reflexivity.
  - refine (proj1 (groupId_iso_case_insensitive _ "usa" "USA" USA Hl _ _));
      vm_compute; reflexivity.
Defined.

(** ** The shape of normalised names *)

(** A character [norm] can produce: a lower-case letter, a digit or a
    space. *)
Definition normChar (c : ascii) : bool :=
  isLower c || isDigit c || Ascii.eqb c " ".

Fixpoint allChars (P : ascii -> bool) (s : string) : bool :=
  match s with
  | EmptyString => true
  | String c r => P c && allChars P r
  end.

(** No two spaces in a row. *)
Fixpoint noDoubleSpace (s : string) : bool :=
  match s with
  | String a ((String b _) as r) =>
      negb (Ascii.eqb a " " && Ascii.eqb b " ") && noDoubleSpace r
  | _ => true
  end.

Definition startsWithSpace (s : string) : bool :=
  match s with
  | String c _ => isSpace c
  | EmptyString => false
  end.

(** A string as [norm] leaves it. *)
Definition normalised (s : string) : Prop :=
  allChars normChar s = true /\ noDoubleSpace s = true /\
  startsWithSpace s = false /\ trimEnd s = s.

Lemma normChar_cases c :
  normChar c = true ->
  lowerChar c = c /\
  ((isLower c || isDigit c = true /\ isSpace c = false /\ Ascii.eqb c " " = false) \/
   (isLower c || isDigit c = false /\ isSpace c = true /\ c = " "%char)).
Proof.
  destruct c as [[] [] [] [] [] [] [] []]; cbv; intros H;
    try discriminate; split; try reflexivity; auto.
Qed.

Lemma lower_upper c : lowerChar (upperChar c) = lowerChar c.
Proof. destruct c as [[] [] [] [] [] [] [] []]; reflexivity. Qed.

Lemma lower_lower c : lowerChar (lowerChar c) = lowerChar c.
Proof. destruct c as [[] [] [] [] [] [] [] []]; reflexivity. Qed.

Lemma alnum_not_space c :
  isLower c || isDigit c = true -> Ascii.eqb c " " = false /\ isSpace c = false.
Proof.
  destruct c as [[] [] [] [] [] [] [] []]; cbv; intros H; try discriminate; auto.
Qed.

Lemma collapse_shape s : forall inRun,
  allChars normChar (collapseNonAlnum inRun s) = true /\
  noDoubleSpace (collapseNonAlnum inRun s) = true /\
  (inRun = true -> startsWithSpace (collapseNonAlnum inRun s) = false).
Proof.
  induction s as [|c s IH]; intros inRun; cbn [collapseNonAlnum].
  - auto.
  - destruct (isLower c || isDigit c) eqn:E.
    + destruct (IH false) as (Ha & Hn & _).
      destruct (alnum_not_space c E) as [Hsp Hsp'].
      cbn [allChars startsWithSpace]. unfold normChar at 1. rewrite E, Ha.
      split; [reflexivity|]. split; [|intros _; exact Hsp'].
      cbn [noDoubleSpace]. destruct (collapseNonAlnum false s); [reflexivity|].
      rewrite Hsp. exact Hn.
    + destruct inRun.
      * apply IH.
      * destruct (IH true) as (Ha & Hn & Hs). specialize (Hs eq_refl).
        cbn [allChars]. rewrite Ha. split; [reflexivity|].
        split; [|discriminate].
        cbn [noDoubleSpace]. destruct (collapseNonAlnum true s) as [|d r] eqn:Er;
          [reflexivity|].
        rewrite Hn. cbn [startsWithSpace] in Hs.
        destruct (Ascii.eqb d " ") eqn:Ed; [|reflexivity].
        apply Ascii.eqb_eq in Ed. subst d. discriminate.
Qed.

Lemma noDoubleSpace_tail c s : noDoubleSpace (String c s) = true -> noDoubleSpace s = true.
Proof.
  cbn [noDoubleSpace]. destruct s; [reflexivity|].
  intros H. apply andb_true_iff in H. apply H.
Qed.

Lemma trimStart_shape s :
  allChars normChar s = true -> noDoubleSpace s = true ->
  allChars normChar (trimStart s) = true /\ noDoubleSpace (trimStart s) = true /\
  startsWithSpace (trimStart s) = false.
Proof.
  induction s as [|c s IH]; intros Ha Hn; cbn [trimStart]; [auto|].
  destruct (isSpace c) eqn:E.
  - cbn [allChars] in Ha. apply andb_true_iff in Ha as [_ Ha].
    apply IH; [exact Ha | exact (noDoubleSpace_tail _ _ Hn)].
  - cbn [startsWithSpace]. auto.
Qed.

Lemma trimEnd_head c s d r : trimEnd (String c s) = String d r -> d = c.
Proof.
  cbn [trimEnd]. destruct (trimEnd s); [destruct (isSpace c)|]; congruence.
Qed.

Lemma trimEnd_shape s :
  allChars normChar s = true -> noDoubleSpace s = true ->
  allChars normChar (trimEnd s) = true /\ noDoubleSpace (trimEnd s) = true /\
  (startsWithSpace s = false -> startsWithSpace (trimEnd s) = false) /\
  trimEnd (trimEnd s) = trimEnd s.
Proof.
  induction s as [|c s IH]; intros Ha Hn; [cbn; auto|].
  cbn [allChars] in Ha. apply andb_true_iff in Ha as [Hc Ha].
  destruct (IH Ha (noDoubleSpace_tail _ _ Hn)) as (Ha' & Hn' & _ & Hi).
  cbn [trimEnd]. destruct (trimEnd s) as [|d r] eqn:Et.
  - destruct (isSpace c) eqn:E; [cbn; auto|].
    cbn [allChars noDoubleSpace startsWithSpace trimEnd]. rewrite Hc, E. auto.
  - split; [|split; [|split; [auto|]]].
    + change (normChar c && allChars normChar (String d r) = true).
      rewrite Hc, Ha'. reflexivity.
    + destruct s as [|d' s']; [discriminate|].
      apply trimEnd_head in Et as Hd. subst d'.
      change (negb (Ascii.eqb c " " && Ascii.eqb d " ") &&
              noDoubleSpace (String d s') = true) in Hn.
      change (negb (Ascii.eqb c " " && Ascii.eqb d " ") &&
              noDoubleSpace (String d r) = true).
      apply andb_true_iff in Hn as [Hcd _].
      rewrite Hcd, Hn'. reflexivity.
    + change (trimEnd (String c (String d r)))
        with (match trimEnd (String d r) with
              | EmptyString => if isSpace c then EmptyString else String c EmptyString
              | String a r' => String c (String a r')
              end).
      rewrite Hi. reflexivity.
Qed.

Lemma trimStart_id s : startsWithSpace s = false -> trimStart s = s.
Proof. destruct s as [|c s]; [reflexivity|]. cbn. intros ->. reflexivity. Qed.

(** [norm] always returns a normalised string. *)
Lemma norm_normalised v : normalised (norm v).
Proof.
  unfold norm, trim, stripCombiningMarks, normalizeNFKD.
  set (t := toLowerCase _).
  destruct (collapse_shape t false) as (Ha & Hn & _).
  destruct (trimStart_shape _ Ha Hn) as (Ha1 & Hn1 & Hs1).
  destruct (trimEnd_shape _ Ha1 Hn1) as (Ha2 & Hn2 & Hs2 & Hi).
  unfold normalised. auto.
Qed.

Lemma toLowerCase_id s : allChars normChar s = true -> toLowerCase s = s.
Proof.
  induction s as [|c s IH]; [reflexivity|]. cbn [allChars]. intros H.
  apply andb_true_iff in H as [Hc Ha]. unfold toLowerCase in *. cbn [mapString].
  rewrite (proj1 (normChar_cases c Hc)), (IH Ha). reflexivity.
Qed.

Lemma collapse_id s : forall inRun,
  allChars normChar s = true -> noDoubleSpace s = true ->
  (inRun = true -> startsWithSpace s = false) ->
  collapseNonAlnum inRun s = s.
Proof.
  induction s as [|c s IH]; intros inRun Ha Hn Hs; [reflexivity|].
  cbn [allChars] in Ha. apply andb_true_iff in Ha as [Hc Ha].
  pose proof (noDoubleSpace_tail _ _ Hn) as Hn'.
  cbn [collapseNonAlnum].
  destruct (normChar_cases c Hc) as [_ [(E & _ & _)|(E & Esp & ->)]]; rewrite E.
  - rewrite (IH false Ha Hn'); [reflexivity | discriminate].
  - destruct inRun; [specialize (Hs eq_refl); cbn in Hs; discriminate|].
    rewrite (IH true Ha Hn'); [reflexivity|]. intros _.
    destruct s as [|d s']; [reflexivity|].
    change (negb (Ascii.eqb " " " " && Ascii.eqb d " ") &&
            noDoubleSpace (String d s') = true) in Hn.
    apply andb_true_iff in Hn as [Hd _].
    change (normChar d && allChars normChar s' = true) in Ha.
    apply andb_true_iff in Ha as [Hdc _].
    cbn [startsWithSpace].
    destruct (normChar_cases d Hdc) as [_ [(_ & Hsp & _)|(_ & _ & ->)]];
      [exact Hsp | discriminate].
Qed.

Lemma orJS_default s : default "" (orJS (Some s) (Some "")) = s.
Proof.
  unfold orJS. cbn [truthy]. destruct (String.eqb s "") eqn:E; cbn [negb default].
  - apply String.eqb_eq in E. auto.
  - reflexivity.
Qed.

Lemma norm_of_normalised s : normalised s -> norm (Some s) = s.
Proof.
  intros (Ha & Hn & Hs & He). unfold norm, trim, stripCombiningMarks, normalizeNFKD.
  rewrite orJS_default, (toLowerCase_id s Ha).
  rewrite (collapse_id s false Ha Hn) by discriminate.
  rewrite (trimStart_id s Hs). exact He.
Qed.

Lemma toLowerCase_toUpperCase s : toLowerCase (toUpperCase s) = toLowerCase s.
Proof.
  unfold toLowerCase, toUpperCase. induction s as [|c s IH]; [reflexivity|].
  cbn [mapString]. rewrite lower_upper, IH. reflexivity.
Qed.

Lemma toLowerCase_idempotent s : toLowerCase (toLowerCase s) = toLowerCase s.
Proof.
  unfold toLowerCase. induction s as [|c s IH]; [reflexivity|].
  cbn [mapString]. rewrite lower_lower, IH. reflexivity.
Qed.

(** [norm] only produces lower-case letters, digits and single spaces, with
    no space at either end; it is idempotent, and it ignores the case of its
    argument. *)
Theorem norm_canonical (v : option string) (s : string) :
  allChars normChar (norm v) = true /\
  noDoubleSpace (norm v) = true /\
  trim (norm v) = norm v /\
  norm (Some (norm v)) = norm v /\
  norm (Some (toUpperCase s)) = norm (Some s) /\
  norm (Some (toLowerCase s)) = norm (Some s).
Proof.
  pose proof (norm_normalised v) as Hn.
  destruct Hn as (Ha & Hd & Hs & He).
  split; [exact Ha|]. split; [exact Hd|].
  split; [unfold trim; rewrite (trimStart_id _ Hs); exact He|].
  split; [apply norm_of_normalised; unfold normalised; auto|].
  unfold norm. rewrite !orJS_default, toLowerCase_toUpperCase, toLowerCase_idempotent.
  auto.
Qed.

(** ** Property lookup *)

Lemma fold_orJS_truthy (p : gmap string string) ks acc :
  truthy acc = true -> fold_left (fun a key => orJS a (p !! key)) ks acc = acc.
Proof.
  intros Ht. induction ks as [|k ks IH]; cbn [fold_left]; [reflexivity|].
  unfold orJS at 2. rewrite Ht. exact IH.
Qed.

Lemma firstTruthy_cons p k k' ks :
  firstTruthy p k (k' :: ks) =
  if truthy (p !! k) then p !! k else firstTruthy p k' ks.
Proof.
  unfold firstTruthy. cbn [fold_left]. unfold orJS at 2.
  destruct (truthy (p !! k)) eqn:E; [apply fold_orJS_truthy, E | reflexivity].
Qed.

Lemma firstTruthy_spec p ks : forall k,
  (truthy (firstTruthy p k ks) = true ->
   exists pre key post,
     k :: ks = pre ++ key :: post /\ firstTruthy p k ks = p !! key /\
     Forall (fun k' => truthy (p !! k') = false) pre) /\
  (truthy (firstTruthy p k ks) = false <->
   Forall (fun k' => truthy (p !! k') = false) (k :: ks)).
Proof.
  induction ks as [|k' ks IH]; intros k.
  - unfold firstTruthy. cbn [fold_left]. split.
    + intros _. exists [], k, []. split; [reflexivity|]. split; [reflexivity | constructor].
    + split; [intros H; repeat constructor; exact H | intros H; exact (Forall_inv H)].
  - rewrite firstTruthy_cons. destruct (truthy (p !! k)) eqn:E.
    + split.
      * intros _. exists [], k, (k' :: ks). split; [reflexivity|].
        split; [reflexivity | constructor].
      * rewrite E. split; [discriminate|]. intros H. apply Forall_inv in H. congruence.
    + destruct (IH k') as [IH1 IH2]. split.
      * intros H. destruct (IH1 H) as (pre & key & post & Hl & Hv & Hpre).
        exists (k :: pre), key, post. rewrite Hl. split; [reflexivity|].
        split; [exact Hv | constructor; assumption].
      * rewrite IH2. split; [intros H; constructor; assumption|].
        intros H. apply Forall_cons in H. apply H.
Qed.

(** [getFeatISO3] and [getFeatName] answer the value of the first key, in
    the order of the source, whose value is a non-empty string; when no key
    has one, the answer is falsy ([undefined] or the empty string). *)
Theorem getFeat_first_truthy (f : option Feature) :
  (truthy (getFeatISO3 f) = true ->
   exists pre key post,
     "ISO_A3" :: ISO_KEYS = pre ++ key :: post /\
     getFeatISO3 f = props f !! key /\
     Forall (fun k' => truthy (props f !! k') = false) pre) /\
  (truthy (getFeatISO3 f) = false <->
   Forall (fun k' => truthy (props f !! k') = false) ("ISO_A3" :: ISO_KEYS)) /\
  (truthy (getFeatName f) = true ->
   exists pre key post,
     "ADMIN" :: NAME_KEYS = pre ++ key :: post /\
     getFeatName f = props f !! key /\
     Forall (fun k' => truthy (props f !! k') = false) pre) /\
  (truthy (getFeatName f) = false <->
   Forall (fun k' => truthy (props f !! k') = false) ("ADMIN" :: NAME_KEYS)).
Proof.
  unfold getFeatISO3, getFeatName.
  destruct (firstTruthy_spec (props f) ISO_KEYS "ISO_A3") as [H1 H2].
  destruct (firstTruthy_spec (props f) NAME_KEYS "ADMIN") as [H3 H4].
  auto.
Qed.

Lemma norm_falsy v : truthy v = false -> norm v = "".
Proof.
  intros H. unfold norm, orJS. rewrite H. reflexivity.
Qed.

(** A feature none of whose recognised code and name fields holds a
    non-empty string (in particular a feature without properties, or no
    feature at all) is unclassified and not selectable. *)
Theorem groupId_missing_fields (f : option Feature) :
  Forall (fun key => truthy (props f !! key) = false) ("ISO_A3" :: ISO_KEYS) ->
  Forall (fun key => truthy (props f !! key) = false) ("ADMIN" :: NAME_KEYS) ->
  groupId f = None /\ isSelectable f = false.
Proof.
  intros Hiso Hname.
  apply (proj2 (firstTruthy_spec (props f) ISO_KEYS "ISO_A3")) in Hiso.
  apply (proj2 (firstTruthy_spec (props f) NAME_KEYS "ADMIN")) in Hname.
  fold (getFeatISO3 f) in Hiso. fold (getFeatName f) in Hname.
  assert (groupId f = None) as Hg.
  { unfold groupId, nameNOf. rewrite (isoOf_no_code f Hiso), (norm_falsy _ Hname).
    vm_compute. reflexivity. }
  split; [exact Hg|]. unfold isSelectable. rewrite Hg. reflexivity.
Qed.

Lemma groupId_missing_fields_witness :
  groupId (Some {| properties := None |}) = None /\
  groupId (mkFeature {[ "POP_EST" := "1000"; "NAME" := "" ]}) = None.
Proof.
  split.
  - apply groupId_missing_fields; vm_compute; repeat constructor.
  - apply groupId_missing_fields; vm_compute; repeat constructor.
Defined.

(** ** Properties attached by numeric id when the atlas is loaded *)

(** [ID_TO_PROPS]: the ISO code and name of the five countries, by
    ISO 3166-1 numeric id. *)
Definition ID_TO_PROPS (id : Z) : option (string * string) :=
  if (id =? 840)%Z then Some ("USA", "United States of America")
  else if (id =? 124)%Z then Some ("CAN", "Canada")
  else if (id =? 826)%Z then Some ("GBR", "United Kingdom")
  else if (id =? 156)%Z then Some ("CHN", "China")
  else if (id =? 36)%Z then Some ("AUS", "Australia")
  else None.

(** The body of [fc.features.forEach] for a feature whose [+f.id] is [id]
    ([None] when it is not a number). *)
Definition withIdProps (id : option Z) (ft : Feature) : Feature :=
  let base := default ∅ (properties ft) in
  match id ≫= ID_TO_PROPS with
  | None => {| properties := Some base |}
  | Some (iso, nm) =>
      let spread := <["NAME" := nm]> (<["ISO_A3" := iso]> base) in
      {| properties :=
           Some (<["ADMIN" := nm]>
                   (<["NAME_EN" := nm]>
                      (<["NAME" := nm]> (<["ISO_A3" := iso]> spread)))) |}
  end.

Ltac listed_code :=
  split;
  [ eexists; split; [unfold GROUPS; cbn [In]; auto 6 | left; reflexivity]
  | repeat split; first [discriminate | reflexivity] ].

(** A feature whose numeric id is one of the five is classified into that
    country's group and named after it, whatever properties it carried;
    every other feature keeps its properties, hence its classification. *)
Theorem withIdProps_classifies (id : option Z) (ft : Feature) :
  (forall n iso nm,
      id = Some n -> ID_TO_PROPS n = Some (iso, nm) ->
      exists key,
        isoListed iso key /\
        groupId (Some (withIdProps id ft)) = Some key /\
        getFeatName (Some (withIdProps id ft)) = Some nm) /\
  (id ≫= ID_TO_PROPS = None ->
   props (Some (withIdProps id ft)) = props (Some ft) /\
   groupId (Some (withIdProps id ft)) = groupId (Some ft)).
Proof.
  split.
  - intros n iso nm -> Hid.
    assert (props (Some (withIdProps (Some n) ft)) !! "ISO_A3" = Some iso /\
            props (Some (withIdProps (Some n) ft)) !! "ADMIN" = Some nm) as [Hiso Hadm].
    { unfold withIdProps. cbn [mbind option_bind]. rewrite Hid.
      cbn [props properties default]. unfold Datatypes.id. split.
      - rewrite !lookup_insert_ne by discriminate. apply lookup_insert_eq.
      - apply lookup_insert_eq. }
    assert (exists key, isoListed iso key /\ iso <> "" /\ nm <> "" /\
                        toUpperCase iso = iso) as (key & Hl & Hine & Hnne & Hup).
    { unfold ID_TO_PROPS in Hid.
      repeat match type of Hid with
             | (if ?b then _ else _) = _ => destruct b
             end; try discriminate; injection Hid as <- <-;
        first [ exists USA; solve [listed_code]
              | exists CAN; solve [listed_code]
              | exists GBR; solve [listed_code]
              | exists CHN; solve [listed_code]
              | exists AUS; solve [listed_code] ]. }
    exists key. split; [exact Hl|]. split.
    + apply groupId_iso.
      rewrite (isoOf_code _ iso (firstTruthy_head _ _ _ _ Hiso Hine)), Hup. exact Hl.
    + apply firstTruthy_head; assumption.
  - intros Hnone.
    assert (props (Some (withIdProps id ft)) = props (Some ft)) as Hp.
    { unfold withIdProps. rewrite Hnone. reflexivity. }
    split; [exact Hp|].
    unfold groupId, isoOf, nameNOf, getFeatISO3, getFeatName. rewrite Hp. reflexivity.
Qed.

Lemma withIdProps_classifies_witness :
  groupId (Some (withIdProps (Some 826%Z)
                   {| properties := Some {[ "name" := "Canada" ]} |})) = Some GBR.
Proof.
  destruct (withIdProps_classifies (Some 826%Z)
              {| properties := Some {[ "name" := "Canada" ]} |}) as [H _].
  destruct (H 826%Z "GBR" "United Kingdom" eq_refl eq_refl) as (key & Hl & Hg & _).
  rewrite Hg. destruct Hl as (g & Hin & Hc).
  pose proof (matchISO_listed key g "GBR" Hin Hc) as Hm.
  vm_compute in Hm. congruence.
Defined.

End Classifier.

(* ===================================================================== *)
(** * Statistics label: [COUNTRY_STATS], [parseInt], [labelInfo]          *)
(* ===================================================================== *)

Module Label.
Import Classifier.

Local Open Scope string_scope.
Local Open Scope list_scope.
Local Open Scope Z_scope.

Record Stats : Set := { offices : Z; employees : Z }.

Definition COUNTRY_STATS : gmap string Stats :=
  list_to_map
    [ ("CAN", {| offices := 10; employees := 1123 |});
      ("Canada", {| offices := 10; employees := 1123 |});
      ("USA", {| offices := 6; employees := 362 |});
      ("United States of America", {| offices := 6; employees := 362 |});
      ("GBR", {| offices := 17; employees := 765 |});
      ("United Kingdom", {| offices := 17; employees := 765 |});
      ("CHN", {| offices := 3; employees := 12 |});
      ("China", {| offices := 3; employees := 12 |});
      ("AUS", {| offices := 11; employees := 351 |});
      ("Australia", {| offices := 11; employees := 351 |}) ].

(** The string a [GroupKey] is at run time. *)
Definition keyName (g : GroupKey) : string :=
  match g with
  | CAN => "CAN" | USA => "USA" | GBR => "GBR" | CHN => "CHN" | AUS => "AUS"
  end.

Definition canonicalName (g : GroupKey) : string :=
  match g with
  | CAN => "Canada"
  | USA => "United States of America"
  | GBR => "United Kingdom"
  | CHN => "China"
  | AUS => "Australia"
  end.

(** [URLSearchParams]: the pairs of the query string in order; [get] answers
    the first value stored under the name, or [null]. *)
Definition URLSearchParams : Type := list (string * string).

Fixpoint get (params : URLSearchParams) (name : string) : option string :=
  match params with
  | [] => None
  | (k, v) :: rest => if String.eqb k name then Some v else get rest name
  end.

(** [parseInt(s, 10)]: leading white space is skipped, one sign is read, then
    the longest run of decimal digits; [None] is NaN (no digit was read). *)
Definition digitVal (c : ascii) : option Z :=
  if isDigit c then Some (Z.of_nat (nat_of_ascii c) - 48) else None.

Fixpoint parseDigits (s : string) (acc : option Z) : option Z :=
  match s with
  | EmptyString => acc
  | String c r =>
      match digitVal c with
      | Some d => parseDigits r (Some (10 * default 0 acc + d))
      | None => acc
      end
  end.

Definition parseInt10 (s : string) : option Z :=
  match trimStart s with
  | String "-" r => Z.opp <$> parseDigits r None
  | String "+" r => parseDigits r None
  | r => parseDigits r None
  end.

(** [n || 0] for a number: NaN and 0 give 0. *)
Definition orZero (n : option Z) : Z := default 0 n.

(** [Number.prototype.toLocaleString('en-US')] on an integer: the decimal
    digits in groups of three separated by commas (exact for the integers a
    double represents exactly). [commasRev] works on the digits from the
    least significant one, [i] counting those already in the current group. *)
Fixpoint commasRev (ds : list ascii) (i : nat) : list ascii :=
  match ds with
  | [] => []
  | d :: r =>
      if (i =? 3)%nat then ","%char :: d :: commasRev r 1
      else d :: commasRev r (S i)
  end.

Definition groupDigits (digits : string) : string :=
  string_of_list_ascii (rev (commasRev (rev (list_ascii_of_string digits)) 0)).

Definition toLocaleString_enUS (n : Z) : string :=
  let digits := NilZero.string_of_uint (N.to_uint (Z.abs_N n)) in
  if n <? 0 then "-" ++ groupDigits digits else groupDigits digits.

Record LabelInfo : Set :=
  { name : string; officesText : string; employeesText : string }.

(** The body of the [labelInfo] memo, as a function of what it depends on. *)
Definition labelInfo (selected : option Feature) (urlParams : URLSearchParams)
  : option LabelInfo :=
  match selected with
  | None => None
  | Some _ =>
      match groupId selected with
      | None => None
      | Some g =>
          let STATS_KEY := canonicalName g in
          let officesParam := get urlParams "offices" in
          let employeesParam := get urlParams "employees" in
          let defaultStats :=
            match COUNTRY_STATS !! keyName g with
            | Some st => st
            | None =>
                match COUNTRY_STATS !! STATS_KEY with
                | Some st => st
                | None => {| offices := 0; employees := 0 |}
                end
            end in
          let stats :=
            {| offices :=
                 if truthy officesParam
                 then orZero (parseInt10 (default "" officesParam))
                 else offices defaultStats;
               employees :=
                 if truthy employeesParam
                 then orZero (parseInt10 (default "" employeesParam))
                 else employees defaultStats |} in
          Some {| name := canonicalName g;
                  officesText := toLocaleString_enUS (offices stats);
                  employeesText := toLocaleString_enUS (employees stats) |}
      end
  end.

Example parseInt10_examples :
  parseInt10 "  42px" = Some 42 /\ parseInt10 "-7" = Some (-7) /\
  parseInt10 "abc" = None /\ parseInt10 "" = None /\ parseInt10 "+" = None.
Proof. vm_compute. repeat split. Qed.

Example toLocaleString_examples :
  toLocaleString_enUS 1123 = "1,123" /\ toLocaleString_enUS 0 = "0" /\
  toLocaleString_enUS (-1234567) = "-1,234,567" /\ toLocaleString_enUS 999 = "999".
Proof. vm_compute. repeat split. Qed.

Example labelInfo_canada :
  labelInfo (mkFeature {[ "ISO_A3" := "CAN" ]}) [("employees", "25")] =
  Some {| name := "Canada"; officesText := "10"; employeesText := "25" |}.
Proof. vm_compute. reflexivity. Qed.


Lemma truthy_nonempty s : s <> "" -> truthy (Some s) = true.
Proof.
  intros H. simpl. destruct (String.eqb s "") eqn:E; [|reflexivity].
  apply String.eqb_eq in E. contradiction.
Qed.

Lemma truthy_absent_or_empty v : v = None \/ v = Some "" -> truthy v = false.
Proof. intros [-> | ->]; reflexivity. Qed.

Lemma COUNTRY_STATS_key g : exists st, COUNTRY_STATS !! keyName g = Some st.
Proof. destruct g; eexists; vm_compute; reflexivity. Qed.

Lemma groupId_null : groupId None = None.
Proof. vm_compute. reflexivity. Qed.

(** C8, as the specification words it, fails on an empty parameter: [""]
    does not parse as a number, yet [?offices=] leaves the default on display
    because the override is guarded by the truthiness of the parameter. *)
Lemma labelInfo_empty_param_keeps_default :
  let selected := mkFeature {[ "ISO_A3" := "USA" ]} in
  let urlParams := [("offices", "")] in
  get urlParams "offices" = Some "" /\
  parseInt10 "" = None /\
  officesText <$> labelInfo selected urlParams = Some "6" /\
  officesText <$> labelInfo selected urlParams <> Some "0".
Proof. vm_compute. repeat split. discriminate. Qed.

(** C8 (amended). For a selected feature of group [g]: a non-empty [offices]
    or [employees] parameter that [parseInt] cannot read shows "0" for that
    field, and an absent or empty parameter shows the group's default. *)
Theorem labelInfo_numeric_override selected g urlParams :
  groupId selected = Some g ->
  exists info st,
    labelInfo selected urlParams = Some info /\
    COUNTRY_STATS !! keyName g = Some st /\
    (forall s, get urlParams "offices" = Some s -> s <> "" ->
               parseInt10 s = None -> officesText info = "0") /\
    (forall s, get urlParams "employees" = Some s -> s <> "" ->
               parseInt10 s = None -> employeesText info = "0") /\
    (get urlParams "offices" = None \/ get urlParams "offices" = Some "" ->
       officesText info = toLocaleString_enUS (offices st)) /\
    (get urlParams "employees" = None \/ get urlParams "employees" = Some "" ->
       employeesText info = toLocaleString_enUS (employees st)).
Proof.
  intros Hg.
  destruct selected as [ft|]; [|rewrite groupId_null in Hg; discriminate].
  destruct (COUNTRY_STATS_key g) as [st Hst].
  unfold labelInfo. rewrite Hg, Hst.
  eexists. exists st. split; [reflexivity|]. split; [reflexivity|].
  cbn [officesText employeesText offices employees].
  repeat split.
  - intros s Hs Hne Hp. rewrite Hs, (truthy_nonempty _ Hne). simpl default.
    rewrite Hp. reflexivity.
  - intros s Hs Hne Hp. rewrite Hs, (truthy_nonempty _ Hne). simpl default.
    rewrite Hp. reflexivity.
  - intros H. rewrite (truthy_absent_or_empty _ H). reflexivity.
  - intros H. rewrite (truthy_absent_or_empty _ H). reflexivity.
Qed.

Lemma labelInfo_numeric_override_witness :
  exists info,
    labelInfo (mkFeature {[ "ISO_A3" := "GBR" ]}) [("employees", "lots")] = Some info /\
    employeesText info = "0" /\ officesText info = "17".
Proof.
  destruct (labelInfo_numeric_override
              (mkFeature {[ "ISO_A3" := "GBR" ]}) GBR [("employees", "lots")])
    as (info & st & Hinfo & Hst & _ & Hemp & Hoff & _).
  - vm_compute. reflexivity.
  - exists info. split; [exact Hinfo|]. split.
    + apply (Hemp "lots"); [vm_compute; reflexivity | discriminate | vm_compute; reflexivity].
    + rewrite Hoff by (left; vm_compute; reflexivity).
      assert (st = {| offices := 17; employees := 765 |}) as ->
        by (vm_compute in Hst; congruence).
      vm_compute. reflexivity.
Defined.

(** The label exists exactly when the selection is classified; it carries
    the canonical name of the group; and it depends on the selection through
    its group only, and on the parameters through the first [offices] and
    the first [employees] value only. *)
Theorem labelInfo_by_group selected urlParams :
  (labelInfo selected urlParams = None <-> groupId selected = None) /\
  (forall g, groupId selected = Some g ->
             name <$> labelInfo selected urlParams = Some (canonicalName g)) /\
  (forall selected' urlParams',
      groupId selected' = groupId selected ->
      get urlParams' "offices" = get urlParams "offices" ->
      get urlParams' "employees" = get urlParams "employees" ->
      labelInfo selected' urlParams' = labelInfo selected urlParams).
Proof.
  assert (forall sel up,
             labelInfo sel up =
             match groupId sel with
             | None => None
             | Some g =>
                 let defaultStats :=
                   match COUNTRY_STATS !! keyName g with
                   | Some st => st
                   | None =>
                       match COUNTRY_STATS !! canonicalName g with
                       | Some st => st
                       | None => {| offices := 0; employees := 0 |}
                       end
                   end in
                 Some {| name := canonicalName g;
                         officesText :=
                           toLocaleString_enUS
                             (if truthy (get up "offices")
                              then orZero (parseInt10 (default "" (get up "offices")))
                              else offices defaultStats);
                         employeesText :=
                           toLocaleString_enUS
                             (if truthy (get up "employees")
                              then orZero (parseInt10 (default "" (get up "employees")))
                              else employees defaultStats) |}
             end) as Hshape.
  { intros sel up. unfold labelInfo. destruct sel as [f|]; [reflexivity|].
    rewrite groupId_null. reflexivity. }
  split; [|split].
  - rewrite Hshape. destruct (groupId selected); split; (discriminate || reflexivity).
  - intros g Hg. rewrite Hshape, Hg. reflexivity.
  - intros sel' up' Hg Ho He. rewrite !Hshape, Hg, Ho, He. reflexivity.
Qed.

End Label.

(* ===================================================================== *)
(** * Easing engine: [cubicBezier] in exact arithmetic                    *)
(* ===================================================================== *)

(** The curve with every operation exact.  [Animation] uses it for the two
    curves of the program; [cubicBezier] as the code computes it, which
    differs for control points of large magnitude, is in [Double]. *)
Module Easing.

Local Open Scope Q_scope.

Definition NEWTON_ITER : nat := 8.
Definition NEWTON_EPS : Q := 1 # 1000000.
Definition SUBDIV_EPS : Q := 1 # 10000000.

(** What one pass of the [while (t0 < t1)] loop of [solveX] does: it leaves
    the function with [t] ([Done], by [return t], by [break] or because the
    loop condition fails), or goes round again with a new bracket and
    estimate ([Next]). *)
Inductive Outcome : Set :=
  | Done (t : Q)
  | Next (t0 t1 t : Q).

(** [2^n] as a rational. *)
Fixpoint pow2 (n : nat) : Q :=
  match n with
  | O => 1
  | S k => 2 * pow2 k
  end.

(** A number of passes that suffices for the bisection started at the
    estimate [t] with the bracket [0, 1]; see [bisect_enough_fuel]. *)
Definition passesBound (t : Q) : nat :=
  S (S (Z.to_nat (Z.log2_up (Qceiling ((Qabs t + 1) / SUBDIV_EPS))))).

(** ** Auxiliary notions *)

Lemma Qhalf (a : Q) : a / 2 == a * (1 # 2).
Proof. reflexivity. Qed.

(** Two comparisons of equal rationals take the same branch. *)
Lemma Qlt_le_dec_agree (a b a' b' : Q) :
  a == a' -> b == b' ->
  (exists H H', Qlt_le_dec a b = left H /\ Qlt_le_dec a' b' = left H') \/
  (exists H H', Qlt_le_dec a b = right H /\ Qlt_le_dec a' b' = right H').
Proof.
  intros Ha Hb.
  destruct (Qlt_le_dec a b) as [H|H], (Qlt_le_dec a' b') as [H'|H'].
  - left. eauto.
  - exfalso. rewrite Ha, Hb in H. exact (Qlt_not_le _ _ H H').
  - exfalso. rewrite Ha, Hb in H. exact (Qlt_not_le _ _ H' H).
  - right. eauto.
Qed.

Definition Outcome_eq (o o' : Outcome) : Prop :=
  match o, o' with
  | Done t, Done t' => t == t'
  | Next a b c, Next a' b' c' => a == a' /\ b == b' /\ c == c'
  | _, _ => False
  end.

Definition optQ_eq (o o' : option Q) : Prop :=
  match o, o' with
  | Some t, Some t' => t == t'
  | None, None => True
  | _, _ => False
  end.

Lemma pow2_pos n : 0 < pow2 n.
Proof. induction n; simpl; lra. Qed.

Lemma pow2_inject n : pow2 n == inject_Z (2 ^ Z.of_nat n).
Proof.
  induction n as [|n IH].
  - reflexivity.
  - rewrite Nat2Z.inj_succ, Z.pow_succ_r by lia.
    rewrite inject_Z_mult. simpl pow2. rewrite IH. reflexivity.
Qed.

(** The bound [passesBound t] is built from dominates the distance of [t]
    to both ends of the initial bracket. *)
Lemma pow2_log2_up_bound (t : Q) :
  Qabs t + 1 <=
  SUBDIV_EPS * pow2 (Z.to_nat (Z.log2_up (Qceiling ((Qabs t + 1) / SUBDIV_EPS)))).
Proof.
  set (q := (Qabs t + 1) / SUBDIV_EPS).
  assert (Qabs t + 1 == SUBDIV_EPS * q) as Hq.
  { unfold q, SUBDIV_EPS. field. }
  assert (0 < q) as Hq0.
  { pose proof (Qabs_nonneg t). unfold q, Qdiv, SUBDIV_EPS.
    change (/ (1 # 10000000)) with (10000000 # 1). lra. }
  pose proof (Qle_ceiling q) as Hc.
  assert (0 < Qceiling q)%Z as Hcpos.
  { rewrite Zlt_Qlt. eapply Qlt_le_trans; [exact Hq0 | exact Hc]. }
  pose proof (proj2 (Z.log2_log2_up_spec _ Hcpos)) as Hl.
  rewrite pow2_inject, Z2Nat.id by apply Z.log2_up_nonneg.
  rewrite Zle_Qle in Hl.
  rewrite Hq. unfold SUBDIV_EPS in *. lra.
Qed.

Section CubicBezier.

Variables x1 y1 x2 y2 : Q.

Definition ax : Q := 3 * x1 - 3 * x2 + 1.
Definition bx : Q := -6 * x1 + 3 * x2.
Definition cx : Q := 3 * x1.
Definition ay : Q := 3 * y1 - 3 * y2 + 1.
Definition by_ : Q := -6 * y1 + 3 * y2.
Definition cy : Q := 3 * y1.

Definition sampleX (t : Q) : Q := ((ax * t + bx) * t + cx) * t.
Definition sampleY (t : Q) : Q := ((ay * t + by_) * t + cy) * t.
Definition slopeX (t : Q) : Q := (3 * ax * t + 2 * bx) * t + cx.

(** The [for (let i = 0; i < NEWTON_ITER; i++)] loop, [iters] iterations
    being left. *)
Fixpoint newton (iters : nat) (x t : Q) : Q :=
  match iters with
  | O => t
  | S n =>
      let s := slopeX t in
      if Qlt_le_dec (Qabs s) NEWTON_EPS then t
      else newton n x (t - (sampleX t - x) / s)
  end.

Definition pass (x t0 t1 t : Q) : Outcome :=
  if Qlt_le_dec t0 t1 then
    let xEst := sampleX t in
    if Qlt_le_dec (Qabs (xEst - x)) SUBDIV_EPS then Done t
    else
      let t0' := if Qlt_le_dec xEst x then t else t0 in
      let t1' := if Qlt_le_dec xEst x then t1 else t in
      let t' := (t0' + t1') / 2 in
      if Qlt_le_dec (t1' - t0') SUBDIV_EPS then Done t' else Next t0' t1' t'
  else Done t.

(** The [while] loop, at most [fuel] passes. *)
Fixpoint bisect (fuel : nat) (x t0 t1 t : Q) : option Q :=
  match fuel with
  | O => None
  | S n =>
      match pass x t0 t1 t with
      | Done r => Some r
      | Next t0' t1' t' => bisect n x t0' t1' t'
      end
  end.

Definition solveX (x : Q) : Q :=
  let t := newton NEWTON_ITER x x in
  match bisect (passesBound t) x 0 1 t with
  | Some r => r
  | None => t
  end.

(** The function [cubicBezier(x1, y1, x2, y2)] returns. *)
Definition ease (x : Q) : Q := sampleY (solveX (Qmin (Qmax x 0) 1)).

(** ** Facts about the solver *)
#[local] Instance sampleX_proper : Proper (Qeq ==> Qeq) sampleX.
Proof. intros a b H. unfold sampleX. rewrite H. reflexivity. Qed.

#[local] Instance sampleY_proper : Proper (Qeq ==> Qeq) sampleY.
Proof. intros a b H. unfold sampleY. rewrite H. reflexivity. Qed.

#[local] Instance slopeX_proper : Proper (Qeq ==> Qeq) slopeX.
Proof. intros a b H. unfold slopeX. rewrite H. reflexivity. Qed.

Lemma sampleX_0 : sampleX 0 == 0.
Proof. unfold sampleX. ring. Qed.

Lemma sampleX_1 : sampleX 1 == 1.
Proof. unfold sampleX, ax, bx, cx. ring. Qed.

Lemma sampleY_0 : sampleY 0 == 0.
Proof. unfold sampleY. ring. Qed.

Lemma sampleY_1 : sampleY 1 == 1.
Proof. unfold sampleY, ay, by_, cy. ring. Qed.

(** *** The solver respects equality of rationals *)

Lemma newton_proper n : forall x x' t t',
  x == x' -> t == t' -> newton n x t == newton n x' t'.
Proof.
  induction n as [|n IH]; intros x x' t t' Hx Ht; cbn [newton]; [exact Ht|].
  destruct (Qlt_le_dec_agree (Qabs (slopeX t)) NEWTON_EPS
              (Qabs (slopeX t')) NEWTON_EPS) as [(H & H' & -> & ->)|(H & H' & -> & ->)];
    [now rewrite Ht | reflexivity | exact Ht |].
  apply IH; [exact Hx|]. now rewrite Ht, Hx.
Qed.

Lemma pass_proper x x' t0 t0' t1 t1' t t' :
  x == x' -> t0 == t0' -> t1 == t1' -> t == t' ->
  Outcome_eq (pass x t0 t1 t) (pass x' t0' t1' t').
Proof.
  intros Hx H0 H1 Ht. unfold pass.
  destruct (Qlt_le_dec_agree t0 t1 t0' t1' H0 H1) as [(H & H' & -> & ->)|(H & H' & -> & ->)];
    [|exact Ht].
  destruct (Qlt_le_dec_agree (Qabs (sampleX t - x)) SUBDIV_EPS
              (Qabs (sampleX t' - x')) SUBDIV_EPS) as [(G & G' & -> & ->)|(G & G' & -> & ->)];
    [now rewrite Ht, Hx | reflexivity | exact Ht |].
  destruct (Qlt_le_dec_agree (sampleX t) x (sampleX t') x')
    as [(K & K' & -> & ->)|(K & K' & -> & ->)]; [now rewrite Ht | exact Hx | |].
  - destruct (Qlt_le_dec_agree (t1 - t) SUBDIV_EPS (t1' - t') SUBDIV_EPS)
      as [(L & L' & -> & ->)|(L & L' & -> & ->)];
      [now rewrite Ht, H1 | reflexivity | simpl; now rewrite Ht, H1 |].
    simpl. repeat split; [exact Ht | exact H1 | now rewrite Ht, H1].
  - destruct (Qlt_le_dec_agree (t - t0) SUBDIV_EPS (t' - t0') SUBDIV_EPS)
      as [(L & L' & -> & ->)|(L & L' & -> & ->)];
      [now rewrite Ht, H0 | reflexivity | simpl; now rewrite Ht, H0 |].
    simpl. repeat split; [exact H0 | exact Ht | now rewrite Ht, H0].
Qed.

Lemma bisect_proper fuel : forall x x' t0 t0' t1 t1' t t',
  x == x' -> t0 == t0' -> t1 == t1' -> t == t' ->
  optQ_eq (bisect fuel x t0 t1 t) (bisect fuel x' t0' t1' t').
Proof.
  induction fuel as [|n IH]; intros x x' t0 t0' t1 t1' t t' Hx H0 H1 Ht; simpl; [exact I|].
  pose proof (pass_proper x x' t0 t0' t1 t1' t t' Hx H0 H1 Ht) as Hp.
  destruct (pass x t0 t1 t), (pass x' t0' t1' t'); simpl in Hp; try contradiction.
  - exact Hp.
  - destruct Hp as (Ha & Hb & Hc). now apply IH.
Qed.

Lemma passesBound_proper t t' : t == t' -> passesBound t = passesBound t'.
Proof. intros H. unfold passesBound. now rewrite H. Qed.

Lemma solveX_proper x x' : x == x' -> solveX x == solveX x'.
Proof.
  intros Hx. unfold solveX.
  pose proof (newton_proper NEWTON_ITER x x' x x' Hx Hx) as Hn.
  rewrite (passesBound_proper _ _ Hn).
  pose proof (bisect_proper (passesBound (newton NEWTON_ITER x' x')) x x' 0 0 1 1 _ _
                Hx (Qeq_refl 0) (Qeq_refl 1) Hn) as Hb.
  destruct (bisect _ x 0 1 _), (bisect _ x' 0 1 _); simpl in Hb;
    try contradiction; [exact Hb | exact Hn].
Qed.

Lemma ease_proper x x' : x == x' -> ease x == ease x'.
Proof.
  intros Hx. unfold ease. apply sampleY_proper, solveX_proper.
  now rewrite Hx.
Qed.

(** *** Endpoints *)

(** Newton's update does not move an estimate that already solves the
    equation. *)
Lemma newton_fixed n : forall x t, sampleX t == x -> newton n x t == t.
Proof.
  induction n as [|n IH]; intros x t H; cbn [newton]; [reflexivity|].
  destruct (Qlt_le_dec (Qabs (slopeX t)) NEWTON_EPS); [reflexivity|].
  assert (t - (sampleX t - x) / slopeX t == t) as Ht.
  { rewrite H. unfold Qdiv. ring. }
  rewrite IH; [exact Ht|]. rewrite Ht. exact H.
Qed.

(** When the Newton estimate solves the equation, the first pass of the
    bisection returns it. *)
Lemma bisect_S n x t0 t1 t :
  bisect (S n) x t0 t1 t =
  match pass x t0 t1 t with
  | Done r => Some r
  | Next t0' t1' t' => bisect n x t0' t1' t'
  end.
Proof. reflexivity. Qed.

Lemma pass_exact x t : sampleX t == x -> pass x 0 1 t = Done t.
Proof.
  intros H. unfold pass.
  destruct (Qlt_le_dec 0 1) as [_|H01]; [|exfalso; lra].
  destruct (Qlt_le_dec (Qabs (sampleX t - x)) SUBDIV_EPS) as [_|Hbad]; [reflexivity|].
  exfalso. assert (sampleX t - x == 0) as E by (rewrite H; ring).
  rewrite E in Hbad. revert Hbad. apply Qlt_not_le. reflexivity.
Qed.

Lemma solveX_exact x : sampleX x == x -> solveX x == x.
Proof.
  intros H. unfold solveX.
  pose proof (newton_fixed NEWTON_ITER x x H) as Hn.
  revert Hn. generalize (newton NEWTON_ITER x x). intros t Hn.
  unfold passesBound. rewrite bisect_S, pass_exact; [exact Hn|].
  rewrite Hn. exact H.
Qed.

Lemma ease_0 : ease 0 == 0.
Proof.
  unfold ease. change (Qmin (Qmax 0 0) 1) with 0.
  rewrite (solveX_exact 0 sampleX_0). apply sampleY_0.
Qed.

Lemma ease_1 : ease 1 == 1.
Proof.
  unfold ease. change (Qmin (Qmax 1 0) 1) with 1.
  rewrite (solveX_exact 1 sampleX_1). apply sampleY_1.
Qed.

(** The argument is clamped to [0, 1] before it is solved for. *)
Lemma ease_clamp x : ease (Qmin 1 x) == ease (Qmin (Qmax x 0) 1).
Proof.
  unfold ease. apply sampleY_proper, solveX_proper.
  pose proof (Q.min_spec 1 x) as E1.
  pose proof (Q.max_spec (Qmin 1 x) 0) as E2.
  pose proof (Q.min_spec (Qmax (Qmin 1 x) 0) 1) as E3.
  pose proof (Q.max_spec x 0) as E4.
  pose proof (Q.min_spec (Qmax x 0) 1) as E5.
  pose proof (Q.max_spec (Qmin (Qmax x 0) 1) 0) as E6.
  pose proof (Q.min_spec (Qmax (Qmin (Qmax x 0) 1) 0) 1) as E7.
  revert E1 E2 E3 E4 E5 E6 E7.
  generalize (Qmin (Qmax (Qmin 1 x) 0) 1) (Qmin (Qmax (Qmin (Qmax x 0) 1) 0) 1).
  generalize (Qmax (Qmin 1 x) 0) (Qmax (Qmin (Qmax x 0) 1) 0).
  generalize (Qmin 1 x) (Qmin (Qmax x 0) 1). generalize (Qmax x 0).
  intros. lra.
Qed.

(** *** Termination of the bisection *)

Lemma bisect_more_fuel n : forall m x t0 t1 t r,
  bisect n x t0 t1 t = Some r -> (n <= m)%nat -> bisect m x t0 t1 t = Some r.
Proof.
  induction n as [|n IH]; intros m x t0 t1 t r H Hle; [discriminate|].
  destruct m as [|m]; [lia|]. cbn [bisect] in *.
  destruct (pass x t0 t1 t); [exact H|]. apply (IH m); [exact H | lia].
Qed.

(** A pass that goes round again was entered with [t0 < t1], leaves a
    bracket at least [SUBDIV_EPS] wide with one end at the old estimate, and
    puts the new estimate at its midpoint. *)
Lemma pass_Next x t0 t1 t a b c :
  pass x t0 t1 t = Next a b c ->
  t0 < t1 /\ SUBDIV_EPS <= b - a /\ c = (a + b) / 2 /\
  ((a = t /\ b = t1) \/ (a = t0 /\ b = t)).
Proof.
  unfold pass.
  destruct (Qlt_le_dec t0 t1) as [H01|]; [|discriminate].
  destruct (Qlt_le_dec (Qabs (sampleX t - x)) SUBDIV_EPS); [discriminate|].
  destruct (Qlt_le_dec (sampleX t) x).
  - destruct (Qlt_le_dec (t1 - t) SUBDIV_EPS) as [|Hw]; [discriminate|].
    intros [= <- <- <-]. auto 6.
  - destruct (Qlt_le_dec (t - t0) SUBDIV_EPS) as [|Hw]; [discriminate|].
    intros [= <- <- <-]. auto 6.
Qed.

(** If the estimate is within [SUBDIV_EPS * 2^n] of both ends of the bracket,
    [n + 1] passes are enough. *)
Lemma bisect_enough_fuel n : forall x t0 t1 t,
  Qabs (t1 - t) < SUBDIV_EPS * pow2 n ->
  Qabs (t - t0) < SUBDIV_EPS * pow2 n ->
  exists r, bisect (S n) x t0 t1 t = Some r.
Proof.
  induction n as [|n IH]; intros x t0 t1 t H1 H0; cbn [bisect].
  - destruct (pass x t0 t1 t) as [r|a b c] eqn:Hp; [eauto|].
    exfalso. apply pass_Next in Hp as (_ & Hw & _ & Hab).
    apply Qabs_Qlt_condition in H1, H0. cbn [pow2] in H1, H0.
    destruct Hab as [[-> ->]|[-> ->]]; lra.
  - destruct (pass x t0 t1 t) as [r|a b c] eqn:Hp; [eauto|].
    apply pass_Next in Hp as (_ & Hw & -> & Hab).
    apply Qabs_Qlt_condition in H1, H0. cbn [pow2] in H1, H0.
    pose proof (pow2_pos n) as Hpos.
    assert (0 < SUBDIV_EPS) as Heps by reflexivity.
    apply IH; apply Qabs_Qlt_condition; rewrite Qhalf;
      destruct Hab as [[-> ->]|[-> ->]]; split; nra.
Qed.

(** The bisection phase of [solveX] returns within [passesBound]. *)
Lemma bisect_from_estimate x t :
  exists r, bisect (passesBound t) x 0 1 t = Some r.
Proof.
  unfold passesBound.
  set (L := Z.to_nat (Z.log2_up (Qceiling ((Qabs t + 1) / SUBDIV_EPS)))).
  pose proof (pow2_log2_up_bound t) as Hb. fold L in Hb.
  pose proof (pow2_pos L) as Hpos.
  assert (0 < SUBDIV_EPS) as Heps by reflexivity.
  apply bisect_enough_fuel; apply Qabs_Qlt_condition; cbn [pow2];
    revert Hb; apply Qabs_case; intros; split; nra.
Qed.

End CubicBezier.

Definition cubicBezier (x1 y1 x2 y2 : Q) : Q -> Q := ease x1 y1 x2 y2.

Definition easeCB : Q -> Q := cubicBezier (48 # 100) (2 # 10) (5 # 100) (99 # 100).
Definition easeInOut : Q -> Q := cubicBezier (42 # 100) 0 (58 # 100) 1.

End Easing.

(* ===================================================================== *)
(** * Frame-driven drivers: [animatePOV], [startEasedFade]                *)
(* ===================================================================== *)

Module Animation.
Import Classifier Easing.

Local Open Scope Q_scope.

(** ** Points of view *)

Record POV : Set := { lat : Q; lng : Q; altitude : Q }.

Definition POV_eq (a b : POV) : Prop :=
  lat a == lat b /\ lng a == lng b /\ altitude a == altitude b.

Definition CUSTOM_VIEWS (g : GroupKey) : POV :=
  match g with
  | CAN => {| lat := 4061 # 100; lng := -9885 # 100; altitude := 18 # 10 |}
  | USA => {| lat := 27; lng := -9521 # 100; altitude := 18 # 10 |}
  | GBR => {| lat := 3266 # 100; lng := -134 # 100; altitude := 18 # 10 |}
  | CHN => {| lat := 2023 # 100; lng := 10572 # 100; altitude := 18 # 10 |}
  | AUS => {| lat := -4768 # 100; lng := 13688 # 100; altitude := 18 # 10 |}
  end.

Definition SCREEN_LIFT_DEG : Q := 12.

Definition applyScreenLift (lat liftDeg : Q) : Q :=
  let out := lat - liftDeg in
  Qmax (-85) (Qmin 85 out).

(** ** Sessions and the page *)

(** What the closure [step] of one [animatePOV] call captures. *)
Record CameraSession : Type :=
  { from : POV; to : POV; dLng : Q; t0 : Q; ms : Q; easing : Q -> Q }.

(** What the closure [tick] of one [startEasedFade] call captures. *)
Record FadeSession : Set := { fade_t0 : Q; fade_t1 : Q }.

Inductive Callback : Type :=
  | camStep (s : CameraSession)
  | fadeTick (s : FadeSession).

(** The mutable state the drivers share: whether [globeRef.current] is set,
    the globe's point of view, the React state [fadeT], the ref [fadeRAF],
    and the browser's list of pending animation-frame callbacks.  A handle
    of [requestAnimationFrame] is an integer greater than zero. *)
Record Page : Type :=
  { globeMounted : bool;
    pov : POV;
    fadeT : Q;
    fadeRAF : option positive;
    nextHandle : positive;
    pending : list (positive * Callback) }.

Definition setPOV (v : POV) (p : Page) : Page :=
  {| globeMounted := globeMounted p; pov := v; fadeT := fadeT p;
     fadeRAF := fadeRAF p; nextHandle := nextHandle p; pending := pending p |}.

Definition setFadeT (v : Q) (p : Page) : Page :=
  {| globeMounted := globeMounted p; pov := pov p; fadeT := v;
     fadeRAF := fadeRAF p; nextHandle := nextHandle p; pending := pending p |}.

Definition setFadeRAF (h : option positive) (p : Page) : Page :=
  {| globeMounted := globeMounted p; pov := pov p; fadeT := fadeT p;
     fadeRAF := h; nextHandle := nextHandle p; pending := pending p |}.

Definition setPending (l : list (positive * Callback)) (p : Page) : Page :=
  {| globeMounted := globeMounted p; pov := pov p; fadeT := fadeT p;
     fadeRAF := fadeRAF p; nextHandle := nextHandle p; pending := l |}.

(** [requestAnimationFrame(cb)]: the callback joins the end of the list and
    the fresh handle is returned. *)
Definition requestAnimationFrame (cb : Callback) (p : Page) : positive * Page :=
  (nextHandle p,
   {| globeMounted := globeMounted p; pov := pov p; fadeT := fadeT p;
      fadeRAF := fadeRAF p; nextHandle := Pos.succ (nextHandle p);
      pending := pending p ++ [(nextHandle p, cb)] |}).

(** [cancelAnimationFrame(h)] *)
Definition cancelAnimationFrame (h : positive) (p : Page) : Page :=
  setPending (List.filter (fun hc => negb (Pos.eqb (fst hc) h)) (pending p)) p.

(** ** The camera animator *)

(** The longitude delta [animatePOV] computes. *)
Definition shortestDelta (toLng fromLng : Q) : Q :=
  let dLng := toLng - fromLng in
  let dLng := if Qlt_le_dec 180 dLng then dLng - 360 else dLng in
  let dLng := if Qlt_le_dec dLng (-180) then dLng + 360 else dLng in
  dLng.

(** The point of view [step] writes at eased progress [e]. *)
Definition interpolate (s : CameraSession) (e : Q) : POV :=
  {| lat := lat (from s) + (lat (to s) - lat (from s)) * e;
     lng := lng (from s) + dLng s * e;
     altitude := altitude (from s) + (altitude (to s) - altitude (from s)) * e |}.

Definition step (s : CameraSession) (now : Q) (p : Page) : Page :=
  let pr := Qmin 1 ((now - t0 s) / ms s) in
  let e := easing s pr in
  let p := setPOV (interpolate s e) p in
  if Qlt_le_dec pr 1 then snd (requestAnimationFrame (camStep s) p) else p.

(** [animatePOV(to, ms, easing)] called when [performance.now()] is [now]. *)
Definition animatePOV (to : POV) (ms : Q) (easing : Q -> Q) (now : Q) (p : Page)
  : Page :=
  if negb (globeMounted p) then p
  else
    let from := pov p in
    let dLng := shortestDelta (lng to) (lng from) in
    snd (requestAnimationFrame
           (camStep {| from := from; to := to; dLng := dLng; t0 := now;
                       ms := ms; easing := easing |}) p).

(** ** The fade controller *)

Definition tick (s : FadeSession) (now : Q) (p : Page) : Page :=
  if Qlt_le_dec now (fade_t0 s) then
    let p := setFadeT 0 p in
    let (h, p) := requestAnimationFrame (fadeTick s) p in
    setFadeRAF (Some h) p
  else
    let pr := Qmin 1 ((now - fade_t0 s) / (fade_t1 s - fade_t0 s)) in
    let p := setFadeT (easeCB pr) p in
    if Qlt_le_dec pr 1 then
      let (h, p) := requestAnimationFrame (fadeTick s) p in
      setFadeRAF (Some h) p
    else p.

(** [startEasedFade(delayMs, durMs)] called when [performance.now()] is [now]. *)
Definition startEasedFade (delayMs durMs : Q) (now : Q) (p : Page) : Page :=
  let p := match fadeRAF p with
           | Some h => cancelAnimationFrame h p
           | None => p
           end in
  let t0 := now + delayMs in
  let t1 := t0 + durMs in
  let (h, p) := requestAnimationFrame (fadeTick {| fade_t0 := t0; fade_t1 := t1 |}) p in
  setFadeRAF (Some h) p.

(** ** Frames and events *)

Definition runCallback (cb : Callback) (now : Q) (p : Page) : Page :=
  match cb with
  | camStep s => step s now p
  | fadeTick s => tick s now p
  end.

Definition runCallbacks (now : Q) (cbs : list (positive * Callback)) (p : Page) : Page :=
  fold_left (fun q hc => runCallback (snd hc) now q) cbs p.

(** One animation frame with time stamp [now]: the callbacks pending when
    the frame starts run in order; what they request waits for the next
    frame. *)
Definition runFrame (now : Q) (p : Page) : Page :=
  runCallbacks now (pending p) (setPending [] p).

Definition runFrames (times : list Q) (p : Page) : Page :=
  fold_left (fun q now => runFrame now q) times p.

Inductive Event : Type :=
  | AnimatePOV (to : POV) (ms : Q) (easing : Q -> Q) (now : Q)
  | StartEasedFade (delayMs durMs now : Q)
  | Frame (now : Q).

Definition handleEvent (ev : Event) (p : Page) : Page :=
  match ev with
  | AnimatePOV to ms easing now => animatePOV to ms easing now p
  | StartEasedFade delayMs durMs now => startEasedFade delayMs durMs now p
  | Frame now => runFrame now p
  end.

Definition run (evs : list Event) (p : Page) : Page :=
  fold_left (fun q ev => handleEvent ev q) evs p.

(** The page once the globe is mounted and the initial view is set
    ([lat0 = 40], [lng0 = -10], lifted by [SCREEN_LIFT_DEG]). *)
Definition initialPage : Page :=
  {| globeMounted := true;
     pov := {| lat := applyScreenLift 40 SCREEN_LIFT_DEG; lng := -10;
               altitude := 18 # 10 |};
     fadeT := 0; fadeRAF := None; nextHandle := 1%positive; pending := [] |}.

Definition isTick (hc : positive * Callback) : bool :=
  match snd hc with
  | fadeTick _ => true
  | camStep _ => false
  end.

(** The pending callbacks of fade sessions. *)
Definition ticks (l : list (positive * Callback)) : list (positive * Callback) :=
  List.filter isTick l.

(** The pending callbacks of camera sessions. *)
Definition steps (l : list (positive * Callback)) : list (positive * Callback) :=
  List.filter (fun hc => negb (isTick hc)) l.

(** ** The longitude delta *)

Lemma shortestDelta_spec toLng fromLng :
  (180 < toLng - fromLng ->
   shortestDelta toLng fromLng == toLng - fromLng - 360) /\
  (toLng - fromLng < -180 ->
   shortestDelta toLng fromLng == toLng - fromLng + 360) /\
  (-180 <= toLng - fromLng <= 180 ->
   shortestDelta toLng fromLng == toLng - fromLng).
Proof.
  unfold shortestDelta.
  destruct (Qlt_le_dec 180 (toLng - fromLng)) as [H|H].
  - destruct (Qlt_le_dec (toLng - fromLng - 360) (-180)) as [H'|H'];
      repeat split; intros; lra.
  - destruct (Qlt_le_dec (toLng - fromLng) (-180)) as [H'|H'];
      repeat split; intros; lra.
Qed.

(** C2, as worded, has the sign of its example wrong: from longitude 170
    to longitude -170 the raw delta is -340 and the delta used is +20. *)
Lemma shortestDelta_170_to_minus170 :
  -170 - 170 == -340 /\
  shortestDelta (-170) 170 == 20 /\
  ~ shortestDelta (-170) 170 == -20.
Proof. vm_compute. repeat split; discriminate. Qed.

(** C2 (amended). [animatePOV] registers a session whose longitude delta is
    the raw delta, minus 360 when it exceeds 180 and plus 360 when it is
    below -180; every frame of the session writes the longitude
    [from.lng + dLng * e].  From longitude 170 to longitude -170 the delta is
    +20 (not -340), so the longitudes written run from 170 through 180 (at
    [e = 1/2]) to 190. *)
Theorem animatePOV_shortest_delta :
  (forall to ms easing now p,
      globeMounted p = true ->
      exists s,
        pending (animatePOV to ms easing now p) =
          pending p ++ [(nextHandle p, camStep s)] /\
        from s = pov p /\
        dLng s = shortestDelta (lng to) (lng (pov p)) /\
        (180 < lng to - lng (pov p) -> dLng s == lng to - lng (pov p) - 360) /\
        (lng to - lng (pov p) < -180 -> dLng s == lng to - lng (pov p) + 360) /\
        (-180 <= lng to - lng (pov p) <= 180 -> dLng s == lng to - lng (pov p)) /\
        (forall frame q,
            lng (pov (step s frame q)) ==
            lng (pov p) + dLng s * easing (Qmin 1 ((frame - now) / ms)))) /\
  shortestDelta (-170) 170 == 20 /\
  (forall e, 0 <= e <= 1 ->
             170 <= 170 + shortestDelta (-170) 170 * e <= 190) /\
  170 + shortestDelta (-170) 170 * (1 # 2) == 180.
Proof.
  split; [|split; [|split]].
  - intros to ms easing now p Hm. unfold animatePOV. rewrite Hm. cbn [negb].
    eexists. split; [reflexivity|]. cbn [from dLng].
    split; [reflexivity|]. split; [reflexivity|].
    destruct (shortestDelta_spec (lng to) (lng (pov p))) as (H1 & H2 & H3).
    split; [exact H1|]. split; [exact H2|]. split; [exact H3|].
    intros frame q. unfold step. cbn [t0 Animation.ms Animation.easing].
    destruct (Qlt_le_dec _ 1); reflexivity.
  - vm_compute. reflexivity.
  - intros e He.
    assert (shortestDelta (-170) 170 == 20) as -> by (vm_compute; reflexivity).
    lra.
  - vm_compute. reflexivity.
Qed.

Lemma animatePOV_shortest_delta_witness :
  exists s,
    pending (animatePOV (CUSTOM_VIEWS AUS) 1000 easeInOut 0
               (setPOV (CUSTOM_VIEWS CAN) initialPage)) =
      [(1%positive, camStep s)] /\
    dLng s == -12427 # 100.
Proof.
  destruct animatePOV_shortest_delta as (H & _).
  destruct (H (CUSTOM_VIEWS AUS) 1000 easeInOut 0
              (setPOV (CUSTOM_VIEWS CAN) initialPage) eq_refl)
    as (s & Hp & _ & _ & H180 & _).
  exists s. split; [exact Hp|].
  rewrite H180 by (vm_compute; reflexivity). vm_compute. reflexivity.
Defined.

(** ** Progress of one camera session *)

Lemma Qmin_1_le x : 1 <= x -> Qmin 1 x = 1.
Proof.
  intros H. unfold Qmin, GenericMinMax.gmin.
  destruct (1 ?= x) eqn:E; try reflexivity.
  exfalso. apply Qgt_alt in E. lra.
Qed.

Lemma Qmin_1_gt x : x < 1 -> Qmin 1 x = x.
Proof.
  intros H. unfold Qmin, GenericMinMax.gmin.
  destruct (1 ?= x) eqn:E; try reflexivity; exfalso.
  - apply Qeq_alt in E. lra.
  - apply Qlt_alt in E. lra.
Qed.

(** While progress is below 1 the frame writes the interpolated view and
    asks for another frame. *)
Lemma step_running s now p :
  (now - t0 s) / ms s < 1 ->
  step s now p =
  snd (requestAnimationFrame (camStep s)
         (setPOV (interpolate s (easing s ((now - t0 s) / ms s))) p)).
Proof.
  intros H. unfold step. rewrite (Qmin_1_gt _ H).
  destruct (Qlt_le_dec _ 1) as [_|H']; [reflexivity | exfalso; lra].
Qed.

(** Once progress has reached 1 the frame writes the view at [easing 1] and
    the session ends. *)
Lemma step_final s now p :
  1 <= (now - t0 s) / ms s ->
  step s now p = setPOV (interpolate s (easing s 1)) p.
Proof.
  intros H. unfold step. rewrite (Qmin_1_le _ H).
  destruct (Qlt_le_dec 1 1) as [H'|_]; [exfalso; lra | reflexivity].
Qed.

(** [animatePOV] cancels nothing: what was pending stays pending. *)
Lemma animatePOV_keeps_pending to ms easing now p :
  exists l, pending (animatePOV to ms easing now p) = pending p ++ l.
Proof.
  unfold animatePOV. destruct (negb (globeMounted p)).
  - exists []. symmetry. apply app_nil_r.
  - eexists. reflexivity.
Qed.

(** The last frame of a camera session that is alone in the queue. *)
Lemma runFrame_last_step h s now p :
  pending p = [(h, camStep s)] ->
  1 <= (now - t0 s) / ms s ->
  pending (runFrame now p) = [] /\
  pov (runFrame now p) = interpolate s (easing s 1).
Proof.
  intros Hp Hdone. unfold runFrame, runCallbacks. rewrite Hp.
  cbn [fold_left snd runCallback]. rewrite (step_final _ _ _ Hdone).
  split; reflexivity.
Qed.

Lemma run_snoc evs ev p : run (evs ++ [ev]) p = handleEvent ev (run evs p).
Proof. unfold run. rewrite fold_left_app. reflexivity. Qed.

(** ** Two overlapping camera sessions *)

Section Race.

Variable e : Q -> Q.
Hypothesis e_one : e 1 == 1.

(** Animation frames every 16 ms: the frames number [first] to
    [first + count - 1], frame [k] carrying the time stamp [16 * k]. *)
Definition frames (first count : nat) : list Event :=
  map (fun k => Frame (inject_Z (16 * Z.of_nat k))) (seq first count).

(** A flight to Canada of 1500 ms starts at time 0 (as the [focus] parameter
    starts it); after the frames of 16 to 96 ms a flight to Australia of
    1000 ms starts at time 100 (as a click starts it). *)
Definition raceCalls : list Event :=
  [AnimatePOV (CUSTOM_VIEWS CAN) 1500 e 0] ++ frames 1 6 ++
  [AnimatePOV (CUSTOM_VIEWS AUS) 1000 e 100].

(** The frames of 112 to 1504 ms follow. *)
Definition raceEvents : list Event := raceCalls ++ frames 7 88.

(** The session the first call creates. *)
Definition firstSession : CameraSession :=
  {| from := pov initialPage; to := CUSTOM_VIEWS CAN;
     dLng := shortestDelta (lng (CUSTOM_VIEWS CAN)) (lng (pov initialPage));
     t0 := 0; ms := 1500; easing := e |}.

Lemma map_snd_single {A B} (l : list (A * B)) (b : B) :
  map snd l = [b] -> exists a, l = [(a, b)].
Proof.
  destruct l as [|[a b'] [|? ?]]; try discriminate.
  intros [= ->]. eauto.
Qed.

(** Before the second call, and again before the frame of 1504 ms, the
    callback of the first session is the only one pending. *)
Lemma race_before_second_call :
  map snd (pending (run ([AnimatePOV (CUSTOM_VIEWS CAN) 1500 e 0] ++ frames 1 6)
                      initialPage)) = [camStep firstSession] /\
  globeMounted (run ([AnimatePOV (CUSTOM_VIEWS CAN) 1500 e 0] ++ frames 1 6)
                  initialPage) = true.
Proof. vm_compute. split; reflexivity. Qed.

Lemma race_before_last_frame :
  map snd (pending (run (raceCalls ++ frames 7 87) initialPage)) =
  [camStep firstSession].
Proof. vm_compute. reflexivity. Qed.

(** C1 on the code: the second call leaves the callback of the first session
    in the queue, so both sessions write the point of view at every frame;
    the second session ends at the frame of 1104 ms and the first at the
    frame of 1504 ms, and the resting point of view is the first target,
    not the second. *)
Theorem animatePOV_first_target_wins :
  (exists h1 h2 s2,
      pending (run raceCalls initialPage) =
        [(h1, camStep firstSession); (h2, camStep s2)] /\
      to firstSession = CUSTOM_VIEWS CAN /\ to s2 = CUSTOM_VIEWS AUS) /\
  pending (run raceEvents initialPage) = [] /\
  POV_eq (pov (run raceEvents initialPage)) (CUSTOM_VIEWS CAN) /\
  ~ POV_eq (pov (run raceEvents initialPage)) (CUSTOM_VIEWS AUS).
Proof.
  destruct (map_snd_single _ _ race_before_last_frame) as [h Hpend].
  assert (run raceEvents initialPage =
          runFrame (inject_Z (16 * Z.of_nat 94))
            (run (raceCalls ++ frames 7 87) initialPage)) as Hrun.
  { unfold raceEvents.
    change (frames 7 88) with (frames 7 87 ++ [Frame (inject_Z (16 * Z.of_nat 94))]).
    rewrite app_assoc, run_snoc. cbn [handleEvent]. reflexivity. }
  destruct (runFrame_last_step h firstSession (inject_Z (16 * Z.of_nat 94)) _ Hpend)
    as [Hnil Hpov].
  { vm_compute. discriminate. }
  assert (POV_eq (pov (run raceEvents initialPage)) (CUSTOM_VIEWS CAN)) as Hcan.
  { rewrite Hrun, Hpov. unfold POV_eq, interpolate, firstSession.
    cbn [lat lng altitude from to dLng easing]. rewrite e_one.
    assert (shortestDelta (lng (CUSTOM_VIEWS CAN)) (lng (pov initialPage)) ==
            lng (CUSTOM_VIEWS CAN) - lng (pov initialPage)) as ->
      by (vm_compute; reflexivity).
    repeat split; ring. }
  split; [|split; [|split]].
  - destruct race_before_second_call as [Hone Hm].
    destruct (map_snd_single _ _ Hone) as [h1 Hh1].
    unfold raceCalls. rewrite app_assoc, run_snoc. cbn [handleEvent].
    unfold animatePOV. rewrite Hm. cbn [negb requestAnimationFrame snd pending].
    rewrite Hh1. cbn [app].
    eexists. eexists. eexists. split; [reflexivity|]. split; reflexivity.
  - rewrite Hrun. exact Hnil.
  - exact Hcan.
  - intros (Hlat & _). destruct Hcan as (Hlat' & _).
    rewrite Hlat' in Hlat. revert Hlat. vm_compute. discriminate.
Qed.

End Race.

Lemma animatePOV_first_target_wins_witness :
  POV_eq (pov (run (raceEvents easeInOut) initialPage)) (CUSTOM_VIEWS CAN).
Proof.
  exact (proj1 (proj2 (proj2 (animatePOV_first_target_wins easeInOut
                                (ease_1 (42 # 100) 0 (58 # 100) 1))))).
Defined.

(** ** What one callback does to the queue *)

(** Whether the callback asks for another frame when run at [now]. *)
Definition continues (cb : Callback) (now : Q) : bool :=
  match cb with
  | camStep s =>
      if Qlt_le_dec (Qmin 1 ((now - t0 s) / ms s)) 1 then true else false
  | fadeTick s =>
      if Qlt_le_dec now (fade_t0 s) then true
      else if Qlt_le_dec
                (Qmin 1 ((now - fade_t0 s) / (fade_t1 s - fade_t0 s))) 1
           then true else false
  end.

(** The value a fade session's [tick] gives [fadeT] at [now]. *)
Definition tickValue (s : FadeSession) (now : Q) : Q :=
  if Qlt_le_dec now (fade_t0 s) then 0
  else easeCB (Qmin 1 ((now - fade_t0 s) / (fade_t1 s - fade_t0 s))).

Lemma runCallback_shape cb now q :
  pending (runCallback cb now q) =
    pending q ++ (if continues cb now then [(nextHandle q, cb)] else []) /\
  nextHandle (runCallback cb now q) =
    (if continues cb now then Pos.succ (nextHandle q) else nextHandle q) /\
  fadeRAF (runCallback cb now q) =
    (if isTick (nextHandle q, cb) && continues cb now
     then Some (nextHandle q) else fadeRAF q) /\
  fadeT (runCallback cb now q) =
    match cb with
    | fadeTick s => tickValue s now
    | camStep _ => fadeT q
    end.
Proof.
  destruct cb as [s|s]; cbn [runCallback continues isTick snd andb].
  - unfold step. destruct (Qlt_le_dec _ 1);
      cbn [pending nextHandle fadeRAF fadeT requestAnimationFrame setPOV snd];
      rewrite ?app_nil_r; auto.
  - unfold tick, tickValue. destruct (Qlt_le_dec now _);
      [cbn [pending nextHandle fadeRAF fadeT requestAnimationFrame setFadeT
            setFadeRAF]; auto|].
    destruct (Qlt_le_dec _ 1);
      cbn [pending nextHandle fadeRAF fadeT requestAnimationFrame setFadeT
           setFadeRAF]; rewrite ?app_nil_r; auto.
Qed.

(** ** Well-formed queues *)

(** Handles are allocated in increasing order and never reused; the handle
    kept in [fadeRAF], when it is still in the queue, names a fade callback. *)
Definition WFh (p : Page) : Prop :=
  Forall (fun hc => (fst hc < nextHandle p)%positive) (pending p) /\
  NoDup (map fst (pending p)) /\
  (forall h, fadeRAF p = Some h ->
     (h < nextHandle p)%positive /\
     Forall (fun hc => fst hc = h -> isTick hc = true) (pending p)).

(** At most one fade callback is pending, and [fadeRAF] holds its handle. *)
Definition oneTick (p : Page) : Prop :=
  ticks (pending p) = [] \/
  exists h s, ticks (pending p) = [(h, fadeTick s)] /\ fadeRAF p = Some h.

Definition WF (p : Page) : Prop := WFh p /\ oneTick p.

Definition reachable (p : Page) : Prop := exists evs, p = run evs initialPage.

(** The effect on [WFh] of appending a callback under the next handle. *)
Lemma WFh_append p p' cb :
  WFh p ->
  pending p' = pending p ++ [(nextHandle p, cb)] ->
  nextHandle p' = Pos.succ (nextHandle p) ->
  fadeRAF p' = (if isTick (nextHandle p, cb) then Some (nextHandle p) else fadeRAF p) ->
  WFh p'.
Proof.
  intros (F & N & R) Hp Hn Hr. unfold WFh. rewrite Hp, Hn, Hr.
  split; [|split].
  - apply Forall_app. split.
    + eapply List.Forall_impl; [|exact F]. cbn beta. intros hc Hlt. lia.
    + constructor; [cbn [fst]; lia | constructor].
  - rewrite map_app. cbn [map fst]. apply NoDup_app. split; [exact N|]. split.
    + intros h Hin Hin'. apply list_elem_of_singleton in Hin'. subst h.
      apply list_elem_of_In, in_map_iff in Hin as (hc & Hfst & Hin).
      rewrite Forall_forall in F. apply list_elem_of_In, F in Hin. lia.
    + apply NoDup_singleton.
  - intros h Hh. destruct (isTick (nextHandle p, cb)) eqn:Ht.
    + injection Hh as <-. split; [lia|]. apply Forall_app. split.
      * eapply List.Forall_impl; [|exact F]. cbn beta. intros hc Hlt Heq. lia.
      * constructor; [intros _; exact Ht | constructor].
    + destruct (R h Hh) as [Hlt Hall]. split; [lia|]. apply Forall_app. split.
      * exact Hall.
      * constructor; [cbn [fst]; intros Heq; lia | constructor].
Qed.

Lemma runCallback_WFh cb now q : WFh q -> WFh (runCallback cb now q).
Proof.
  intros Hq. destruct (runCallback_shape cb now q) as (Hp & Hn & Hr & _).
  destruct (continues cb now).
  - apply (WFh_append q _ cb Hq Hp Hn). rewrite Hr, andb_true_r. reflexivity.
  - rewrite app_nil_r in Hp. rewrite andb_false_r in Hr.
    destruct Hq as (F & N & R). unfold WFh. rewrite Hp, Hn, Hr. auto.
Qed.

Lemma runCallbacks_WFh now cbs : forall q, WFh q -> WFh (runCallbacks now cbs q).
Proof.
  induction cbs as [|hc cbs IH]; intros q Hq; [exact Hq|].
  apply IH, runCallback_WFh, Hq.
Qed.

Lemma runFrame_WFh now p : WFh p -> WFh (runFrame now p).
Proof.
  intros (F & N & R). unfold runFrame. apply runCallbacks_WFh. unfold WFh. cbn [setPending pending nextHandle fadeRAF map].
  split; [constructor|]. split; [constructor|].
  intros h Hh. split; [exact (proj1 (R h Hh)) | constructor].
Qed.

(** ** Fade callbacks through a frame *)

Lemma ticks_app l l' : ticks (l ++ l') = ticks l ++ ticks l'.
Proof. apply List.filter_app. Qed.

Lemma steps_app l l' : steps (l ++ l') = steps l ++ steps l'.
Proof. apply List.filter_app. Qed.

Lemma runCallback_ticks cb now q :
  ticks (pending (runCallback cb now q)) =
  ticks (pending q) ++
  (if isTick (nextHandle q, cb) && continues cb now then [(nextHandle q, cb)] else []).
Proof.
  destruct (runCallback_shape cb now q) as (-> & _).
  rewrite ticks_app. f_equal.
  destruct (continues cb now); [|rewrite andb_false_r; reflexivity].
  rewrite andb_true_r. unfold ticks. cbn [List.filter].
  destruct (isTick (nextHandle q, cb)); reflexivity.
Qed.

(** Camera callbacks leave [fadeT], [fadeRAF] and the pending fade callbacks
    alone. *)
Lemma runCallbacks_no_tick now cbs : forall q,
  ticks cbs = [] ->
  fadeT (runCallbacks now cbs q) = fadeT q /\
  fadeRAF (runCallbacks now cbs q) = fadeRAF q /\
  ticks (pending (runCallbacks now cbs q)) = ticks (pending q).
Proof.
  induction cbs as [|[h cb] cbs IH]; intros q Ht; [auto|].
  unfold ticks in Ht. cbn [List.filter] in Ht.
  destruct (isTick (h, cb)) eqn:E; [discriminate|].
  destruct cb as [s|s]; [|discriminate].
  change (runCallbacks now ((h, camStep s) :: cbs) q)
    with (runCallbacks now cbs (runCallback (camStep s) now q)).
  destruct (IH (runCallback (camStep s) now q) Ht) as (-> & -> & ->).
  rewrite runCallback_ticks.
  destruct (runCallback_shape (camStep s) now q) as (_ & _ & -> & ->).
  cbn [isTick snd andb]. rewrite app_nil_r. auto.
Qed.

Lemma ticks_single_split l h s :
  ticks l = [(h, fadeTick s)] ->
  exists l1 l2, l = l1 ++ (h, fadeTick s) :: l2 /\ ticks l1 = [] /\ ticks l2 = [].
Proof.
  induction l as [|[h' cb] l IH]; [discriminate|].
  unfold ticks. cbn [List.filter]. destruct (isTick (h', cb)) eqn:E.
  - intros [= -> -> Hl]. exists [], l. auto.
  - intros Hl. destruct (IH Hl) as (l1 & l2 & -> & H1 & H2).
    exists ((h', cb) :: l1), l2. split; [reflexivity|]. split; [|exact H2].
    unfold ticks. cbn [List.filter]. rewrite E. exact H1.
Qed.

Lemma runCallbacks_app now l1 l2 q :
  runCallbacks now (l1 ++ l2) q = runCallbacks now l2 (runCallbacks now l1 q).
Proof. apply fold_left_app. Qed.

(** A frame without a pending fade callback. *)
Lemma runFrame_no_tick now p :
  ticks (pending p) = [] ->
  fadeT (runFrame now p) = fadeT p /\
  fadeRAF (runFrame now p) = fadeRAF p /\
  ticks (pending (runFrame now p)) = [].
Proof.
  intros Ht. unfold runFrame.
  destruct (runCallbacks_no_tick now (pending p) (setPending [] p) Ht)
    as (-> & -> & ->). auto.
Qed.

(** A frame with the fade callback of session [s] pending: [fadeT] receives
    [tickValue s now], and the callback is pending again exactly when the
    session continues. *)
Lemma runFrame_one_tick now p h s :
  ticks (pending p) = [(h, fadeTick s)] ->
  fadeT (runFrame now p) = tickValue s now /\
  (continues (fadeTick s) now = true ->
   exists h', ticks (pending (runFrame now p)) = [(h', fadeTick s)] /\
              fadeRAF (runFrame now p) = Some h') /\
  (continues (fadeTick s) now = false -> ticks (pending (runFrame now p)) = []).
Proof.
  intros Ht. destruct (ticks_single_split _ _ _ Ht) as (l1 & l2 & Hl & H1 & H2).
  unfold runFrame. rewrite Hl, runCallbacks_app.
  set (q1 := runCallbacks now l1 (setPending [] p)).
  change (runCallbacks now ((h, fadeTick s) :: l2) q1)
    with (runCallbacks now l2 (runCallback (fadeTick s) now q1)).
  destruct (runCallbacks_no_tick now l2 (runCallback (fadeTick s) now q1) H2)
    as (-> & -> & ->).
  rewrite runCallback_ticks.
  destruct (runCallback_shape (fadeTick s) now q1) as (_ & _ & -> & ->).
  destruct (runCallbacks_no_tick now l1 (setPending [] p) H1) as (_ & _ & Hq1).
  fold q1 in Hq1. rewrite Hq1. cbn [isTick snd andb app].
  split; [reflexivity|]. split; intros ->; eauto.
Qed.

Lemma runFrame_WF now p : WF p -> WF (runFrame now p).
Proof.
  intros [Hh Ht]. split; [apply runFrame_WFh, Hh|].
  destruct Ht as [Ht|(h & s & Ht & _)].
  - left. apply (runFrame_no_tick now p Ht).
  - destruct (runFrame_one_tick now p h s Ht) as (_ & Hc & Hs).
    destruct (continues (fadeTick s) now).
    + right. destruct (Hc eq_refl) as (h' & ? & ?). eauto.
    + left. auto.
Qed.

(** ** The handlers keep the queue well formed *)

Lemma animatePOV_fade to ms easing now p :
  fadeT (animatePOV to ms easing now p) = fadeT p /\
  fadeRAF (animatePOV to ms easing now p) = fadeRAF p /\
  ticks (pending (animatePOV to ms easing now p)) = ticks (pending p).
Proof.
  unfold animatePOV. destruct (negb (globeMounted p)); [auto|].
  cbn [requestAnimationFrame snd pending fadeT fadeRAF]. rewrite ticks_app.
  unfold ticks at 2. cbn [List.filter isTick snd]. rewrite app_nil_r. auto.
Qed.

Lemma animatePOV_WF to ms easing now p : WF p -> WF (animatePOV to ms easing now p).
Proof.
  intros [Hh Ht]. split.
  - unfold animatePOV. destruct (negb (globeMounted p)); [assumption|].
    eapply WFh_append; [exact Hh | reflexivity | reflexivity | reflexivity].
  - unfold oneTick.
    destruct (animatePOV_fade to ms easing now p) as (_ & -> & ->). exact Ht.
Qed.

(** ** Starting a fade session *)

(** The page once [startEasedFade] has cancelled the handle in [fadeRAF]. *)
Definition afterCancel (p : Page) : Page :=
  match fadeRAF p with
  | Some h => cancelAnimationFrame h p
  | None => p
  end.

(** The session [startEasedFade(delayMs, durMs)] creates at time [start]. *)
Definition fadeSession (delayMs durMs start : Q) : FadeSession :=
  {| fade_t0 := start + delayMs; fade_t1 := start + delayMs + durMs |}.

Lemma startEasedFade_shape delayMs durMs start p :
  pending (startEasedFade delayMs durMs start p) =
    pending (afterCancel p) ++
    [(nextHandle p, fadeTick (fadeSession delayMs durMs start))] /\
  nextHandle (startEasedFade delayMs durMs start p) = Pos.succ (nextHandle p) /\
  fadeRAF (startEasedFade delayMs durMs start p) = Some (nextHandle p) /\
  fadeT (startEasedFade delayMs durMs start p) = fadeT p /\
  pov (startEasedFade delayMs durMs start p) = pov p.
Proof. unfold startEasedFade, afterCancel. destruct (fadeRAF p); auto. Qed.

Lemma filter_ticks f l : ticks (List.filter f l) = List.filter f (ticks l).
Proof.
  unfold ticks. induction l as [|hc l IH]; [reflexivity|]. cbn [List.filter].
  destruct (f hc) eqn:Ef, (isTick hc) eqn:Et; cbn [List.filter];
    rewrite ?Ef, ?Et, IH; reflexivity.
Qed.

Lemma NoDup_map_filter (f : positive * Callback -> bool) l :
  NoDup (map fst l) -> NoDup (map fst (List.filter f l)).
Proof.
  induction l as [|hc l IH]; [auto|]. cbn [map List.filter].
  intros Hn. apply NoDup_cons in Hn as [Hnin Hn].
  destruct (f hc); [|auto]. cbn [map]. apply NoDup_cons. split; [|auto].
  intros Hin. apply Hnin.
  apply list_elem_of_In, in_map_iff in Hin as (x & Hx & Hin).
  apply List.filter_In in Hin as [Hin _].
  apply list_elem_of_In, in_map_iff. eauto.
Qed.

Lemma steps_filter (f : positive * Callback -> bool) l :
  Forall (fun hc => f hc = false -> isTick hc = true) l ->
  steps (List.filter f l) = steps l.
Proof.
  unfold steps. induction 1 as [|hc l Hhc _ IH]; [reflexivity|]. cbn [List.filter].
  destruct (f hc) eqn:Ef; cbn [List.filter]; [rewrite IH; reflexivity|].
  rewrite (Hhc eq_refl). cbn [negb]. exact IH.
Qed.

Lemma afterCancel_WFh p : WFh p -> WFh (afterCancel p).
Proof.
  intros (F & N & R). unfold afterCancel. destruct (fadeRAF p) as [h|] eqn:Eh;
    [|unfold WFh; rewrite Eh; auto].
  unfold WFh. cbn [cancelAnimationFrame setPending pending nextHandle fadeRAF].
  split; [|split].
  - apply List.Forall_forall. intros hc Hin. apply List.filter_In in Hin as [Hin _].
    rewrite List.Forall_forall in F. auto.
  - apply NoDup_map_filter, N.
  - intros h' Hh'. rewrite Eh in Hh'. destruct (R h' Hh') as [Hlt Hall].
    split; [exact Hlt|].
    apply List.Forall_forall. intros hc Hin. apply List.filter_In in Hin as [Hin _].
    rewrite List.Forall_forall in Hall. auto.
Qed.

(** Cancelling the handle in [fadeRAF] removes the pending fade callback,
    and only it. *)
Lemma afterCancel_ticks p : WF p -> ticks (pending (afterCancel p)) = [].
Proof.
  intros [_ Ht]. unfold afterCancel.
  destruct Ht as [Ht|(h & s & Ht & ->)].
  - destruct (fadeRAF p); [|exact Ht].
    cbn [cancelAnimationFrame setPending pending]. rewrite filter_ticks, Ht. reflexivity.
  - cbn [cancelAnimationFrame setPending pending]. rewrite filter_ticks, Ht.
    cbn [List.filter fst]. rewrite Pos.eqb_refl. reflexivity.
Qed.

Lemma afterCancel_steps p : WF p -> steps (pending (afterCancel p)) = steps (pending p).
Proof.
  intros [(_ & _ & R) _]. unfold afterCancel.
  destruct (fadeRAF p) as [h|] eqn:Eh; [|reflexivity].
  cbn [cancelAnimationFrame setPending pending]. apply steps_filter.
  destruct (R h eq_refl) as [_ Hall].
  eapply List.Forall_impl; [|exact Hall]. cbn beta. intros hc Hhc Hf.
  apply Hhc. apply negb_false_iff, Pos.eqb_eq in Hf. exact Hf.
Qed.

Lemma afterCancel_fields p :
  nextHandle (afterCancel p) = nextHandle p /\ fadeRAF (afterCancel p) = fadeRAF p.
Proof. unfold afterCancel. destruct (fadeRAF p) eqn:E; auto. Qed.

Lemma startEasedFade_ticks delayMs durMs start p :
  WF p ->
  ticks (pending (startEasedFade delayMs durMs start p)) =
  [(nextHandle p, fadeTick (fadeSession delayMs durMs start))].
Proof.
  intros Hp. destruct (startEasedFade_shape delayMs durMs start p) as (-> & _).
  rewrite ticks_app, (afterCancel_ticks p Hp). reflexivity.
Qed.

Lemma startEasedFade_WF delayMs durMs start p :
  WF p -> WF (startEasedFade delayMs durMs start p).
Proof.
  intros Hp. pose proof (startEasedFade_ticks delayMs durMs start p Hp) as Ht.
  destruct (startEasedFade_shape delayMs durMs start p) as (Hpe & Hn & Hr & _).
  destruct (afterCancel_fields p) as [Hn0 Hr0].
  split.
  - apply (WFh_append (afterCancel p) _
             (fadeTick (fadeSession delayMs durMs start)) (afterCancel_WFh p (proj1 Hp))).
    + rewrite Hn0. exact Hpe.
    + rewrite Hn0. exact Hn.
    + rewrite Hn0. exact Hr.
  - right. eauto.
Qed.

Lemma handleEvent_WF ev p : WF p -> WF (handleEvent ev p).
Proof.
  destruct ev; cbn [handleEvent];
    [apply animatePOV_WF | apply startEasedFade_WF | apply runFrame_WF].
Qed.

Lemma run_WF evs : forall p, WF p -> WF (run evs p).
Proof.
  induction evs as [|ev evs IH]; intros p Hp; [exact Hp|].
  apply IH, handleEvent_WF, Hp.
Qed.

Lemma initialPage_WF : WF initialPage.
Proof.
  split; [|left; reflexivity].
  unfold WFh. cbn [initialPage pending fadeRAF map].
  split; [constructor|]. split; [constructor|]. discriminate.
Qed.

Lemma reachable_WF p : reachable p -> WF p.
Proof. intros [evs ->]. apply run_WF, initialPage_WF. Qed.

(** ** The outputs of a fade session *)

Definition isFadeStart (ev : Event) : bool :=
  match ev with
  | StartEasedFade _ _ _ => true
  | _ => false
  end.

(** No event of [evs] is a call of [startEasedFade]. *)
Definition noFadeStart (evs : list Event) : Prop :=
  Forall (fun ev => isFadeStart ev = false) evs.

(** The time stamps of the frames among [evs]. *)
Definition frameTimes (evs : list Event) : list Q :=
  flat_map (fun ev => match ev with Frame t => [t] | _ => [] end) evs.

Lemma div_ge_1 a b : 0 < b -> 1 <= a / b -> b <= a.
Proof.
  intros Hb H. assert (a == a / b * b) as E by (field; lra).
  rewrite E. nra.
Qed.

Lemma div_le_1 a b : 0 < b -> b <= a -> 1 <= a / b.
Proof.
  intros Hb H. apply Qle_shift_div_l; [exact Hb | lra].
Qed.

(** In exact arithmetic [t1 - t0] is the duration, and the clamp inside the
    easing function makes [min(1, .)] the clamp to [0, 1]. *)
Lemma tickValue_after delayMs durMs start now :
  start + delayMs <= now ->
  tickValue (fadeSession delayMs durMs start) now ==
  easeCB (Qmin (Qmax ((now - (start + delayMs)) / durMs) 0) 1).
Proof.
  intros H. unfold tickValue, fadeSession. cbn [fade_t0 fade_t1].
  destruct (Qlt_le_dec now (start + delayMs)) as [H'|_]; [exfalso; lra|].
  unfold easeCB, cubicBezier. rewrite ease_clamp. apply ease_proper.
  assert (start + delayMs + durMs - (start + delayMs) == durMs) as -> by ring.
  reflexivity.
Qed.

Lemma tickValue_before delayMs durMs start now :
  now < start + delayMs ->
  tickValue (fadeSession delayMs durMs start) now = 0.
Proof.
  intros H. unfold tickValue, fadeSession. cbn [fade_t0 fade_t1].
  destruct (Qlt_le_dec now (start + delayMs)) as [_|H']; [reflexivity | exfalso; lra].
Qed.

(** A fade session stops only when its duration is positive, at a frame at
    or after its end, and leaves [fadeT] at [easeCB 1]. *)
Lemma tick_stops delayMs durMs start now :
  continues (fadeTick (fadeSession delayMs durMs start)) now = false ->
  0 < durMs /\
  start + delayMs + durMs <= now /\
  tickValue (fadeSession delayMs durMs start) now = easeCB 1.
Proof.
  unfold continues, tickValue, fadeSession. cbn [fade_t0 fade_t1].
  destruct (Qlt_le_dec now (start + delayMs)) as [|H0]; [discriminate|].
  destruct (Qlt_le_dec _ 1) as [|H1]; [discriminate|]. intros _.
  assert (1 <= (now - (start + delayMs)) / (start + delayMs + durMs - (start + delayMs)))
    as Hx.
  { destruct (Q.min_spec 1 ((now - (start + delayMs)) /
                            (start + delayMs + durMs - (start + delayMs))))
      as [[? E]|[? E]]; rewrite E in H1; lra. }
  assert (start + delayMs + durMs - (start + delayMs) == durMs) as Hdur by ring.
  assert (0 < durMs) as Hd.
  { destruct (Qlt_le_dec 0 durMs) as [|Hle]; [assumption|exfalso].
    rewrite Hdur in Hx.
    destruct (Qeq_dec durMs 0) as [Hz|Hnz].
    - rewrite Hz in Hx. unfold Qdiv in Hx. change (/ 0) with 0 in Hx.
      rewrite Qmult_0_r in Hx. lra.
    - assert (now - (start + delayMs) ==
              (now - (start + delayMs)) / durMs * durMs) as E by (field; exact Hnz).
      revert E Hx. generalize ((now - (start + delayMs)) / durMs). intros x E Hx.
      nra. }
  split; [exact Hd|].
  split; [|rewrite (Qmin_1_le _ Hx); reflexivity].
  apply div_ge_1 in Hx; lra.
Qed.

(** The state of a fade session while other events go on: its callback is
    pending, or it has stopped at a frame at or after its end. *)
Lemma fade_session_runs delayMs durMs start p evs :
  WF p -> noFadeStart evs ->
  (exists h,
      ticks (pending (run evs (startEasedFade delayMs durMs start p))) =
        [(h, fadeTick (fadeSession delayMs durMs start))]) \/
  (ticks (pending (run evs (startEasedFade delayMs durMs start p))) = [] /\
   fadeT (run evs (startEasedFade delayMs durMs start p)) = easeCB 1 /\
   0 < durMs /\
   exists tl, In tl (frameTimes evs) /\ start + delayMs + durMs <= tl).
Proof.
  intros Hp. induction evs as [|ev evs IH] using rev_ind; intros Hev.
  - left. exists (nextHandle p). apply startEasedFade_ticks, Hp.
  - apply Forall_app in Hev as [Hevs Hev]. apply Forall_inv in Hev.
    specialize (IH Hevs). rewrite run_snoc.
    set (q := run evs (startEasedFade delayMs durMs start p)) in *.
    unfold frameTimes. rewrite flat_map_app. fold (frameTimes evs).
    destruct ev as [to ms easing now| |now]; [|discriminate|]; cbn [handleEvent].
    + destruct (animatePOV_fade to ms easing now q) as (-> & _ & ->).
      destruct IH as [IH|(H1 & H2 & Hd & tl & H3 & H4)]; [left; exact IH|].
      right. split; [exact H1|]. split; [exact H2|]. split; [exact Hd|].
      exists tl. split; [apply in_or_app; left; exact H3 | exact H4].
    + destruct IH as [[h Hh]|(H1 & H2 & Hd & tl & H3 & H4)].
      * destruct (runFrame_one_tick now q h _ Hh) as (Hv & Hc & Hs).
        destruct (continues (fadeTick (fadeSession delayMs durMs start)) now) eqn:C.
        -- left. destruct (Hc eq_refl) as (h' & Hh' & _). eauto.
        -- right. destruct (tick_stops delayMs durMs start now C) as (Hd & Hend & Hval).
           split; [auto|]. split; [rewrite Hv; exact Hval|]. split; [exact Hd|].
           exists now. split; [apply in_or_app; right; left; reflexivity | exact Hend].
      * destruct (runFrame_no_tick now q H1) as (-> & _ & ->).
        right. split; [reflexivity|]. split; [exact H2|]. split; [exact Hd|].
        exists tl. split; [apply in_or_app; left; exact H3 | exact H4].
Qed.

(** C7. A fade session started by [startEasedFade(delayMs, durMs)] at time
    [start] on a reachable page: the pending callback of the previous fade
    session is cancelled (and no camera callback is), then the session's own
    callback is scheduled and recorded in [fadeRAF]; and at every later
    frame [now], until the next [startEasedFade], [fadeT] is exactly 0 when
    [now] is before [start + delayMs], and otherwise the easing of
    [clamp((now - (start + delayMs)) / durMs, 0, 1)].  The duration is not
    zero (the progress divides by it) and no earlier frame carries a later
    time stamp than [now]. *)
Theorem startEasedFade_session delayMs durMs start p :
  reachable p ->
  ticks (pending (afterCancel p)) = [] /\
  steps (pending (afterCancel p)) = steps (pending p) /\
  pending (startEasedFade delayMs durMs start p) =
    pending (afterCancel p) ++
    [(nextHandle p, fadeTick (fadeSession delayMs durMs start))] /\
  ticks (pending (startEasedFade delayMs durMs start p)) =
    [(nextHandle p, fadeTick (fadeSession delayMs durMs start))] /\
  fadeRAF (startEasedFade delayMs durMs start p) = Some (nextHandle p) /\
  (forall evs now,
      ~ durMs == 0 -> noFadeStart evs ->
      Forall (fun t => t <= now) (frameTimes evs) ->
      (now < start + delayMs ->
       fadeT (run (evs ++ [Frame now]) (startEasedFade delayMs durMs start p)) = 0) /\
      (start + delayMs <= now ->
       fadeT (run (evs ++ [Frame now]) (startEasedFade delayMs durMs start p)) ==
       easeCB (Qmin (Qmax ((now - (start + delayMs)) / durMs) 0) 1))).
Proof.
  intros Hr. apply reachable_WF in Hr.
  destruct (startEasedFade_shape delayMs durMs start p) as (Hpe & _ & Hraf & _).
  split; [apply afterCancel_ticks, Hr|].
  split; [apply afterCancel_steps, Hr|].
  split; [exact Hpe|].
  split; [apply startEasedFade_ticks, Hr|].
  split; [exact Hraf|].
  intros evs now _ Hev Hsorted. rewrite run_snoc. cbn [handleEvent].
  destruct (fade_session_runs delayMs durMs start p evs Hr Hev)
    as [[h Hh]|(H1 & H2 & Hd & tl & H3 & H4)].
  - destruct (runFrame_one_tick now _ h _ Hh) as (-> & _).
    split; intros Hnow.
    + apply tickValue_before, Hnow.
    + apply tickValue_after, Hnow.
  - destruct (runFrame_no_tick now _ H1) as (-> & _).
    rewrite List.Forall_forall in Hsorted. specialize (Hsorted tl H3).
    split; intros Hnow; [exfalso; lra|].
    rewrite H2. unfold easeCB, cubicBezier. apply ease_proper.
    assert (1 <= (now - (start + delayMs)) / durMs) as Hx
      by (apply div_le_1; lra).
    destruct (Q.max_spec ((now - (start + delayMs)) / durMs) 0) as [[? E]|[? E]];
    destruct (Q.min_spec (Qmax ((now - (start + delayMs)) / durMs) 0) 1)
      as [[? E']|[? E']]; lra.
Qed.

Lemma startEasedFade_session_witness :
  fadeT (run ([Frame 100; AnimatePOV (CUSTOM_VIEWS USA) 1000 easeInOut 150] ++
              [Frame 300])
           (startEasedFade 500 1000 0 initialPage)) = 0 /\
  fadeT (run ([Frame 100; Frame 300] ++ [Frame 2000])
           (startEasedFade 500 1000 0 initialPage)) ==
  easeCB (Qmin (Qmax ((2000 - (0 + 500)) / 1000) 0) 1).
Proof.
  assert (reachable initialPage) as Hr by (exists []; reflexivity).
  destruct (startEasedFade_session 500 1000 0 initialPage Hr)
    as (_ & _ & _ & _ & _ & Hout).
  split.
  - apply Hout; [discriminate | repeat constructor | | reflexivity].
    repeat constructor. discriminate.
  - apply Hout; [discriminate | repeat constructor | | discriminate].
    repeat constructor; discriminate.
Defined.

(** ** Screen lift, and the animator without a globe *)

(** [applyScreenLift] subtracts the lift and clamps the result to
    [-85, 85]. *)
Theorem applyScreenLift_clamps lat liftDeg :
  -85 <= applyScreenLift lat liftDeg <= 85 /\
  (-85 <= lat - liftDeg <= 85 -> applyScreenLift lat liftDeg == lat - liftDeg) /\
  (lat - liftDeg < -85 -> applyScreenLift lat liftDeg == -85) /\
  (85 < lat - liftDeg -> applyScreenLift lat liftDeg == 85).
Proof.
  unfold applyScreenLift.
  pose proof (Q.min_spec 85 (lat - liftDeg)) as E1.
  pose proof (Q.max_spec (-85) (Qmin 85 (lat - liftDeg))) as E2.
  revert E1 E2. generalize (Qmax (-85) (Qmin 85 (lat - liftDeg))).
  generalize (Qmin 85 (lat - liftDeg)). intros m M E1 E2.
  repeat split; intros; lra.
Qed.

Lemma applyScreenLift_clamps_witness :
  applyScreenLift 50 SCREEN_LIFT_DEG == 38 /\
  applyScreenLift (-80) SCREEN_LIFT_DEG == -85.
Proof.
  split.
  - rewrite (proj1 (proj2 (applyScreenLift_clamps 50 SCREEN_LIFT_DEG)));
      [reflexivity | split; discriminate].
  - apply (proj1 (proj2 (proj2 (applyScreenLift_clamps (-80) SCREEN_LIFT_DEG)))).
    reflexivity.
Defined.

(** A frame before the end of a camera session that is alone in the queue
    leaves it alone in the queue. *)
Lemma runFrame_running_step h s now p :
  pending p = [(h, camStep s)] -> (now - t0 s) / ms s < 1 ->
  pending (runFrame now p) = [(nextHandle p, camStep s)].
Proof.
  intros Hp Hrun. unfold runFrame, runCallbacks. rewrite Hp.
  cbn [fold_left snd runCallback]. rewrite (step_running _ _ _ Hrun). reflexivity.
Qed.

Lemma runFrames_running s early : forall p h,
  pending p = [(h, camStep s)] ->
  Forall (fun t => (t - t0 s) / ms s < 1) early ->
  exists h', pending (runFrames early p) = [(h', camStep s)].
Proof.
  induction early as [|t early IH]; intros p h Hp Hall; [eauto|].
  apply Forall_cons in Hall as [Ht Hall].
  change (runFrames (t :: early) p) with (runFrames early (runFrame t p)).
  apply (IH _ (nextHandle p)); [|exact Hall].
  apply (runFrame_running_step h), Ht. exact Hp.
Qed.

(** Frames on an empty queue change neither the queue nor the view. *)
Lemma runFrames_idle later : forall p,
  pending p = [] ->
  pending (runFrames later p) = [] /\ pov (runFrames later p) = pov p.
Proof.
  induction later as [|t later IH]; intros p Hp; [auto|].
  change (runFrames (t :: later) p) with (runFrames later (runFrame t p)).
  assert (pending (runFrame t p) = [] /\ pov (runFrame t p) = pov p) as [H1 H2]
    by (unfold runFrame; rewrite Hp; split; reflexivity).
  destruct (IH _ H1) as [-> ->]. auto.
Qed.

(** A camera session that is alone in the queue ends, at its first frame at
    or after [t0 + ms], on its target, whatever frames ran before that one
    and whatever frames follow: latitude and altitude are those of the
    target and the longitude is the target's up to a whole turn. *)
Theorem animatePOV_reaches_target to ms easing start early now later p :
  globeMounted p = true -> pending p = [] ->
  0 < ms -> Forall (fun t => t < start + ms) early -> start + ms <= now ->
  easing 1 == 1 ->
  pending (runFrames (early ++ now :: later) (animatePOV to ms easing start p)) = [] /\
  lat (pov (runFrames (early ++ now :: later) (animatePOV to ms easing start p)))
    == lat to /\
  altitude (pov (runFrames (early ++ now :: later) (animatePOV to ms easing start p)))
    == altitude to /\
  (lng (pov (runFrames (early ++ now :: later) (animatePOV to ms easing start p)))
     == lng to \/
   lng (pov (runFrames (early ++ now :: later) (animatePOV to ms easing start p)))
     == lng to - 360 \/
   lng (pov (runFrames (early ++ now :: later) (animatePOV to ms easing start p)))
     == lng to + 360).
Proof.
  intros Hm Hp Hms Hearly Hnow He.
  set (s := {| from := pov p; to := to;
               dLng := shortestDelta (lng to) (lng (pov p));
               t0 := start; ms := ms; easing := easing |}).
  assert (pending (animatePOV to ms easing start p) = [(nextHandle p, camStep s)])
    as Hpend.
  { unfold animatePOV. rewrite Hm. cbn [negb requestAnimationFrame snd pending].
    rewrite Hp. reflexivity. }
  assert (Forall (fun t => (t - t0 s) / Animation.ms s < 1) early) as Hrun.
  { eapply List.Forall_impl; [|exact Hearly]. cbn beta. intros t Ht.
    cbn [t0 Animation.ms s]. apply Qlt_shift_div_r; [exact Hms | lra]. }
  destruct (runFrames_running s early _ _ Hpend Hrun) as [h Hq].
  unfold runFrames. rewrite fold_left_app. cbn [fold_left].
  fold (runFrames early (animatePOV to ms easing start p)).
  set (q := runFrames early (animatePOV to ms easing start p)) in *.
  fold (runFrames later (runFrame now q)).
  destruct (runFrame_last_step _ s now _ Hq) as [Hnil Hpov].
  { cbn [t0 Animation.ms s]. apply Qle_shift_div_l; [exact Hms | lra]. }
  destruct (runFrames_idle later _ Hnil) as [-> ->]. rewrite Hpov.
  split; [reflexivity|]. unfold interpolate. cbn [lat lng altitude from Animation.to dLng Animation.easing s].
  rewrite He. split; [ring|]. split; [ring|].
  destruct (shortestDelta_spec (lng to) (lng (pov p))) as (H1 & H2 & H3).
  destruct (Qlt_le_dec 180 (lng to - lng (pov p))) as [Hhi|Hhi].
  - right. left. rewrite (H1 Hhi). ring.
  - destruct (Qlt_le_dec (lng to - lng (pov p)) (-180)) as [Hlo|Hlo].
    + right. right. rewrite (H2 Hlo). ring.
    + left. rewrite (H3 (conj Hlo Hhi)). ring.
Qed.

Lemma animatePOV_reaches_target_witness :
  lat (pov (runFrames ([16; 500; 992] ++ 1008 :: [1024])
              (animatePOV (CUSTOM_VIEWS USA) 1000 easeInOut 0 initialPage))) == 27 /\
  pending (runFrames ([16; 500; 992] ++ 1008 :: [1024])
             (animatePOV (CUSTOM_VIEWS USA) 1000 easeInOut 0 initialPage)) = [].
Proof.
  destruct (animatePOV_reaches_target (CUSTOM_VIEWS USA) 1000 easeInOut 0
              [16; 500; 992] 1008 [1024] initialPage eq_refl eq_refl)
    as (Hnil & Hlat & _).
  - reflexivity.
  - repeat constructor.
  - discriminate.
  - exact (ease_1 (42 # 100) 0 (58 # 100) 1).
  - split; [exact Hlat | exact Hnil].
Defined.

(** ** Further properties of the drivers *)

Lemma runCallbacks_pending now cbs : forall q,
  map snd (pending (runCallbacks now cbs q)) =
  map snd (pending q) ++ List.filter (fun cb => continues cb now) (map snd cbs).
Proof.
  induction cbs as [|[h cb] cbs IH]; intros q.
  - cbn [runCallbacks fold_left map List.filter]. rewrite app_nil_r. reflexivity.
  - change (runCallbacks now ((h, cb) :: cbs) q)
      with (runCallbacks now cbs (runCallback cb now q)).
    rewrite IH. destruct (runCallback_shape cb now q) as (-> & _).
    cbn [map snd List.filter]. rewrite map_app.
    destruct (continues cb now); cbn [map snd]; rewrite <- app_assoc; reflexivity.
Qed.

(** A frame reschedules exactly the callbacks that have not finished, once
    each and in their order; it never multiplies callbacks. *)
Theorem runFrame_reschedules now p :
  map snd (pending (runFrame now p)) =
    List.filter (fun cb => continues cb now) (map snd (pending p)) /\
  (length (pending (runFrame now p)) <= length (pending p))%nat.
Proof.
  assert (map snd (pending (runFrame now p)) =
          List.filter (fun cb => continues cb now) (map snd (pending p))) as H.
  { unfold runFrame. rewrite runCallbacks_pending. reflexivity. }
  split; [exact H|].
  rewrite <- (length_map snd (pending (runFrame now p))), H.
  rewrite <- (length_map snd (pending p)). apply List.filter_length_le.
Qed.

(** On every page reachable from the initial one, the pending callbacks have
    distinct handles below the next handle, at most one of them belongs to a
    fade session, and [fadeRAF] holds the handle of that one. *)
Theorem reachable_queue_invariant p :
  reachable p ->
  NoDup (map fst (pending p)) /\
  Forall (fun hc => (fst hc < nextHandle p)%positive) (pending p) /\
  (length (ticks (pending p)) <= 1)%nat /\
  (forall h s, In (h, fadeTick s) (pending p) -> fadeRAF p = Some h).
Proof.
  intros Hr. destruct (reachable_WF p Hr) as [(F & N & _) Ht].
  split; [exact N|]. split; [exact F|].
  destruct Ht as [Ht|(h & s & Ht & Hraf)].
  - split; [rewrite Ht; cbn [length]; lia|].
    intros h s Hin.
    assert (In (h, fadeTick s) (ticks (pending p))) as Hin'
      by (apply List.filter_In; split; [exact Hin | reflexivity]).
    rewrite Ht in Hin'. destruct Hin'.
  - split; [rewrite Ht; cbn [length]; lia|].
    intros h' s' Hin.
    assert (In (h', fadeTick s') (ticks (pending p))) as Hin'
      by (apply List.filter_In; split; [exact Hin | reflexivity]).
    rewrite Ht in Hin'. destruct Hin' as [[= <- <-]|[]]. exact Hraf.
Qed.

Lemma reachable_queue_invariant_witness :
  (length (ticks (pending (run [StartEasedFade 500 1000 0; Frame 16;
                                StartEasedFade 800 1000 20; Frame 32]
                             initialPage))) <= 1)%nat.
Proof.
  refine (proj1 (proj2 (proj2 (reachable_queue_invariant _ _)))).
  eexists. reflexivity.
Defined.

(** Without a pending fade callback nothing writes [fadeT]. *)
Lemma run_no_tick evs : forall q,
  noFadeStart evs -> ticks (pending q) = [] ->
  ticks (pending (run evs q)) = [] /\ fadeT (run evs q) = fadeT q.
Proof.
  induction evs as [|ev evs IH]; intros q Hev Ht; [auto|].
  apply Forall_cons in Hev as [Hev Hevs].
  change (run (ev :: evs) q) with (run evs (handleEvent ev q)).
  destruct ev as [to ms easing now| |now]; [|discriminate|]; cbn [handleEvent].
  - destruct (animatePOV_fade to ms easing now q) as (Hf & _ & Hti).
    destruct (IH (animatePOV to ms easing now q) Hevs) as [-> ->];
      [rewrite Hti; exact Ht | auto].
  - destruct (runFrame_no_tick now q Ht) as (Hf & _ & Hti).
    destruct (IH (runFrame now q) Hevs Hti) as [-> ->]. auto.
Qed.

Lemma tick_ends delayMs durMs start now :
  0 < durMs -> start + delayMs + durMs <= now ->
  continues (fadeTick (fadeSession delayMs durMs start)) now = false /\
  tickValue (fadeSession delayMs durMs start) now = easeCB 1.
Proof.
  intros Hd Hnow. unfold continues, tickValue, fadeSession. cbn [fade_t0 fade_t1].
  destruct (Qlt_le_dec now (start + delayMs)) as [Hbad|_]; [exfalso; lra|].
  assert (1 <= (now - (start + delayMs)) / (start + delayMs + durMs - (start + delayMs)))
    as Hx by (apply div_le_1; lra).
  rewrite (Qmin_1_le _ Hx).
  destruct (Qlt_le_dec 1 1) as [Hbad|_]; [exfalso; lra | auto].
Qed.

(** The fade session started on a page with a well-formed queue, seen after
    its deadline. *)
Lemma fade_over delayMs durMs start p evs now evs' :
  WF p -> 0 < durMs ->
  noFadeStart evs -> noFadeStart evs' ->
  start + delayMs + durMs <= now ->
  ticks (pending (run (evs ++ Frame now :: evs')
                    (startEasedFade delayMs durMs start p))) = [] /\
  fadeT (run (evs ++ Frame now :: evs')
           (startEasedFade delayMs durMs start p)) == 1.
Proof.
  intros Hr Hd Hev Hev' Hnow.
  unfold run. rewrite fold_left_app. fold (run evs (startEasedFade delayMs durMs start p)).
  cbn [fold_left handleEvent].
  pose proof (fade_session_runs delayMs durMs start p evs Hr Hev) as Hstate.
  set (q := run evs (startEasedFade delayMs durMs start p)) in *.
  fold (run evs' (runFrame now q)).
  assert (ticks (pending (runFrame now q)) = [] /\ fadeT (runFrame now q) = easeCB 1)
    as [Ht Hf].
  { destruct Hstate as [[h Hh]|(H1 & H2 & _)].
    - destruct (runFrame_one_tick now q h _ Hh) as (Hv & _ & Hs).
      destruct (tick_ends delayMs durMs start now Hd Hnow) as [Hc Hval].
      split; [apply Hs, Hc | rewrite Hv; exact Hval].
    - destruct (runFrame_no_tick now q H1) as (Hf & _ & Hti). split; [exact Hti|].
      rewrite Hf. exact H2. }
  destruct (run_no_tick evs' (runFrame now q) Hev' Ht) as [-> ->].
  split; [reflexivity|]. rewrite Hf. apply (ease_1 (48 # 100) (2 # 10) (5 # 100) (99 # 100)).
Qed.

(** A fade session of positive duration is over at the first frame at or
    after [start + delayMs + durMs]: from then on, until the next
    [startEasedFade], no fade callback is pending and [fadeT] stays at 1. *)
Theorem fade_completes delayMs durMs start p evs now evs' :
  reachable p -> 0 < durMs ->
  noFadeStart evs -> noFadeStart evs' ->
  start + delayMs + durMs <= now ->
  ticks (pending (run (evs ++ Frame now :: evs')
                    (startEasedFade delayMs durMs start p))) = [] /\
  fadeT (run (evs ++ Frame now :: evs')
           (startEasedFade delayMs durMs start p)) == 1.
Proof.
  intros Hr Hd Hev Hev' Hnow.
  apply fade_over; [apply reachable_WF, Hr | assumption..].
Qed.

Lemma fade_completes_witness :
  fadeT (run ([Frame 16; Frame 700] ++ Frame 1500 :: [Frame 1516])
           (startEasedFade 500 1000 0 initialPage)) == 1.
Proof.
  refine (proj2 (fade_completes 500 1000 0 initialPage [Frame 16; Frame 700] 1500
                   [Frame 1516] _ _ _ _ _)).
  - exists []. reflexivity.
  - reflexivity.
  - repeat constructor.
  - repeat constructor.
  - discriminate.
Defined.

Lemma steps_filter_comm f l : steps (List.filter f l) = List.filter f (steps l).
Proof.
  unfold steps. induction l as [|hc l IH]; [reflexivity|]. cbn [List.filter].
  destruct (f hc) eqn:Ef, (negb (isTick hc)) eqn:Et; cbn [List.filter];
    rewrite ?Ef, ?Et, IH; reflexivity.
Qed.

Lemma runCallbacks_ticks_only now cbs : forall q,
  steps cbs = [] ->
  pov (runCallbacks now cbs q) = pov q /\
  globeMounted (runCallbacks now cbs q) = globeMounted q /\
  steps (pending (runCallbacks now cbs q)) = steps (pending q).
Proof.
  induction cbs as [|[h cb] cbs IH]; intros q Hs; [auto|].
  unfold steps in Hs. cbn [List.filter] in Hs.
  destruct cb as [s|s]; [discriminate|]. cbn [isTick snd negb] in Hs.
  change (runCallbacks now ((h, fadeTick s) :: cbs) q)
    with (runCallbacks now cbs (tick s now q)).
  destruct (IH (tick s now q) Hs) as (-> & -> & ->).
  unfold tick. destruct (Qlt_le_dec now (fade_t0 s));
    [|destruct (Qlt_le_dec _ 1)];
    cbn [requestAnimationFrame setFadeT setFadeRAF pov globeMounted pending];
    rewrite ?steps_app; unfold steps; cbn [List.filter isTick snd negb];
    rewrite ?app_nil_r; auto.
Qed.

(** While no globe is mounted and no camera callback is pending, nothing
    that happens (calls of [animatePOV], calls of [startEasedFade], frames)
    moves the point of view or schedules a camera callback. *)
Theorem pov_fixed_without_globe evs : forall p,
  globeMounted p = false -> steps (pending p) = [] ->
  pov (run evs p) = pov p /\ steps (pending (run evs p)) = [].
Proof.
  induction evs as [|ev evs IH]; intros p Hm Hs; [auto|].
  change (run (ev :: evs) p) with (run evs (handleEvent ev p)).
  assert (globeMounted (handleEvent ev p) = false /\
          steps (pending (handleEvent ev p)) = [] /\
          pov (handleEvent ev p) = pov p) as (Hm' & Hs' & Hp').
  { destruct ev as [to ms easing now|delayMs durMs now|now]; cbn [handleEvent].
    - unfold animatePOV. rewrite Hm. cbn [negb]. auto.
    - destruct (startEasedFade_shape delayMs durMs now p) as (-> & _ & _ & _ & ->).
      split; [|split; [|reflexivity]].
      + unfold startEasedFade, afterCancel. destruct (fadeRAF p); exact Hm.
      + rewrite steps_app. unfold afterCancel.
        destruct (fadeRAF p);
          cbn [cancelAnimationFrame setPending pending];
          rewrite ?steps_filter_comm, Hs; reflexivity.
    - unfold runFrame.
      destruct (runCallbacks_ticks_only now (pending p) (setPending [] p) Hs)
        as (-> & -> & ->). auto. }
  destruct (IH (handleEvent ev p) Hm' Hs') as [-> ->]. auto.
Qed.

Lemma pov_fixed_without_globe_witness :
  pov (run [AnimatePOV (CUSTOM_VIEWS AUS) 1000 easeInOut 0; Frame 16;
            StartEasedFade 500 1000 20; Frame 600]
         {| globeMounted := false; pov := CUSTOM_VIEWS CAN; fadeT := 0;
            fadeRAF := None; nextHandle := 1%positive; pending := [] |}) =
  CUSTOM_VIEWS CAN.
Proof.
  refine (proj1 (pov_fixed_without_globe _ _ _ _)); reflexivity.
Defined.

(** Nothing the animation code does mounts or unmounts the globe. *)
Lemma runCallbacks_globeMounted now cbs : forall q,
  globeMounted (runCallbacks now cbs q) = globeMounted q.
Proof.
  induction cbs as [|[h cb] cbs IH]; intros q; [reflexivity|].
  change (runCallbacks now ((h, cb) :: cbs) q)
    with (runCallbacks now cbs (runCallback cb now q)).
  rewrite IH. destruct cb as [s|s]; cbn [runCallback].
  - unfold step. destruct (Qlt_le_dec _ 1); reflexivity.
  - unfold tick. destruct (Qlt_le_dec now (fade_t0 s));
      [|destruct (Qlt_le_dec _ 1)]; reflexivity.
Qed.

Lemma handleEvent_globeMounted ev p :
  globeMounted (handleEvent ev p) = globeMounted p.
Proof.
  destruct ev as [to ms easing now|delayMs durMs now|now]; cbn [handleEvent].
  - unfold animatePOV. destruct (negb (globeMounted p)); reflexivity.
  - unfold startEasedFade. destruct (fadeRAF p); reflexivity.
  - unfold runFrame. rewrite runCallbacks_globeMounted. reflexivity.
Qed.

Lemma run_globeMounted evs : forall p, globeMounted (run evs p) = globeMounted p.
Proof.
  induction evs as [|ev evs IH]; intros p; [reflexivity|].
  change (run (ev :: evs) p) with (run evs (handleEvent ev p)).
  rewrite IH. apply handleEvent_globeMounted.
Qed.

Lemma run_app evs evs' p : run (evs ++ evs') p = run evs' (run evs p).
Proof. unfold run. apply fold_left_app. Qed.

Lemma reachable_run evs p : reachable p -> reachable (run evs p).
Proof. intros [evs0 ->]. exists (evs0 ++ evs). symmetry. apply run_app. Qed.

Lemma reachable_globeMounted p : reachable p -> globeMounted p = true.
Proof. intros [evs ->]. rewrite run_globeMounted. reflexivity. Qed.

End Animation.

(* ===================================================================== *)
(** * Highlight colours and interaction: [greyToWhite], [polygonCapColor],
      [onPolygonClick], the [focus] effect                                *)
(* ===================================================================== *)

Module Interaction.
Import Classifier Label Easing Animation.

Local Open Scope string_scope.
Local Open Scope list_scope.
Local Open Scope Q_scope.

Definition COLOR_DARK : string := "rgba(45,45,45,1)".
Definition COLOR_MID : string := "rgba(160,160,160,1)".
Definition MID_GREY_VAL : Q := 160.

(** [Math.round]: the nearest integer, halves going up. *)
Definition round (x : Q) : Z := Qfloor (x + (1 # 2)).

(** The value [v] of the three colour channels in [greyToWhite(t)]. *)
Definition greyChannel (t : Q) : Z :=
  Z.max 0 (Z.min 255 (round (MID_GREY_VAL + (255 - MID_GREY_VAL) * t))).

(** A number in a template literal, for an integer. *)
Definition showInt (n : Z) : string := NilZero.string_of_int (Z.to_int n).

Definition greyToWhite (t : Q) : string :=
  let v := showInt (greyChannel t) in
  "rgba(" ++ v ++ "," ++ v ++ "," ++ v ++ ",1)".

(** [a && b && b === a] for two group keys that may be [null]. *)
Definition sameGroup (a b : option GroupKey) : bool :=
  match a, b with
  | Some x, Some y => bool_decide (y = x)
  | _, _ => false
  end.

(** [polygonCapColor(feat)], as a function of the component state it reads. *)
Definition polygonCapColor (selected : option Feature) (fadeT : Q)
    (hoverAnimGroup : option GroupKey) (hoverAnimT : Q) (feat : option Feature)
  : string :=
  let gid := groupId feat in
  let selG := match selected with
              | Some _ => groupId selected
              | None => None
              end in
  if sameGroup selG gid then greyToWhite fadeT
  else if sameGroup hoverAnimGroup gid then greyToWhite hoverAnimT
  else if isSelectable feat then COLOR_MID else COLOR_DARK.

(** [onPolygonHover]: what [setHovered] receives. *)
Definition onPolygonHover (f : option Feature) : option Feature :=
  match f with
  | Some _ => if isSelectable f then f else None
  | None => None
  end.

(** [GROUPS[s]] is defined exactly for the five keys. *)
Definition groupKeyOf (s : string) : option GroupKey :=
  if String.eqb s "CAN" then Some CAN
  else if String.eqb s "USA" then Some USA
  else if String.eqb s "GBR" then Some GBR
  else if String.eqb s "CHN" then Some CHN
  else if String.eqb s "AUS" then Some AUS
  else None.

(** [Array.prototype.find] *)
Fixpoint find_ {A} (f : A -> bool) (l : list A) : option A :=
  match l with
  | [] => None
  | x :: r => if f x then Some x else find_ f r
  end.

(** The group and feature the [focus] effect flies to: [geoJson?.features]
    is [features], and the effect gives up when there is no feature list, no
    usable [focus] parameter or no feature of that group. *)
Definition focusTarget (features : option (list Feature)) (urlParams : URLSearchParams)
  : option (GroupKey * Feature) :=
  match features with
  | None => None
  | Some fs =>
      match toUpperCase <$> get urlParams "focus" with
      | None => None
      | Some focusParam =>
          match groupKeyOf focusParam with
          | None => None
          | Some key =>
              match find_ (fun f => bool_decide (groupId (Some f) = Some key)) fs with
              | None => None
              | Some targetFeature => Some (key, targetFeature)
              end
          end
      end
  end.

(** The part of the component state the handlers write. *)
Record App : Type :=
  { page : Page; selected : option Feature; autoRotate : bool }.

(** [setAutoRotate(globeRef, on)] *)
Definition setAutoRotate (on : bool) (st : App) : App :=
  if globeMounted (page st)
  then {| page := page st; selected := selected st; autoRotate := on |}
  else st.

Definition setSelected (f : option Feature) (st : App) : App :=
  {| page := page st; selected := f; autoRotate := autoRotate st |}.

Definition onPage (g : Page -> Page) (st : App) : App :=
  {| page := g (page st); selected := selected st; autoRotate := autoRotate st |}.

Section Handlers.

(** The view [{ lat: applyScreenLift(lat0), lng: lng0, altitude: 1.8 }] the
    handlers derive from [sphericalCentroid] for a group without a custom
    view.  Every group has a custom view, so this view is never used. *)
Variable centroidView : option Feature -> POV.

(** [onPolygonClick(feat)]; [nowA] and [nowF] are the clock readings of the
    calls of [animatePOV] and [startEasedFade]. *)
Definition onPolygonClick (feat : option Feature) (nowA nowF : Q) (st : App) : App :=
  if negb (isSelectable feat) then st
  else
    let st :=
      match groupId feat with
      | Some gid => onPage (animatePOV (CUSTOM_VIEWS gid) 1000 easeInOut nowA) st
      | None => onPage (animatePOV (centroidView feat) 1000 easeInOut nowA) st
      end in
    let st := onPage (startEasedFade 500 1000 nowF) st in
    let st := setSelected feat st in
    setAutoRotate false st.

(** The timer callback of the [focus] effect.  [CUSTOM_VIEWS[focusParam]] is
    defined for every group key, so the callback always takes its first
    branch. *)
Definition focusTimer (key : GroupKey) (targetFeature : Feature) (nowA nowF : Q)
    (st : App) : App :=
  let st := onPage (animatePOV (CUSTOM_VIEWS key) 1500 easeInOut nowA) st in
  let st := onPage (startEasedFade 800 1000 nowF) st in
  let st := setSelected (Some targetFeature) st in
  setAutoRotate false st.

(** The [focus] effect together with its timer callback, placed at the time
    the callback runs: what the effect reads (the feature list, the
    parameters, whether the globe is mounted) is written by no handler. *)
Definition focusEffect (features : option (list Feature)) (urlParams : URLSearchParams)
    (nowA nowF : Q) (st : App) : App :=
  if negb (globeMounted (page st)) then st
  else
    match focusTarget features urlParams with
    | None => st
    | Some (key, targetFeature) => focusTimer key targetFeature nowA nowF st
    end.

(** [pause] and [resume], the listeners of the controls' [start] and [end]
    events. *)
Definition pause (st : App) : App :=
  {| page := page st; selected := selected st; autoRotate := false |}.

Definition resume (st : App) : App :=
  {| page := page st; selected := selected st; autoRotate := true |}.

Inductive AppEvent : Type :=
  | Click (feat : option Feature) (nowA nowF : Q)
  | Focus (features : option (list Feature)) (urlParams : URLSearchParams) (nowA nowF : Q)
  | AppFrame (now : Q)
  | ControlStart
  | ControlEnd.

Definition handleApp (ev : AppEvent) (st : App) : App :=
  match ev with
  | Click feat nowA nowF => onPolygonClick feat nowA nowF st
  | Focus features urlParams nowA nowF => focusEffect features urlParams nowA nowF st
  | AppFrame now => onPage (runFrame now) st
  | ControlStart => pause st
  | ControlEnd => resume st
  end.

Definition runApp (evs : list AppEvent) (st : App) : App :=
  fold_left (fun s ev => handleApp ev s) evs st.

End Handlers.

(** The component once the globe is mounted and the effect that configures
    the controls has run. *)
Definition initialApp : App :=
  {| page := initialPage; selected := None; autoRotate := true |}.

(** ** Colours *)

Lemma round_mono x y : x <= y -> (round x <= round y)%Z.
Proof. intros H. unfold round. apply Qfloor_resp_le. lra. Qed.

Lemma round_between (a b : Z) x :
  inject_Z a <= x -> x <= inject_Z b -> (a <= round x <= b)%Z.
Proof.
  intros Ha Hb. unfold round. split.
  - rewrite <- (Qfloor_Z a). apply Qfloor_resp_le. lra.
  - assert (Qfloor (x + (1 # 2)) < b + 1)%Z; [|lia].
    rewrite Zlt_Qlt, inject_Z_plus.
    eapply Qle_lt_trans; [apply Qfloor_le|]. change (inject_Z 1) with 1. lra.
Qed.

(** The channel of [greyToWhite] never leaves 0..255, stays within 160..255
    for a blend in [0, 1] and grows with the blend; the ramp starts exactly
    at [COLOR_MID] and ends in white. *)
Theorem greyToWhite_ramp :
  (forall t, (0 <= greyChannel t <= 255)%Z) /\
  (forall t, 0 <= t <= 1 -> (160 <= greyChannel t <= 255)%Z) /\
  (forall t t', t <= t' -> (greyChannel t <= greyChannel t')%Z) /\
  greyToWhite 0 = COLOR_MID /\
  greyToWhite 1 = "rgba(255,255,255,1)".
Proof.
  split; [|split; [|split; [|split]]].
  - intros t. unfold greyChannel. lia.
  - intros t Ht. unfold greyChannel, MID_GREY_VAL.
    assert (160 <= round (160 + (255 - 160) * t) <= 255)%Z
      by (apply round_between; change (inject_Z 160) with 160;
          change (inject_Z 255) with 255; lra).
    lia.
  - intros t t' Ht. unfold greyChannel, MID_GREY_VAL.
    assert (round (160 + (255 - 160) * t) <= round (160 + (255 - 160) * t'))%Z
      by (apply round_mono; lra).
    lia.
  - vm_compute. reflexivity.
  - vm_compute. reflexivity.
Qed.

(** A feature that is not classified is always drawn in [COLOR_DARK]; a
    feature of the selected group is drawn with the fade blend, whatever is
    hovered; otherwise a feature of the hover group is drawn with the hover
    blend; every other classified feature is drawn in [COLOR_MID].  The
    colour depends on the feature through its group only. *)
Theorem polygonCapColor_cases selected fadeT hoverAnimGroup hoverAnimT feat :
  (groupId feat = None ->
   polygonCapColor selected fadeT hoverAnimGroup hoverAnimT feat = COLOR_DARK) /\
  (forall g, groupId feat = Some g -> groupId selected = Some g ->
   polygonCapColor selected fadeT hoverAnimGroup hoverAnimT feat = greyToWhite fadeT) /\
  (forall g, groupId feat = Some g -> groupId selected <> Some g ->
   hoverAnimGroup = Some g ->
   polygonCapColor selected fadeT hoverAnimGroup hoverAnimT feat =
   greyToWhite hoverAnimT) /\
  (forall g, groupId feat = Some g -> groupId selected <> Some g ->
   hoverAnimGroup <> Some g ->
   polygonCapColor selected fadeT hoverAnimGroup hoverAnimT feat = COLOR_MID) /\
  (forall feat', groupId feat' = groupId feat ->
   polygonCapColor selected fadeT hoverAnimGroup hoverAnimT feat' =
   polygonCapColor selected fadeT hoverAnimGroup hoverAnimT feat).
Proof.
  assert ((match selected with Some _ => groupId selected | None => None end)
          = groupId selected) as Hsel
    by (destruct selected; [reflexivity | symmetry; apply groupId_null]).
  unfold polygonCapColor, isSelectable. rewrite Hsel.
  split; [|split; [|split; [|split]]].
  - intros ->. destruct (groupId selected), hoverAnimGroup; reflexivity.
  - intros g -> ->. cbn [sameGroup]. rewrite bool_decide_eq_true_2 by reflexivity.
    reflexivity.
  - intros g -> Hs ->.
    assert (sameGroup (groupId selected) (Some g) = false) as ->.
    { destruct (groupId selected) as [sg|]; [|reflexivity]. cbn [sameGroup].
      apply bool_decide_eq_false_2. congruence. }
    cbn [sameGroup]. rewrite bool_decide_eq_true_2 by reflexivity. reflexivity.
  - intros g -> Hs Hh.
    assert (sameGroup (groupId selected) (Some g) = false) as ->.
    { destruct (groupId selected) as [sg|]; [|reflexivity]. cbn [sameGroup].
      apply bool_decide_eq_false_2. congruence. }
    assert (sameGroup hoverAnimGroup (Some g) = false) as ->.
    { destruct hoverAnimGroup as [hg|]; [|reflexivity]. cbn [sameGroup].
      apply bool_decide_eq_false_2. congruence. }
    rewrite bool_decide_eq_true_2 by discriminate. reflexivity.
  - intros feat' ->. reflexivity.
Qed.

(** ** The [focus] parameter *)

Lemma find_spec {A} (f : A -> bool) (l : list A) :
  match find_ f l with
  | Some x => exists pre post, l = pre ++ x :: post /\ f x = true /\
                               Forall (fun y => f y = false) pre
  | None => Forall (fun y => f y = false) l
  end.
Proof.
  induction l as [|a l IH]; cbn [find_]; [constructor|].
  destruct (f a) eqn:E.
  - exists [], l. split; [reflexivity|]. split; [exact E | constructor].
  - destruct (find_ f l) as [x|].
    + destruct IH as (pre & post & -> & Hx & Hpre).
      exists (a :: pre), post. split; [reflexivity|]. split; [exact Hx|].
      constructor; assumption.
    + constructor; assumption.
Qed.

Lemma groupKeyOf_keyName s key : groupKeyOf s = Some key <-> s = keyName key.
Proof.
  split.
  - unfold groupKeyOf.
    repeat match goal with
           | |- context [String.eqb s ?k] =>
               destruct (String.eqb s k) eqn:E;
               [apply String.eqb_eq in E; subst s; intros [= <-]; reflexivity
               |clear E]
           end.
    intros [=].
  - intros ->. destruct key; reflexivity.
Qed.

Lemma focusTarget_first features urlParams key f :
  focusTarget features urlParams = Some (key, f) <->
  exists fs s pre post,
    features = Some fs /\ get urlParams "focus" = Some s /\
    toUpperCase s = keyName key /\
    fs = pre ++ f :: post /\ groupId (Some f) = Some key /\
    Forall (fun f' => groupId (Some f') <> Some key) pre.
Proof.
  unfold focusTarget. split.
  + destruct features as [fs|]; [|discriminate].
    destruct (get urlParams "focus") as [s|]; [|discriminate]. cbn [fmap option_fmap option_map].
    destruct (groupKeyOf (toUpperCase s)) as [k|] eqn:Ek; [|discriminate].
    pose proof (find_spec (fun f => bool_decide (groupId (Some f) = Some k)) fs) as Hf.
    destruct (find_ _ fs) as [x|]; [|discriminate].
    intros [= <- <-]. destruct Hf as (pre & post & -> & Hx & Hpre).
    exists (pre ++ x :: post), s, pre, post.
    apply groupKeyOf_keyName in Ek. apply bool_decide_eq_true_1 in Hx.
    repeat split; try assumption.
    eapply List.Forall_impl; [|exact Hpre]. cbn beta. intros y Hy.
    apply bool_decide_eq_false_1 in Hy. exact Hy.
  + intros (fs & s & pre & post & -> & -> & Hs & -> & Hg & Hpre).
    cbn [fmap option_fmap option_map]. rewrite (proj2 (groupKeyOf_keyName _ key) Hs).
    pose proof (find_spec (fun f => bool_decide (groupId (Some f) = Some key))
                  (pre ++ f :: post)) as Hf.
    destruct (find_ _ (pre ++ f :: post)) as [x|].
    * destruct Hf as (pre' & post' & Heq & Hx & Hpre').
      apply bool_decide_eq_true_1 in Hx.
      assert (pre' = pre /\ x = f) as [_ ->]; [|reflexivity].
      clear -Heq Hx Hg Hpre Hpre'. revert pre' Heq Hpre'.
      induction pre as [|a pre IH]; intros pre' Heq Hpre'.
      -- destruct pre' as [|b pre']; cbn [app] in Heq.
         ++ injection Heq as <- _. auto.
         ++ injection Heq as <- _. apply Forall_inv in Hpre'.
            apply bool_decide_eq_false_1 in Hpre'. contradiction.
      -- apply Forall_cons in Hpre as [Ha Hpre].
         destruct pre' as [|b pre']; cbn [app] in Heq.
         ++ injection Heq as <- _. contradiction.
         ++ injection Heq as <- Heq. apply Forall_cons in Hpre' as [_ Hpre'].
            destruct (IH Hpre pre' Heq Hpre') as [-> ->]. auto.
    * exfalso. apply Forall_app in Hf as [_ Hf]. apply Forall_inv in Hf.
      apply bool_decide_eq_false_1 in Hf. contradiction.
Qed.

(** The [focus] effect picks the first feature of the group whose key the
    parameter spells, in any mix of cases; it picks nothing when the feature
    list is missing, when the parameter is absent or spells no group key,
    and when no feature belongs to the group. *)
Theorem focusTarget_spec features urlParams :
  (forall key f,
      focusTarget features urlParams = Some (key, f) <->
      exists fs s pre post,
        features = Some fs /\ get urlParams "focus" = Some s /\
        toUpperCase s = keyName key /\
        fs = pre ++ f :: post /\ groupId (Some f) = Some key /\
        Forall (fun f' => groupId (Some f') <> Some key) pre) /\
  (forall urlParams',
      toUpperCase <$> get urlParams' "focus" = toUpperCase <$> get urlParams "focus" ->
      focusTarget features urlParams' = focusTarget features urlParams).
Proof.
  split.
  - intros key f. apply focusTarget_first.
  - intros urlParams' H. unfold focusTarget. rewrite H. reflexivity.
Qed.

Lemma focusTarget_spec_witness :
  focusTarget (Some [ {| properties := Some {[ "NAME" := "France" ]} |};
                      {| properties := Some {[ "ISO_A3" := "AUS" ]} |} ])
              [("focus", "aus")] =
  Some (AUS, {| properties := Some {[ "ISO_A3" := "AUS" ]} |}).
Proof.
  apply focusTarget_spec.
  eexists. exists "aus". exists [ {| properties := Some {[ "NAME" := "France" ]} |} ], [].
  repeat split; try reflexivity.
  repeat constructor. vm_compute. discriminate.
Defined.

(** ** The handlers *)

(** The calls of the animation code an app event makes. *)
Definition pageEvents (ev : AppEvent) : list Event :=
  match ev with
  | Click feat nowA nowF =>
      match groupId feat with
      | Some gid => [AnimatePOV (CUSTOM_VIEWS gid) 1000 easeInOut nowA;
                     StartEasedFade 500 1000 nowF]
      | None => []
      end
  | Focus features urlParams nowA nowF =>
      match focusTarget features urlParams with
      | Some (key, _) => [AnimatePOV (CUSTOM_VIEWS key) 1500 easeInOut nowA;
                          StartEasedFade 800 1000 nowF]
      | None => []
      end
  | AppFrame now => [Frame now]
  | ControlStart | ControlEnd => []
  end.

(** The events that select a feature. *)
Definition selecting (ev : AppEvent) : bool :=
  match ev with
  | Click feat _ _ => isSelectable feat
  | Focus features urlParams _ _ =>
      match focusTarget features urlParams with
      | Some _ => true
      | None => false
      end
  | _ => false
  end.

Definition quiet (evs : list AppEvent) : Prop :=
  Forall (fun ev => selecting ev = false) evs.

Definition isControlEnd (ev : AppEvent) : bool :=
  match ev with
  | ControlEnd => true
  | _ => false
  end.

Definition noControlEnd (evs : list AppEvent) : Prop :=
  Forall (fun ev => isControlEnd ev = false) evs.

Definition WHITE : string := "rgba(255,255,255,1)".

Lemma isSelectable_groupId feat :
  isSelectable feat = true <-> exists g, groupId feat = Some g.
Proof.
  unfold isSelectable. destruct (groupId feat) as [g|].
  - rewrite bool_decide_eq_true_2 by discriminate. split; eauto.
  - rewrite bool_decide_eq_false_2 by auto. split; [discriminate|]. intros [g [=]].
Qed.

Lemma setAutoRotate_fields on st :
  page (setAutoRotate on st) = page st /\ selected (setAutoRotate on st) = selected st.
Proof. unfold setAutoRotate. destruct (globeMounted (page st)); auto. Qed.

Lemma onPolygonClick_dead_branch cv feat nowA nowF st :
  onPolygonClick cv feat nowA nowF st =
  match groupId feat with
  | Some gid =>
      setAutoRotate false
        (setSelected feat
           (onPage (startEasedFade 500 1000 nowF)
              (onPage (animatePOV (CUSTOM_VIEWS gid) 1000 easeInOut nowA) st)))
  | None => st
  end.
Proof.
  unfold onPolygonClick, isSelectable. destruct (groupId feat) as [g|].
  - rewrite bool_decide_eq_true_2 by discriminate. reflexivity.
  - rewrite bool_decide_eq_false_2 by auto. reflexivity.
Qed.

Lemma handleApp_page cv ev st :
  globeMounted (page st) = true ->
  page (handleApp cv ev st) = run (pageEvents ev) (page st).
Proof.
  intros Hm. destruct ev as [feat nowA nowF|features urlParams nowA nowF|now| |];
    cbn [handleApp pageEvents]; try reflexivity.
  - rewrite onPolygonClick_dead_branch. destruct (groupId feat); [|reflexivity].
    rewrite (proj1 (setAutoRotate_fields _ _)). reflexivity.
  - unfold focusEffect. rewrite Hm. cbn [negb].
    destruct (focusTarget features urlParams) as [[key f]|]; [|reflexivity].
    unfold focusTimer. rewrite (proj1 (setAutoRotate_fields _ _)). reflexivity.
Qed.

Lemma handleApp_centroidView cv cv' ev st : handleApp cv ev st = handleApp cv' ev st.
Proof.
  destruct ev; cbn [handleApp]; try reflexivity.
  rewrite !onPolygonClick_dead_branch. reflexivity.
Qed.

Lemma runApp_snoc cv evs ev st :
  runApp cv (evs ++ [ev]) st = handleApp cv ev (runApp cv evs st).
Proof. unfold runApp. rewrite fold_left_app. reflexivity. Qed.

Lemma runApp_cons cv ev evs st :
  runApp cv (ev :: evs) st = runApp cv evs (handleApp cv ev st).
Proof. reflexivity. Qed.

Lemma runApp_app cv evs evs' st :
  runApp cv (evs ++ evs') st = runApp cv evs' (runApp cv evs st).
Proof. unfold runApp. apply fold_left_app. Qed.

Lemma runApp_page cv evs : forall st,
  globeMounted (page st) = true ->
  page (runApp cv evs st) = run (flat_map pageEvents evs) (page st).
Proof.
  induction evs as [|ev evs IH]; intros st Hm; [reflexivity|].
  change (runApp cv (ev :: evs) st) with (runApp cv evs (handleApp cv ev st)).
  cbn [flat_map]. rewrite run_app, <- (handleApp_page cv ev st Hm).
  apply IH. rewrite (handleApp_page cv ev st Hm), run_globeMounted. exact Hm.
Qed.

Lemma handleApp_selected cv ev st :
  globeMounted (page st) = true ->
  selected (handleApp cv ev st) = selected st \/
  (selecting ev = true /\ isSelectable (selected (handleApp cv ev st)) = true).
Proof.
  intros Hm. destruct ev as [feat nowA nowF|features urlParams nowA nowF|now| |];
    cbn [handleApp selecting]; auto.
  - rewrite onPolygonClick_dead_branch. destruct (groupId feat) as [g|] eqn:Eg; [|auto].
    right. rewrite (proj2 (setAutoRotate_fields _ _)). cbn [setSelected selected].
    split; apply isSelectable_groupId; eauto.
  - unfold focusEffect. rewrite Hm. cbn [negb].
    destruct (focusTarget features urlParams) as [[key f]|] eqn:Ef; [|auto].
    right. split; [reflexivity|]. unfold focusTimer.
    rewrite (proj2 (setAutoRotate_fields _ _)). cbn [setSelected selected].
    apply isSelectable_groupId. exists key.
    apply (proj1 (focusTarget_first features urlParams key f)) in Ef.
    destruct Ef as (fs & s & pre & post & _ & _ & _ & _ & Hg & _). exact Hg.
Qed.

Lemma runApp_quiet cv evs : forall st,
  globeMounted (page st) = true -> quiet evs ->
  selected (runApp cv evs st) = selected st /\
  noFadeStart (flat_map pageEvents evs).
Proof.
  induction evs as [|ev evs IH]; intros st Hm Hq; [split; [reflexivity|constructor]|].
  apply Forall_cons in Hq as [Hev Hq].
  change (runApp cv (ev :: evs) st) with (runApp cv evs (handleApp cv ev st)).
  assert (globeMounted (page (handleApp cv ev st)) = true) as Hm'
    by (rewrite (handleApp_page cv ev st Hm), run_globeMounted; exact Hm).
  destruct (IH _ Hm' Hq) as [-> Hn]. split.
  - destruct (handleApp_selected cv ev st Hm) as [H|[H _]]; [exact H | congruence].
  - cbn [flat_map]. apply Forall_app. split; [|exact Hn].
    destruct ev as [feat nowA nowF|features urlParams nowA nowF|now| |];
      cbn [pageEvents selecting] in *.
    + apply not_true_iff_false in Hev.
      destruct (groupId feat) as [g|] eqn:Eg; [|constructor].
      exfalso. apply Hev, isSelectable_groupId. eauto.
    + destruct (focusTarget features urlParams) as [[key f]|]; [discriminate|constructor].
    + repeat constructor.
    + constructor.
    + constructor.
Qed.

Lemma runApp_autoRotate cv evs : forall st,
  autoRotate st = false -> noControlEnd evs -> autoRotate (runApp cv evs st) = false.
Proof.
  induction evs as [|ev evs IH]; intros st Ha Hn; [exact Ha|].
  apply Forall_cons in Hn as [Hev Hn].
  change (runApp cv (ev :: evs) st) with (runApp cv evs (handleApp cv ev st)).
  apply IH; [|exact Hn].
  destruct ev as [feat nowA nowF|features urlParams nowA nowF|now| |];
    cbn [handleApp]; [| | exact Ha | reflexivity | discriminate].
  - rewrite onPolygonClick_dead_branch. destruct (groupId feat); [|exact Ha].
    unfold setAutoRotate. destruct (globeMounted _); [reflexivity | exact Ha].
  - unfold focusEffect. destruct (negb _); [exact Ha|].
    destruct (focusTarget features urlParams) as [[key f]|]; [|exact Ha].
    unfold focusTimer, setAutoRotate. destruct (globeMounted _); [reflexivity | exact Ha].
Qed.

Lemma greyToWhite_proper t t' : t == t' -> greyToWhite t = greyToWhite t'.
Proof.
  intros H. unfold greyToWhite, greyChannel, round.
  assert (MID_GREY_VAL + (255 - MID_GREY_VAL) * t + (1 # 2) ==
          MID_GREY_VAL + (255 - MID_GREY_VAL) * t' + (1 # 2)) as E
    by (rewrite H; reflexivity).
  rewrite (Qfloor_comp _ _ E). reflexivity.
Qed.

Lemma labelInfo_selectable sel urlParams :
  isSelectable sel = true -> labelInfo sel urlParams <> None.
Proof.
  intros H. apply isSelectable_groupId in H as [g Hg]. unfold labelInfo.
  destruct sel as [f|]; [|rewrite groupId_null in Hg; discriminate].
  rewrite Hg. discriminate.
Qed.

(** The state a selection leaves behind, seen after the deadline of its fade:
    [view], [msA] and [delay] are the arguments the handler passes on. *)
Lemma selection_fades cv st0 view msA delay feat nowA nowF evs now evs' :
  WF (page st0) -> globeMounted (page st0) = true ->
  quiet evs -> quiet evs' -> nowF + delay + 1000 <= now ->
  selected
    (runApp cv (evs ++ AppFrame now :: evs')
       (setAutoRotate false
          (setSelected feat
             (onPage (startEasedFade delay 1000 nowF)
                (onPage (animatePOV view msA easeInOut nowA) st0))))) = feat /\
  fadeT (page
    (runApp cv (evs ++ AppFrame now :: evs')
       (setAutoRotate false
          (setSelected feat
             (onPage (startEasedFade delay 1000 nowF)
                (onPage (animatePOV view msA easeInOut nowA) st0)))))) == 1 /\
  (noControlEnd (evs ++ AppFrame now :: evs') ->
   autoRotate
    (runApp cv (evs ++ AppFrame now :: evs')
       (setAutoRotate false
          (setSelected feat
             (onPage (startEasedFade delay 1000 nowF)
                (onPage (animatePOV view msA easeInOut nowA) st0))))) = false).
Proof.
  intros Hwf Hm Hq Hq' Hnow.
  set (st1 := setAutoRotate false _).
  assert (page st1 = startEasedFade delay 1000 nowF
                       (animatePOV view msA easeInOut nowA (page st0))) as Hp1
    by (unfold st1; rewrite (proj1 (setAutoRotate_fields _ _)); reflexivity).
  assert (globeMounted (page st1) = true) as Hm1.
  { rewrite Hp1.
    change (globeMounted (run [AnimatePOV view msA easeInOut nowA;
                               StartEasedFade delay 1000 nowF] (page st0)) = true).
    rewrite run_globeMounted. exact Hm. }
  assert (quiet (evs ++ AppFrame now :: evs')) as Hall.
  { apply Forall_app. split; [exact Hq|]. constructor; [reflexivity | exact Hq']. }
  destruct (runApp_quiet cv _ st1 Hm1 Hall) as [Hsel _].
  destruct (runApp_quiet cv evs st1 Hm1 Hq) as [_ Hn].
  destruct (runApp_quiet cv evs' st1 Hm1 Hq') as [_ Hn'].
  split; [|split].
  - rewrite Hsel. unfold st1. rewrite (proj2 (setAutoRotate_fields _ _)). reflexivity.
  - rewrite (runApp_page cv _ st1 Hm1), flat_map_app. cbn [flat_map pageEvents app].
    rewrite Hp1.
    apply (fade_over delay 1000 nowF _ _ now _); try assumption.
    + apply animatePOV_WF, Hwf.
    + reflexivity.
  - intros Hn0. apply runApp_autoRotate; [|exact Hn0].
    unfold st1, setAutoRotate.
    cbn [onPage setSelected page]. 
    change (globeMounted (startEasedFade delay 1000 nowF
                            (animatePOV view msA easeInOut nowA (page st0))))
      with (globeMounted (run [AnimatePOV view msA easeInOut nowA;
                               StartEasedFade delay 1000 nowF] (page st0))).
    rewrite run_globeMounted, Hm. reflexivity.
Qed.

Lemma white_when_faded sel t hoverAnimGroup hoverAnimT g f' :
  groupId sel = Some g -> t == 1 -> groupId f' = Some g ->
  polygonCapColor sel t hoverAnimGroup hoverAnimT f' = WHITE.
Proof.
  intros Hs Ht Hf. unfold polygonCapColor.
  destruct sel as [f|]; [|rewrite groupId_null in Hs; discriminate].
  rewrite Hs, Hf. cbn [sameGroup]. rewrite bool_decide_eq_true_2 by reflexivity.
  rewrite (greyToWhite_proper _ _ Ht). vm_compute. reflexivity.
Qed.

Lemma runApp_initial cv evs :
  page (runApp cv evs initialApp) = run (flat_map pageEvents evs) initialPage.
Proof. apply runApp_page. reflexivity. Qed.

Lemma runApp_reachable cv evs : reachable (page (runApp cv evs initialApp)).
Proof. rewrite runApp_initial. eexists. reflexivity. Qed.

(** Whatever the user does (clicks, the [focus] effect, dragging, frames):
    the page is one the animation events reach, so its frame queue is well
    formed; the selection is empty or a classified feature, for which the
    label exists; a selection is never cleared; and the view computed from
    [sphericalCentroid] is never used. *)
Theorem app_invariant centroidView evs :
  page (runApp centroidView evs initialApp) =
    run (flat_map pageEvents evs) initialPage /\
  WF (page (runApp centroidView evs initialApp)) /\
  (selected (runApp centroidView evs initialApp) = None \/
   isSelectable (selected (runApp centroidView evs initialApp)) = true) /\
  (forall urlParams,
      selected (runApp centroidView evs initialApp) <> None ->
      labelInfo (selected (runApp centroidView evs initialApp)) urlParams <> None) /\
  (forall evs',
      selected (runApp centroidView evs initialApp) <> None ->
      selected (runApp centroidView (evs ++ evs') initialApp) <> None) /\
  (forall centroidView',
      runApp centroidView' evs initialApp = runApp centroidView evs initialApp).
Proof.
  assert (forall evs,
             selected (runApp centroidView evs initialApp) = None \/
             isSelectable (selected (runApp centroidView evs initialApp)) = true) as Hsel.
  { intros l. induction l as [|ev l IH] using rev_ind; [left; reflexivity|].
    rewrite runApp_snoc.
    destruct (handleApp_selected centroidView ev (runApp centroidView l initialApp))
      as [->|[_ H]]; [|exact IH|right; exact H].
    apply reachable_globeMounted, runApp_reachable. }
  split; [apply runApp_initial|]. split; [apply reachable_WF, runApp_reachable|].
  split; [apply Hsel|]. split; [|split].
  - intros urlParams Hs. destruct (Hsel evs) as [H|H]; [contradiction|].
    apply labelInfo_selectable, H.
  - intros evs'. induction evs' as [|ev l IH] using rev_ind; intros Hs.
    + rewrite app_nil_r. exact Hs.
    + rewrite app_assoc, runApp_snoc.
      destruct (handleApp_selected centroidView ev
                  (runApp centroidView (evs ++ l) initialApp)) as [->|[_ H]].
      * apply reachable_globeMounted, runApp_reachable.
      * apply IH, Hs.
      * apply isSelectable_groupId in H as [g Hg]. intros E. rewrite E in Hg.
        rewrite groupId_null in Hg. discriminate.
  - intros cv'. induction evs as [|ev l IH] using rev_ind; [reflexivity|].
    rewrite !runApp_snoc, IH. apply handleApp_centroidView.
Qed.

(** A click on a feature of group [g], at any point of a session: once a
    frame at or after 1.5 s past the click has run, and as long as nothing
    else is selected, the clicked feature is the selection, [fadeT] is 1,
    every feature of [g] is drawn in white, and the globe does not rotate
    unless a drag has ended since. *)
Theorem click_turns_group_white centroidView evs0 feat g nowA nowF evs now evs' :
  groupId feat = Some g -> quiet evs -> quiet evs' -> nowF + 1500 <= now ->
  selected (runApp centroidView
              (evs0 ++ Click feat nowA nowF :: evs ++ AppFrame now :: evs')
              initialApp) = feat /\
  fadeT (page (runApp centroidView
                 (evs0 ++ Click feat nowA nowF :: evs ++ AppFrame now :: evs')
                 initialApp)) == 1 /\
  (forall hoverAnimGroup hoverAnimT f',
      groupId f' = Some g ->
      polygonCapColor
        (selected (runApp centroidView
                     (evs0 ++ Click feat nowA nowF :: evs ++ AppFrame now :: evs')
                     initialApp))
        (fadeT (page (runApp centroidView
                        (evs0 ++ Click feat nowA nowF :: evs ++ AppFrame now :: evs')
                        initialApp)))
        hoverAnimGroup hoverAnimT f' = WHITE) /\
  (noControlEnd (evs ++ AppFrame now :: evs') ->
   autoRotate (runApp centroidView
                 (evs0 ++ Click feat nowA nowF :: evs ++ AppFrame now :: evs')
                 initialApp) = false).
Proof.
  intros Hg Hq Hq' Hnow.
  rewrite runApp_app, runApp_cons. cbn [handleApp].
  rewrite onPolygonClick_dead_branch, Hg.
  destruct (selection_fades centroidView (runApp centroidView evs0 initialApp)
              (CUSTOM_VIEWS g) 1000 500 feat nowA nowF evs now evs')
    as (Hs & Hf & Ha); try assumption.
  - apply reachable_WF, runApp_reachable.
  - apply reachable_globeMounted, runApp_reachable.
  - lra.
  - split; [exact Hs|]. split; [exact Hf|]. split; [|exact Ha].
    intros hg ht f' Hf'. apply (white_when_faded _ _ _ _ g); [|exact Hf|exact Hf'].
    rewrite Hs. exact Hg.
Qed.

Lemma click_turns_group_white_witness :
  selected (runApp (fun _ => CUSTOM_VIEWS CAN)
              ([AppFrame 0] ++ Click (mkFeature {[ "ISO_A3" := "AUS" ]}) 10 10 ::
               [AppFrame 16; ControlStart] ++ AppFrame 1510 :: [AppFrame 1526])
              initialApp) = mkFeature {[ "ISO_A3" := "AUS" ]}.
Proof.
  refine (proj1 (click_turns_group_white _ _ _ AUS _ _ _ _ _ _ _ _ _)).
  - vm_compute. reflexivity.
  - repeat constructor.
  - repeat constructor.
  - vm_compute. discriminate.
Defined.

(** The [focus] parameter, at any point of a session: when it spells the key
    of a group that has a feature, the first such feature becomes the
    selection, and once a frame at or after 1.8 s past the timer has run,
    and as long as nothing else is selected, [fadeT] is 1 and every feature
    of the group is drawn in white. *)
Theorem focus_turns_group_white centroidView evs0 features urlParams key f
    nowA nowF evs now evs' :
  focusTarget features urlParams = Some (key, f) ->
  quiet evs -> quiet evs' -> nowF + 1800 <= now ->
  selected (runApp centroidView
              (evs0 ++ Focus features urlParams nowA nowF :: evs ++ AppFrame now :: evs')
              initialApp) = Some f /\
  groupId (Some f) = Some key /\
  fadeT (page (runApp centroidView
                 (evs0 ++ Focus features urlParams nowA nowF ::
                  evs ++ AppFrame now :: evs')
                 initialApp)) == 1 /\
  (forall hoverAnimGroup hoverAnimT f',
      groupId f' = Some key ->
      polygonCapColor
        (selected (runApp centroidView
                     (evs0 ++ Focus features urlParams nowA nowF ::
                      evs ++ AppFrame now :: evs')
                     initialApp))
        (fadeT (page (runApp centroidView
                        (evs0 ++ Focus features urlParams nowA nowF ::
                         evs ++ AppFrame now :: evs')
                        initialApp)))
        hoverAnimGroup hoverAnimT f' = WHITE).
Proof.
  intros Ht Hq Hq' Hnow.
  assert (groupId (Some f) = Some key) as Hg.
  { apply (proj1 (focusTarget_first features urlParams key f)) in Ht.
    destruct Ht as (fs & s & pre & post & _ & _ & _ & _ & Hg & _). exact Hg. }
  rewrite runApp_app, runApp_cons. cbn [handleApp].
  unfold focusEffect.
  rewrite (reachable_globeMounted _ (runApp_reachable centroidView evs0)), Ht.
  cbn [negb]. unfold focusTimer.
  destruct (selection_fades centroidView (runApp centroidView evs0 initialApp)
              (CUSTOM_VIEWS key) 1500 800 (Some f) nowA nowF evs now evs')
    as (Hs & Hf & _); try assumption.
  - apply reachable_WF, runApp_reachable.
  - apply reachable_globeMounted, runApp_reachable.
  - lra.
  - split; [exact Hs|]. split; [exact Hg|]. split; [exact Hf|].
    intros hg ht f' Hf'. apply (white_when_faded _ _ _ _ key); [|exact Hf|exact Hf'].
    rewrite Hs. exact Hg.
Qed.

Lemma focus_turns_group_white_witness :
  selected (runApp (fun _ => CUSTOM_VIEWS CAN)
              ([] ++ Focus (Some [ {| properties := Some {[ "NAME" := "France" ]} |};
                                   {| properties := Some {[ "ISO_A3" := "AUS" ]} |} ])
                       [("focus", "aus")] 1000 1000 ::
               [AppFrame 1016] ++ AppFrame 2800 :: [])
              initialApp) = Some {| properties := Some {[ "ISO_A3" := "AUS" ]} |}.
Proof.
  refine (proj1 (focus_turns_group_white _ _ _ _ AUS _ _ _ _ _ _ _ _ _ _)).
  - vm_compute. reflexivity.
  - repeat constructor.
  - repeat constructor.
  - vm_compute. discriminate.
Defined.

End Interaction.

(* ===================================================================== *)
(** * Geodesy: [sphericalCentroid]                                        *)
(* ===================================================================== *)

Module Geodesy.

Local Open Scope R_scope.

(** A position is a [lng, lat] pair in degrees, a ring a list of positions.
    [feat.geometry] of type ['Polygon'] holds rings; of any other type
    (['MultiPolygon']) it holds polygons, which [.flat()] concatenates. *)
Definition Position : Type := R * R.
Definition Ring : Type := list Position.

Inductive Geometry : Type :=
  | Polygon (coordinates : list Ring)
  | MultiPolygon (coordinates : list (list Ring)).

(** [Math.atan2(y, x)] on real numbers: the angle in (-PI, PI] of the point
    [(x, y)], and 0 at the origin.  On doubles [Math.atan2] also returns
    [-Math.PI], for a negative [y] too small to move the rounded result away
    from it ([Double.sphericalCentroid_of_minus_180]). *)
Definition atan2 (y x : R) : R :=
  if Rlt_dec 0 x then atan (y / x)
  else if Rlt_dec x 0 then
         if Rle_dec 0 y then atan (y / x) + PI else atan (y / x) - PI
       else if Rlt_dec 0 y then PI / 2
            else if Rlt_dec y 0 then - (PI / 2)
                 else 0.

(** [Math.hypot(x, y)] *)
Definition hypot (x y : R) : R := sqrt (x * x + y * y).

(** The accumulators [x, y, z, n] of the two nested loops. *)
Definition Acc : Type := R * R * R * nat.

(** The body of the inner loop, for the position [p].  The sums are exact
    here; the code rounds every addition. *)
Definition addVertex (acc : Acc) (p : Position) : Acc :=
  let '(x, y, z, n) := acc in
  let lng := fst p * PI / 180 in
  let lat := snd p * PI / 180 in
  let cl := cos lat in
  (x + cl * cos lng, y + cl * sin lng, z + sin lat, S n).

Definition addRing (acc : Acc) (ring : Ring) : Acc := fold_left addVertex ring acc.

Definition coordsOf (g : Geometry) : list Ring :=
  match g with
  | Polygon coordinates => coordinates
  | MultiPolygon coordinates => concat coordinates
  end.

Definition sphericalCentroid (g : Geometry) : R * R :=
  let coords := coordsOf g in
  let '(x, y, z, n) := fold_left addRing coords (0, 0, 0, O) in
  match n with
  | O => (0, 0)
  | S _ =>
      let x := x / INR n in
      let y := y / INR n in
      let z := z / INR n in
      let hyp := hypot x y in
      let lat := atan2 z hyp * 180 / PI in
      let lng := atan2 y x * 180 / PI in
      let lng := if Rlt_dec 180 lng then lng - 360 else lng in
      let lng := if Rlt_dec lng (-180) then lng + 360 else lng in
      (lng, lat)
  end.

(** ** The centroid as the specification words it *)

(** Every vertex of every ring, holes included. *)
Definition vertices (g : Geometry) : list Position := concat (coordsOf g).

(** The unit vector of a position given in degrees. *)
Definition unitVector (p : Position) : R * R * R :=
  let lng := fst p * PI / 180 in
  let lat := snd p * PI / 180 in
  (cos lat * cos lng, cos lat * sin lng, sin lat).

Definition sumR (l : list R) : R := fold_right Rplus 0 l.

Definition vx (p : Position) : R := fst (fst (unitVector p)).
Definition vy (p : Position) : R := snd (fst (unitVector p)).
Definition vz (p : Position) : R := snd (unitVector p).

(** The unweighted mean of the unit vectors of [vs]. *)
Definition meanVector (vs : list Position) : R * R * R :=
  (sumR (map vx vs) / INR (length vs),
   sumR (map vy vs) / INR (length vs),
   sumR (map vz vs) / INR (length vs)).

(** Longitude brought back by one turn when it is out of range. *)
Definition wrapLng (lng : R) : R :=
  let lng := if Rlt_dec 180 lng then lng - 360 else lng in
  if Rlt_dec lng (-180) then lng + 360 else lng.

Definition centroidOfMean (g : Geometry) : R * R :=
  match vertices g with
  | [] => (0, 0)
  | _ :: _ =>
      let '(x, y, z) := meanVector (vertices g) in
      (wrapLng (atan2 y x * 180 / PI), atan2 z (hypot x y) * 180 / PI)
  end.

(** ** Facts *)

Lemma Acc_eq (a b c a' b' c' : R) (n n' : nat) :
  a = a' -> b = b' -> c = c' -> n = n' -> (a, b, c, n) = (a', b', c', n').
Proof. intros -> -> -> ->. reflexivity. Qed.

Lemma sumR_app l l' : sumR (l ++ l') = sumR l + sumR l'.
Proof.
  unfold sumR. induction l as [|a l IH]; cbn [app fold_right];
    [ring | rewrite IH; ring].
Qed.

Lemma addRing_sums ring : forall x y z n,
  addRing (x, y, z, n) ring =
  (x + sumR (map vx ring), y + sumR (map vy ring), z + sumR (map vz ring),
   (n + length ring)%nat).
Proof.
  unfold addRing, sumR.
  induction ring as [|p ring IH]; intros x y z n; cbn [fold_left map fold_right length].
  - rewrite !Rplus_0_r, Nat.add_0_r. reflexivity.
  - cbn [addVertex]. rewrite IH. unfold vx, vy, vz, unitVector. cbn [fst snd].
    apply Acc_eq; [ring | ring | ring | lia].
Qed.

Lemma addRings_sums rings : forall x y z n,
  fold_left addRing rings (x, y, z, n) =
  (x + sumR (map vx (concat rings)), y + sumR (map vy (concat rings)),
   z + sumR (map vz (concat rings)), (n + length (concat rings))%nat).
Proof.
  induction rings as [|ring rings IH]; intros x y z n; cbn [fold_left concat].
  - unfold sumR. cbn [map fold_right length]. rewrite !Rplus_0_r, Nat.add_0_r. reflexivity.
  - rewrite addRing_sums, IH, !map_app, length_app, !sumR_app.
    apply Acc_eq; [ring | ring | ring | lia].
Qed.

(** [atan2] takes its values in (-PI, PI]. *)
Lemma atan2_range y x : - PI < atan2 y x <= PI.
Proof.
  pose proof PI_RGT_0 as Hpi. unfold atan2.
  destruct (Rlt_dec 0 x) as [Hx|Hx].
  - pose proof (atan_bound (y / x)). lra.
  - destruct (Rlt_dec x 0) as [Hx'|Hx'].
    + pose proof (atan_bound (y / x)) as Hb.
      assert (/ x < 0) as Hinv by (apply Rinv_lt_0_compat; exact Hx').
      destruct (Rle_dec 0 y) as [Hy|Hy].
      * assert (atan (y / x) <= 0).
        { destruct (Req_dec y 0) as [->|Hy0].
          - unfold Rdiv. rewrite Rmult_0_l, atan_0. lra.
          - left. rewrite <- atan_0. apply atan_increasing. unfold Rdiv. nra. }
        lra.
      * assert (0 < atan (y / x)).
        { rewrite <- atan_0. apply atan_increasing. unfold Rdiv. nra. }
        lra.
    + destruct (Rlt_dec 0 y); [lra|]. destruct (Rlt_dec y 0); lra.
Qed.

Lemma wrapLng_in_range a :
  - PI < a <= PI -> wrapLng (a * 180 / PI) = a * 180 / PI /\
                    -180 < a * 180 / PI <= 180.
Proof.
  intros Ha. pose proof PI_RGT_0 as Hpi.
  assert (a * 180 / PI = a / PI * 180) as E by (field; lra).
  assert (-1 < a / PI <= 1) as Hq.
  { split.
    - apply Rmult_lt_reg_r with PI; [lra|]. unfold Rdiv.
      rewrite Rmult_assoc, Rinv_l by lra. lra.
    - apply Rmult_le_reg_r with PI; [lra|]. unfold Rdiv.
      rewrite Rmult_assoc, Rinv_l by lra. lra. }
  assert (-180 < a * 180 / PI <= 180) as Hr by (rewrite E; lra).
  split; [|exact Hr]. unfold wrapLng.
  destruct (Rlt_dec 180 (a * 180 / PI)); [lra|].
  destruct (Rlt_dec (a * 180 / PI) (-180)); [lra | reflexivity].
Qed.

Lemma sphericalCentroid_is_centroidOfMean g :
  sphericalCentroid g = centroidOfMean g.
Proof.
  unfold sphericalCentroid, centroidOfMean, vertices, meanVector.
  rewrite addRings_sums, !Rplus_0_l. cbn [Nat.add].
  destruct (concat (coordsOf g)) as [|p vs]; [reflexivity|].
  cbn [length]. reflexivity.
Qed.


(** ** A single vertex away from the poles *)

(** [atan2] inverts polar coordinates. *)
Lemma atan2_polar c b :
  0 < c -> - PI < b <= PI -> atan2 (c * sin b) (c * cos b) = b.
Proof.
  intros Hc Hb. pose proof PI_RGT_0 as Hpi.
  assert (forall u, cos u <> 0 -> c * sin u / (c * cos u) = tan u) as Htan.
  { intros u Hu. unfold tan. field. split; [exact Hu | lra]. }
  destruct (Rlt_dec b (- (PI / 2))) as [Hlow|Hlow].
  - (* third quadrant *)
    assert (cos b < 0) as Hcos.
    { rewrite <- cos_neg. apply cos_lt_0; lra. }
    assert (sin b < 0) as Hsin by (apply sin_lt_0_var; lra).
    unfold atan2.
    destruct (Rlt_dec 0 (c * cos b)); [nra|].
    destruct (Rlt_dec (c * cos b) 0); [|nra].
    destruct (Rle_dec 0 (c * sin b)); [nra|].
    rewrite Htan by lra.
    rewrite <- (Rtrigo_facts.tan_pi_plus b) by lra.
    rewrite atan_tan by lra. ring.
  - destruct (Req_dec b (- (PI / 2))) as [->|Hne].
    + rewrite cos_neg, sin_neg, cos_PI2, sin_PI2. unfold atan2.
      replace (c * 0) with 0 by ring.
      destruct (Rlt_dec 0 0); [lra|]. destruct (Rlt_dec 0 0); [lra|].
      destruct (Rlt_dec 0 (c * - (1))); [nra|].
      destruct (Rlt_dec (c * - (1)) 0); [reflexivity | nra].
    + destruct (Rlt_dec b (PI / 2)) as [Hmid|Hmid].
      * (* right half plane *)
        assert (0 < cos b) as Hcos by (apply cos_gt_0; lra).
        unfold atan2. destruct (Rlt_dec 0 (c * cos b)); [|nra].
        rewrite Htan by lra. apply atan_tan. lra.
      * destruct (Req_dec b (PI / 2)) as [->|Hne'].
        -- rewrite cos_PI2, sin_PI2. unfold atan2.
           replace (c * 0) with 0 by ring.
           destruct (Rlt_dec 0 0); [lra|]. destruct (Rlt_dec 0 0); [lra|].
           destruct (Rlt_dec 0 (c * 1)); [reflexivity | nra].
        -- (* second quadrant *)
           assert (cos b < 0) as Hcos by (apply cos_lt_0; lra).
           assert (0 <= sin b) as Hsin.
           { destruct (Req_dec b PI) as [->|HnePI]; [rewrite sin_PI; lra|].
             left. apply sin_gt_0; lra. }
           unfold atan2.
           destruct (Rlt_dec 0 (c * cos b)); [nra|].
           destruct (Rlt_dec (c * cos b) 0); [|nra].
           destruct (Rle_dec 0 (c * sin b)); [|nra].
           rewrite Htan by lra.
           assert (0 < cos (b - PI)) as Hcos' by (apply cos_gt_0; lra).
           replace (tan b) with (tan (PI + (b - PI))) by (f_equal; ring).
           rewrite Rtrigo_facts.tan_pi_plus by lra.
           rewrite atan_tan by lra. ring.
Qed.

Lemma hypot_polar c b : 0 <= c -> hypot (c * cos b) (c * sin b) = c.
Proof.
  intros Hc. unfold hypot. apply sqrt_lem_1; [nra | exact Hc |].
  pose proof (sin2_cos2 b) as H. unfold Rsqr in H.
  transitivity (c * c * (sin b * sin b + cos b * cos b)); [rewrite H|]; ring.
Qed.

(** In exact arithmetic the centroid of a single vertex that is not a pole
    is that vertex. *)
Theorem sphericalCentroid_single_vertex lng lat :
  -90 < lat < 90 -> -180 < lng <= 180 ->
  sphericalCentroid (Polygon [[(lng, lat)]]) = (lng, lat).
Proof.
  intros Hlat Hlng. pose proof PI_RGT_0 as Hpi.
  set (a := lat * PI / 180). set (b := lng * PI / 180).
  assert (- (PI / 2) < a < PI / 2) as Ha by (unfold a; split; nra).
  assert (- PI < b <= PI) as Hb by (unfold b; split; nra).
  assert (0 < cos a) as Hc by (apply cos_gt_0; lra).
  unfold sphericalCentroid.
  cbn [coordsOf fold_left addRing addVertex fst snd INR].
  fold a b.
  replace ((0 + cos a * cos b) / 1) with (cos a * cos b) by field.
  replace ((0 + cos a * sin b) / 1) with (cos a * sin b) by field.
  replace ((0 + sin a) / 1) with (sin a) by field.
  rewrite hypot_polar by lra. rewrite atan2_polar by assumption.
  assert (atan2 (sin a) (cos a) = a) as ->.
  { unfold atan2. destruct (Rlt_dec 0 (cos a)); [|lra]. apply atan_tan. lra. }
  change (if Rlt_dec (if Rlt_dec 180 (b * 180 / PI) then b * 180 / PI - 360
                      else b * 180 / PI) (-180)
          then (if Rlt_dec 180 (b * 180 / PI) then b * 180 / PI - 360
                else b * 180 / PI) + 360
          else (if Rlt_dec 180 (b * 180 / PI) then b * 180 / PI - 360
                else b * 180 / PI)) with (wrapLng (b * 180 / PI)).
  rewrite (proj1 (wrapLng_in_range b Hb)).
  f_equal; unfold a, b; field; lra.
Qed.

Lemma sphericalCentroid_single_vertex_witness :
  sphericalCentroid (Polygon [[(-9885 / 100, 4061 / 100)]]) =
  (-9885 / 100, 4061 / 100).
Proof. apply sphericalCentroid_single_vertex; lra. Defined.

(** At a pole the exact unit vector has no horizontal component, so in exact
    arithmetic the longitude of a single polar vertex comes back as 0; the
    round trip above is stated away from the poles for that reason. *)
Remark sphericalCentroid_pole_exact :
  sphericalCentroid (Polygon [[(45, 90)]]) = (0, 90).
Proof.
  pose proof PI_RGT_0 as Hpi.
  unfold sphericalCentroid.
  cbn [coordsOf fold_left addRing addVertex fst snd INR].
  replace (90 * PI / 180) with (PI / 2) by field.
  rewrite cos_PI2, sin_PI2.
  replace ((0 + 0 * cos (45 * PI / 180)) / 1) with 0 by field.
  replace ((0 + 0 * sin (45 * PI / 180)) / 1) with 0 by field.
  replace ((0 + 1) / 1) with 1 by field.
  assert (hypot 0 0 = 0) as ->.
  { unfold hypot. rewrite Rmult_0_l, Rplus_0_r. apply sqrt_0. }
  assert (atan2 0 0 = 0) as ->.
  { unfold atan2. destruct (Rlt_dec 0 0); [lra|]. destruct (Rlt_dec 0 0); [lra|].
    reflexivity. }
  assert (atan2 1 0 = PI / 2) as ->.
  { unfold atan2. destruct (Rlt_dec 0 0); [lra|]. destruct (Rlt_dec 0 0); [lra|].
    destruct (Rlt_dec 0 1); [reflexivity | lra]. }
  replace (0 * 180 / PI) with 0 by (field; lra).
  replace (PI / 2 * 180 / PI) with 90 by (field; lra).
  destruct (Rlt_dec 180 0); [lra|]. destruct (Rlt_dec 0 (-180)); [lra|]. reflexivity.
Qed.

(** A ring of four vertices symmetric about (0, 0) has its centroid there. *)
Theorem sphericalCentroid_square a :
  0 < a < 90 ->
  sphericalCentroid (Polygon [[(- a, - a); (a, - a); (a, a); (- a, a)]]) = (0, 0).
Proof.
  intros Ha. pose proof PI_RGT_0 as Hpi.
  set (r := a * PI / 180).
  assert (0 < r < PI / 2) as Hr by (unfold r; split; nra).
  assert (0 < cos r) as Hc by (apply cos_gt_0; lra).
  unfold sphericalCentroid.
  cbn [coordsOf fold_left addRing addVertex fst snd].
  replace (- a * PI / 180) with (- r) by (unfold r; field).
  fold r. rewrite !cos_neg, !sin_neg.
  replace (INR 4) with 4 by (simpl; ring).
  set (x := (0 + cos r * cos r + cos r * cos r + cos r * cos r + cos r * cos r) / 4).
  replace ((0 + cos r * - sin r + cos r * sin r + cos r * sin r + cos r * - sin r) / 4)
    with 0 by field.
  replace ((0 + - sin r + - sin r + sin r + sin r) / 4) with 0 by field.
  assert (x = cos r * cos r) as Hx by (unfold x; field).
  assert (0 < x) as Hxpos by (rewrite Hx; nra).
  assert (forall u, 0 < u -> atan2 0 u = 0) as Hzero.
  { intros u Hu. unfold atan2. destruct (Rlt_dec 0 u); [|lra].
    unfold Rdiv. rewrite Rmult_0_l. apply atan_0. }
  rewrite (Hzero x Hxpos).
  assert (0 < hypot x 0) as Hh.
  { unfold hypot. rewrite Rmult_0_l, Rplus_0_r, sqrt_square by lra. exact Hxpos. }
  rewrite (Hzero _ Hh).
  replace (0 * 180 / PI) with 0 by (field; lra).
  destruct (Rlt_dec 180 0); [lra|]. destruct (Rlt_dec 0 (-180)); [lra|]. reflexivity.
Qed.

Lemma sphericalCentroid_square_witness :
  sphericalCentroid (Polygon [[(- 10, - 10); (10, - 10); (10, 10); (- 10, 10)]]) = (0, 0).
Proof. apply sphericalCentroid_square; lra. Defined.

(** ** Invariance and bounds *)

Lemma atan2_right_half y x : 0 <= x -> - (PI / 2) <= atan2 y x <= PI / 2.
Proof.
  intros Hx. pose proof PI_RGT_0 as Hpi. unfold atan2.
  destruct (Rlt_dec 0 x).
  - pose proof (atan_bound (y / x)). lra.
  - destruct (Rlt_dec x 0); [lra|].
    destruct (Rlt_dec 0 y); [lra|]. destruct (Rlt_dec y 0); lra.
Qed.

(** The latitude returned lies in [-90, 90]. *)
Theorem sphericalCentroid_lat_range (g : Geometry) :
  -90 <= snd (sphericalCentroid g) <= 90.
Proof.
  pose proof PI_RGT_0 as Hpi.
  rewrite sphericalCentroid_is_centroidOfMean. unfold centroidOfMean.
  destruct (vertices g) as [|p vs]; [cbn [snd]; lra|].
  destruct (meanVector (p :: vs)) as [[x y] z]. cbn [snd].
  assert (0 <= hypot x y) as Hh by (unfold hypot; apply sqrt_pos).
  pose proof (atan2_right_half z (hypot x y) Hh) as Ha.
  revert Ha. generalize (atan2 z (hypot x y)). intros a Ha.
  assert (a * 180 / PI = a / PI * 180) as -> by (field; lra).
  assert (-1 / 2 <= a / PI <= 1 / 2).
  { split.
    - apply Rmult_le_reg_r with PI; [lra|]. unfold Rdiv at 2.
      rewrite Rmult_assoc, Rinv_l by lra. lra.
    - apply Rmult_le_reg_r with PI; [lra|]. unfold Rdiv at 1.
      rewrite Rmult_assoc, Rinv_l by lra. lra. }
  lra.
Qed.

End Geodesy.

(* ===================================================================== *)
(** * Double arithmetic: [cubicBezier] and [sphericalCentroid]            *)
(* ===================================================================== *)

(** [cubicBezier] as the code computes it: every number is an IEEE 754
    binary64 value, every operation rounds to nearest, and the decimal
    literals of the source stand for the nearest doubles. *)
Module Double.
Import Floats.

#[local] Set Warnings "-inexact-float".
Local Open Scope float_scope.

(** [Math.max(a, b)] and [Math.min(a, b)]: NaN when an argument is NaN, and
    -0 below +0. *)
Definition Math_max (a b : float) : float :=
  if is_nan a || is_nan b then nan
  else if a <? b then b
  else if b <? a then a
  else if get_sign a then b else a.

Definition Math_min (a b : float) : float :=
  if is_nan a || is_nan b then nan
  else if a <? b then a
  else if b <? a then b
  else if get_sign a then a else b.

Definition NEWTON_ITER : nat := 8.
Definition NEWTON_EPS : float := 1e-6.
Definition SUBDIV_EPS : float := 1e-7.

(** What one pass of the [while (t0 < t1)] loop of [solveX] does: it leaves
    the function with a value ([Done]), or goes round again with a new
    bracket and estimate ([Next]). *)
Inductive Outcome : Set :=
  | Done (t : float)
  | Next (t0 t1 t : float).

Section CubicBezier.

Variables x1 y1 x2 y2 : float.

Definition ax : float := 3 * x1 - 3 * x2 + 1.
Definition bx : float := -6 * x1 + 3 * x2.
Definition cx : float := 3 * x1.
Definition ay : float := 3 * y1 - 3 * y2 + 1.
Definition by_ : float := -6 * y1 + 3 * y2.
Definition cy : float := 3 * y1.

Definition sampleX (t : float) : float := ((ax * t + bx) * t + cx) * t.
Definition sampleY (t : float) : float := ((ay * t + by_) * t + cy) * t.
Definition slopeX (t : float) : float := (3 * ax * t + 2 * bx) * t + cx.

(** The [for (let i = 0; i < NEWTON_ITER; i++)] loop, [iters] iterations
    being left. *)
Fixpoint newton (iters : nat) (x t : float) : float :=
  match iters with
  | O => t
  | S n =>
      let s := slopeX t in
      if abs s <? NEWTON_EPS then t
      else newton n x (t - (sampleX t - x) / s)
  end.

(** The number of updates the Newton loop performs. *)
Fixpoint newtonSteps (iters : nat) (x t : float) : nat :=
  match iters with
  | O => O
  | S n =>
      let s := slopeX t in
      if abs s <? NEWTON_EPS then O
      else S (newtonSteps n x (t - (sampleX t - x) / s))
  end.

Definition pass (x t0 t1 t : float) : Outcome :=
  if t0 <? t1 then
    let xEst := sampleX t in
    if abs (xEst - x) <? SUBDIV_EPS then Done t
    else
      let t0' := if xEst <? x then t else t0 in
      let t1' := if xEst <? x then t1 else t in
      let t' := (t0' + t1') / 2 in
      if t1' - t0' <? SUBDIV_EPS then Done t' else Next t0' t1' t'
  else Done t.

(** The [while] loop, at most [fuel] passes; [None] when [fuel] passes have
    not left it. *)
Fixpoint bisect (fuel : nat) (x t0 t1 t : float) : option float :=
  match fuel with
  | O => None
  | S n =>
      match pass x t0 t1 t with
      | Done r => Some r
      | Next t0' t1' t' => bisect n x t0' t1' t'
      end
  end.

Definition solveX (fuel : nat) (x : float) : option float :=
  bisect fuel x 0 1 (newton NEWTON_ITER x x).

(** The function [cubicBezier(x1, y1, x2, y2)] returns. *)
Definition ease (fuel : nat) (x : float) : option float :=
  sampleY <$> solveX fuel (Math_min (Math_max x 0) 1).

(** The state of the loop after [k] passes, as long as none has left it. *)
Fixpoint passes (k : nat) (x t0 t1 t : float) : Outcome :=
  match k with
  | O => Next t0 t1 t
  | S k' =>
      match pass x t0 t1 t with
      | Done r => Done r
      | Next t0' t1' t' => passes k' x t0' t1' t'
      end
  end.

End CubicBezier.

Definition cubicBezier (x1 y1 x2 y2 : float) : nat -> float -> option float :=
  ease x1 y1 x2 y2.

Definition easeCB : nat -> float -> option float := cubicBezier 0.48 0.2 0.05 0.99.
Definition easeInOut : nat -> float -> option float := cubicBezier 0.42 0.00 0.58 1.00.

(** A zero of either sign. *)
Definition isZero (z : float) : Prop := z = 0 \/ z = -0.

(** No number of passes lets [solveX] return. *)
Definition loopsForever (x1 x2 x : float) : Prop :=
  forall fuel, solveX x1 x2 fuel x = None.

(** ** [sphericalCentroid] *)

(** [Math.cos], [Math.sin], [Math.atan2] and [Math.hypot]: the language
    leaves their results to the implementation, so they are parameters. *)
Record MathLib : Type :=
  { Math_cos : float -> float;
    Math_sin : float -> float;
    Math_atan2 : float -> float -> float;
    Math_hypot : float -> float -> float }.

Definition Math_PI : float := 3.141592653589793.

Definition Position : Type := float * float.
Definition Ring : Type := list Position.

Inductive Geometry : Type :=
  | Polygon (coordinates : list Ring)
  | MultiPolygon (coordinates : list (list Ring)).

(** The accumulators [x, y, z, n] of the two nested loops. *)
Record Acc : Type :=
  { acc_x : float; acc_y : float; acc_z : float; acc_n : float }.

Definition coordsOf (g : Geometry) : list Ring :=
  match g with
  | Polygon coordinates => coordinates
  | MultiPolygon coordinates => concat coordinates
  end.

Section Centroid.

Variable M : MathLib.

Definition addVertex (acc : Acc) (p : Position) : Acc :=
  let lng := fst p * Math_PI / 180 in
  let lat := snd p * Math_PI / 180 in
  let cl := Math_cos M lat in
  {| acc_x := acc_x acc + cl * Math_cos M lng;
     acc_y := acc_y acc + cl * Math_sin M lng;
     acc_z := acc_z acc + Math_sin M lat;
     acc_n := acc_n acc + 1 |}.

Definition addRing (acc : Acc) (ring : Ring) : Acc := fold_left addVertex ring acc.

Definition sphericalCentroid (g : Geometry) : float * float :=
  let acc := fold_left addRing (coordsOf g)
               {| acc_x := 0; acc_y := 0; acc_z := 0; acc_n := 0 |} in
  let n := acc_n acc in
  if (n =? 0) || is_nan n then (0, 0)
  else
    let x := acc_x acc / n in
    let y := acc_y acc / n in
    let z := acc_z acc / n in
    let hyp := Math_hypot M x y in
    let lat := Math_atan2 M z hyp * 180 / Math_PI in
    let lng := Math_atan2 M y x * 180 / Math_PI in
    let lng := if 180 <? lng then lng - 360 else lng in
    let lng := if lng <? -180 then lng + 360 else lng in
    (lng, lat).

End Centroid.

(** The correctly rounded values of the four functions at the arguments the
    single vertex (-180, 0) leads to (the double nearest to PI lies below PI,
    so the sine of its opposite is a small negative number); [nan] at every
    other argument. *)
Definition roundedAtMinus180 : MathLib :=
  {| Math_cos := fun a =>
       if a =? 0 then 1 else if a =? - Math_PI then -1 else nan;
     Math_sin := fun a =>
       if a =? 0 then 0
       else if a =? - Math_PI then -1.2246467991473532e-16 else nan;
     Math_atan2 := fun y x =>
       if (y =? 0) && (x =? 1) then 0
       else if (y =? -1.2246467991473532e-16) && (x =? -1) then - Math_PI
       else nan;
     Math_hypot := fun x y =>
       if (x =? -1) && (y =? -1.2246467991473532e-16) then 1 else nan |}.

(** ** Zeros and NaN *)

Lemma not_nan_SF s : is_nan s = false -> Prim2SF s <> S754_nan.
Proof.
  intros H Hc. unfold is_nan in H. rewrite eqb_spec, Hc in H. discriminate.
Qed.

Lemma SF_zero z b : Prim2SF z = S754_zero b -> isZero z.
Proof.
  intros H. unfold isZero. rewrite <- (SF2Prim_Prim2SF z), H.
  destruct b; [right|left]; reflexivity.
Qed.

(** A product by zero is a zero, unless it is NaN (the other factor was
    infinite or NaN). *)
Lemma mul_zero_r u : is_nan (u * 0) = false -> isZero (u * 0).
Proof.
  intros H. apply not_nan_SF in H. rewrite mul_spec in H.
  change (Prim2SF 0) with (S754_zero false) in H.
  destruct (Prim2SF u) as [s|s| |s m e] eqn:Eu; cbn in H; try congruence.
  - apply (SF_zero _ (xorb s false)). rewrite mul_spec, Eu. reflexivity.
  - apply (SF_zero _ (xorb s false)). rewrite mul_spec, Eu. reflexivity.
Qed.

(** A zero divided by a slope the Newton loop accepts is a zero. *)
Lemma zero_div z s :
  isZero z -> is_nan s = false -> (abs s <? NEWTON_EPS) = false -> isZero (z / s).
Proof.
  intros Hz Hn Hs. apply not_nan_SF in Hn.
  rewrite ltb_spec, abs_spec in Hs.
  assert (exists b, Prim2SF z = S754_zero b) as [b Eb]
    by (destruct Hz as [-> | ->]; eexists; reflexivity).
  destruct (Prim2SF s) as [s'|s'| |s' m e] eqn:Es.
  - vm_compute in Hs. discriminate.
  - apply (SF_zero _ (xorb b s')). rewrite div_spec, Eb, Es. reflexivity.
  - congruence.
  - apply (SF_zero _ (xorb b s')). rewrite div_spec, Eb, Es. reflexivity.
Qed.

Lemma zero_sub_0 z : isZero z -> isZero (z - 0).
Proof. intros [-> | ->]; [left|right]; reflexivity. Qed.

Lemma zero_sub_l z : isZero z -> 0 - z = 0.
Proof. intros [-> | ->]; reflexivity. Qed.

Lemma one_sub_zero z : isZero z -> 1 - z = 1.
Proof. intros [-> | ->]; reflexivity. Qed.

Lemma zero_close z : isZero z -> (abs (z - 0) <? SUBDIV_EPS) = true.
Proof. intros [-> | ->]; reflexivity. Qed.

(** ** The end points *)

Section Ends.

Variables x1 y1 x2 y2 : float.

Lemma sampleX_at_0 : is_nan (sampleX x1 x2 0) = false -> isZero (sampleX x1 x2 0).
Proof. unfold sampleX. apply mul_zero_r. Qed.

Lemma sampleY_at_0 : is_nan (sampleY y1 y2 0) = false -> isZero (sampleY y1 y2 0).
Proof. unfold sampleY. apply mul_zero_r. Qed.

(** At 0 the Newton loop stays at 0. *)
Lemma newton_at_0 n :
  is_nan (sampleX x1 x2 0) = false -> is_nan (slopeX x1 x2 0) = false ->
  newton x1 x2 n 0 0 = 0.
Proof.
  intros HX Hs. induction n as [|n IH]; [reflexivity|]. cbn [newton].
  destruct (abs (slopeX x1 x2 0) <? NEWTON_EPS) eqn:E; [reflexivity|].
  rewrite (zero_sub_l _ (zero_div _ _ (zero_sub_0 _ (sampleX_at_0 HX)) Hs E)).
  exact IH.
Qed.

(** At 1 the Newton loop stays at 1 when [sampleX 1] is exactly 1. *)
Lemma newton_at_1 n :
  sampleX x1 x2 1 = 1 -> is_nan (slopeX x1 x2 1) = false ->
  newton x1 x2 n 1 1 = 1.
Proof.
  intros HX Hs. induction n as [|n IH]; [reflexivity|]. cbn [newton].
  destruct (abs (slopeX x1 x2 1) <? NEWTON_EPS) eqn:E; [reflexivity|].
  rewrite HX. change (1 - 1) with 0.
  rewrite (one_sub_zero _ (zero_div 0 _ (or_introl eq_refl) Hs E)).
  exact IH.
Qed.

Lemma solveX_at_0 fuel :
  is_nan (sampleX x1 x2 0) = false -> is_nan (slopeX x1 x2 0) = false ->
  solveX x1 x2 (S fuel) 0 = Some 0.
Proof.
  intros HX Hs. unfold solveX. rewrite (newton_at_0 _ HX Hs).
  cbn [bisect]. unfold pass. change (0 <? 1) with true. cbv iota.
  rewrite (zero_close _ (sampleX_at_0 HX)). reflexivity.
Qed.

Lemma solveX_at_1 fuel :
  sampleX x1 x2 1 = 1 -> is_nan (slopeX x1 x2 1) = false ->
  solveX x1 x2 (S fuel) 1 = Some 1.
Proof.
  intros HX Hs. unfold solveX. rewrite (newton_at_1 _ HX Hs).
  cbn [bisect]. unfold pass. change (0 <? 1) with true. cbv iota.
  rewrite HX. change (abs (1 - 1) <? SUBDIV_EPS) with true. reflexivity.
Qed.

End Ends.




(** ** The bisection loop *)

Section Loop.

Variables x1 x2 : float.

Lemma bisect_fuel_mono n : forall m x t0 t1 t r,
  bisect x1 x2 n x t0 t1 t = Some r -> (n <= m)%nat ->
  bisect x1 x2 m x t0 t1 t = Some r.
Proof.
  induction n as [|n IH]; intros m x t0 t1 t r H Hle; [discriminate|].
  destruct m as [|m]; [lia|]. cbn [bisect] in *.
  destruct (pass x1 x2 x t0 t1 t); [exact H|]. apply (IH m); [exact H | lia].
Qed.

Lemma bisect_passes k : forall n x t0 t1 t a b c,
  passes x1 x2 k x t0 t1 t = Next a b c ->
  bisect x1 x2 (k + n) x t0 t1 t = bisect x1 x2 n x a b c.
Proof.
  induction k as [|k IH]; intros n x t0 t1 t a b c H; cbn [passes] in H.
  - injection H as -> -> ->. reflexivity.
  - cbn [Nat.add bisect]. destruct (pass x1 x2 x t0 t1 t); [discriminate|].
    apply IH, H.
Qed.

Lemma bisect_running k : forall n x t0 t1 t a b c,
  passes x1 x2 k x t0 t1 t = Next a b c -> (n <= k)%nat ->
  bisect x1 x2 n x t0 t1 t = None.
Proof.
  induction k as [|k IH]; intros n x t0 t1 t a b c H Hle.
  - replace n with O by lia. reflexivity.
  - destruct n as [|n]; [reflexivity|]. cbn [passes] in H. cbn [bisect].
    destruct (pass x1 x2 x t0 t1 t); [discriminate|].
    apply (IH n _ _ _ _ _ _ _ H). lia.
Qed.

(** A state that a pass reproduces is never left. *)
Lemma bisect_stuck x a b c :
  pass x1 x2 x a b c = Next a b c -> forall n, bisect x1 x2 n x a b c = None.
Proof.
  intros H n. induction n as [|n IH]; [reflexivity|]. cbn [bisect]. rewrite H. exact IH.
Qed.

(** What the loop returns is what some pass left it with. *)
Lemma bisect_Some n : forall x t0 t1 t r,
  bisect x1 x2 n x t0 t1 t = Some r ->
  exists k a b c,
    (k < n)%nat /\ passes x1 x2 k x t0 t1 t = Next a b c /\
    pass x1 x2 x a b c = Done r.
Proof.
  induction n as [|n IH]; intros x t0 t1 t r H; [discriminate|].
  cbn [bisect] in H. destruct (pass x1 x2 x t0 t1 t) as [r'|a b c] eqn:Hp.
  - injection H as ->. exists O, t0, t1, t. split; [lia|].
    split; [reflexivity | exact Hp].
  - destruct (IH _ _ _ _ _ H) as (k & a' & b' & c' & Hk & Hps & Hd).
    exists (S k), a', b', c'. split; [lia|]. split; [|exact Hd].
    cbn [passes]. rewrite Hp. exact Hps.
Qed.

Lemma pass_leaves x t0 t1 t r :
  pass x1 x2 x t0 t1 t = Done r ->
  ((t0 <? t1) = false /\ r = t) \/
  ((t0 <? t1) = true /\ (abs (sampleX x1 x2 t - x) <? SUBDIV_EPS) = true /\ r = t) \/
  ((t0 <? t1) = true /\
   exists a b, (b - a <? SUBDIV_EPS) = true /\ r = (a + b) / 2 /\
               ((a = t /\ b = t1) \/ (a = t0 /\ b = t))).
Proof.
  unfold pass. destruct (t0 <? t1); [|intros [= <-]; auto].
  destruct (abs (sampleX x1 x2 t - x) <? SUBDIV_EPS); [intros [= <-]; auto|].
  destruct (sampleX x1 x2 t <? x).
  - destruct (t1 - t <? SUBDIV_EPS) eqn:Hw; [|discriminate].
    intros [= <-]. right. right. split; [reflexivity|]. exists t, t1. auto.
  - destruct (t - t0 <? SUBDIV_EPS) eqn:Hw; [|discriminate].
    intros [= <-]. right. right. split; [reflexivity|]. exists t0, t. auto.
Qed.

Lemma pass_goes_round x t0 t1 t a b c :
  pass x1 x2 x t0 t1 t = Next a b c ->
  (t0 <? t1) = true /\ (abs (sampleX x1 x2 t - x) <? SUBDIV_EPS) = false /\
  (b - a <? SUBDIV_EPS) = false /\ c = (a + b) / 2 /\
  ((a = t /\ b = t1 /\ (sampleX x1 x2 t <? x) = true) \/
   (a = t0 /\ b = t /\ (sampleX x1 x2 t <? x) = false)).
Proof.
  unfold pass. destruct (t0 <? t1); [|discriminate].
  destruct (abs (sampleX x1 x2 t - x) <? SUBDIV_EPS); [discriminate|].
  destruct (sampleX x1 x2 t <? x).
  - destruct (t1 - t <? SUBDIV_EPS) eqn:Hw; [discriminate|].
    intros [= <- <- <-]. auto 8.
  - destruct (t - t0 <? SUBDIV_EPS) eqn:Hw; [discriminate|].
    intros [= <- <- <-]. auto 8.
Qed.

(** One more pass, seen from the end. *)
Lemma passes_snoc k : forall x t0 t1 t,
  passes x1 x2 (S k) x t0 t1 t =
  match passes x1 x2 k x t0 t1 t with
  | Done r => Done r
  | Next a b c => pass x1 x2 x a b c
  end.
Proof.
  induction k as [|k IH]; intros x t0 t1 t.
  - cbn [passes]. destruct (pass x1 x2 x t0 t1 t); reflexivity.
  - change (passes x1 x2 (S (S k)) x t0 t1 t)
      with (match pass x1 x2 x t0 t1 t with
            | Done r => Done r
            | Next a b c => passes x1 x2 (S k) x a b c
            end).
    cbn [passes] in *. destruct (pass x1 x2 x t0 t1 t) as [r|a b c]; [reflexivity|].
    apply IH.
Qed.

(** From the second pass on, the estimate is the midpoint of a bracket that
    is not narrower than [SUBDIV_EPS]. *)
Lemma passes_midpoint k x t0 t1 t a b c :
  passes x1 x2 (S k) x t0 t1 t = Next a b c ->
  c = (a + b) / 2 /\ (b - a <? SUBDIV_EPS) = false.
Proof.
  rewrite passes_snoc. destruct (passes x1 x2 k x t0 t1 t) as [r|a' b' c'];
    [discriminate|].
  intros H. apply pass_goes_round in H as (_ & _ & Hw & Hc & _). auto.
Qed.

Lemma newtonSteps_bound n : forall x t, (newtonSteps x1 x2 n x t <= n)%nat.
Proof.
  induction n as [|n IH]; intros x t; cbn [newtonSteps]; [lia|].
  destruct (abs (slopeX x1 x2 t) <? NEWTON_EPS); [lia|].
  specialize (IH x (t - (sampleX x1 x2 t - x) / slopeX x1 x2 t)). lia.
Qed.

End Loop.




(** ** The longitude -180 *)

Section MinusPI.

Variable M : MathLib.

Hypothesis cos_0 : Math_cos M 0 = 1.
Hypothesis sin_0 : Math_sin M 0 = 0.
Hypothesis cos_minus_PI : Math_cos M (- Math_PI) = -1.
Hypothesis sin_minus_PI : Math_sin M (- Math_PI) = -1.2246467991473532e-16.
Hypothesis hypot_1 : Math_hypot M (-1) (-1.2246467991473532e-16) = 1.
Hypothesis atan2_0 : Math_atan2 M 0 1 = 0.
Hypothesis atan2_minus_PI :
  Math_atan2 M (-1.2246467991473532e-16) (-1) = - Math_PI.

(** With any library that rounds correctly at these arguments, the single
    vertex (-180, 0) has the centroid (-180, 0): the wrap only moves
    longitudes strictly below -180. *)
Lemma sphericalCentroid_of_minus_180 :
  sphericalCentroid M (Polygon [[(-180, 0)]]) = (-180, 0).
Proof.
  unfold sphericalCentroid.
  cbn [coordsOf fold_left addRing addVertex fst snd acc_x acc_y acc_z acc_n].
  change (-180 * Math_PI / 180) with (- Math_PI).
  change (0 * Math_PI / 180) with 0.
  rewrite cos_0, sin_0, cos_minus_PI, sin_minus_PI.
  change (0 + 1 * -1) with (-1).
  change (0 + 1 * -1.2246467991473532e-16) with (-1.2246467991473532e-16).
  change (0 + 0) with 0. change (0 + 1) with 1.
  change ((1 =? 0) || is_nan 1) with false. cbv iota.
  change (-1 / 1) with (-1).
  change (-1.2246467991473532e-16 / 1) with (-1.2246467991473532e-16).
  change (0 / 1) with 0.
  rewrite hypot_1, atan2_0, atan2_minus_PI.
  reflexivity.
Qed.

End MinusPI.


End Double.
